(** * ChatCityPlatform: transit pipeline, shallow embedding and properties

    The development follows the Python sources module by module:

    - [Stitcher]    : tools/fill_pt_route_edges_and_prune.py
    - [Validator]   : tools/explicit_chains_validate.py
    - [Planner]     : tools/od_to_explicit_chains.py
    - [LaneMatcher] : map_stops_to_network_optimized.py
    - [Headings]    : map_stops_to_network_optimized.py (heading estimator)
    - [Timetable]   : convert_timetable_to_sumo.py
    - [StopFiles]   : tools/fill_pt_route_edges_and_prune.py (stop and route files)
    - [Trips]       : tools/fill_pt_route_edges_and_prune.py (external router)
    - [Requests]    : tools/od_to_explicit_chains.py (requests, time window)
    - [Filter]      : tools/filter_pt_routes.py
    - [Pipeline]    : tools/od_plan_and_validate.py (planner, then validator)

    Modelling conventions.  Python [int] is [Z] (counters that only count
    are [nat]).  A Python [float] is a double, and it is modelled in one
    of three ways, by what the code does with it:

    - where the code adds doubles and compares the sum, the model has
      the doubles themselves, the primitive floats of [PrimFloat] (IEEE
      754 binary64, as in Python): the stop positions of the route
      stitcher, and the heading estimator, whose [math] functions [cos],
      [sin], [atan2] and [hypot] are parameters;
    - the position range of the lane matcher is over the rationals [Q],
      a finite double being the number it denotes, with an explicit
      rounding [rnd] after each sum and difference, of which only
      monotonicity and [rnd 0 = 0] are assumed; the rendering with two
      decimals is exact on [Q];
    - where the code only compares doubles (walk lengths and bounds of
      the planner, distances of the lane matcher) they are rationals [Q];
      the heading difference of the lane matcher is computed on [Q]
      without rounding, and only its comparison with the tolerance is
      used.

    A Python [str] is a [string] whose characters are its code points,
    all below U+0100.  A [dict] that is only looked up is a [gmap]; a
    [dict] that is iterated is an insertion-ordered association list
    ([dict_set]/[dict_get]).  A Python function that raises returns in
    [option] or in a sum type.  XML and JSON parsing is outside the
    model: elements are records holding the attributes the code
    reads. *)

From Stdlib Require Import ZArith QArith Qminmax Qround Qabs Psatz String Ascii List Bool.
From Stdlib Require Import Floats Uint63.
From stdpp Require Import gmap strings list.
Import ListNotations.

#[local] Open Scope string_scope.
#[local] Open Scope list_scope.
#[local] Open Scope Z_scope.

(** ** Python helpers shared by the tools *)

(** An insertion-ordered dictionary with string keys, as Python's [dict]:
    assigning to a key that is present replaces the value in place. *)
Fixpoint dict_set {V : Type} (k : string) (v : V) (d : list (string * V))
  : list (string * V) :=
  match d with
  | [] => [(k, v)]
  | (k', v') :: d' =>
      if String.eqb k k' then (k, v) :: d' else (k', v') :: dict_set k v d'
  end.

Fixpoint dict_get {V : Type} (k : string) (d : list (string * V)) : option V :=
  match d with
  | [] => None
  | (k', v') :: d' => if String.eqb k k' then Some v' else dict_get k d'
  end.

Definition dict_keys {V : Type} (d : list (string * V)) : list string :=
  map fst d.

(** [x < y] on rationals, as a boolean. *)
Definition Qltb (x y : Q) : bool := negb (Qle_bool y x).

(** Python indexing [l[j]]: a negative index counts from the end. *)
Definition py_index {A : Type} (l : list A) (j : Z) : option A :=
  if 0 <=? j then l !! Z.to_nat j
  else if 0 <=? Z.of_nat (length l) + j
       then l !! Z.to_nat (Z.of_nat (length l) + j)
       else None.

(** ** Route stitcher *)
Module Stitcher.

(** [_dedupe_consecutive] *)
Fixpoint dedupe_from (last : option string) (seq : list string) : list string :=
  match seq with
  | [] => []
  | x :: seq' =>
      if decide (last = Some x) then dedupe_from last seq'
      else x :: dedupe_from (Some x) seq'
  end.

Definition _dedupe_consecutive (seq : list string) : list string :=
  dedupe_from None seq.

(** [Stats] *)
Record Stats := mkStats {
  routes_total : nat;
  routes_kept : nat;
  routes_dropped_missing_stop : nat;
  routes_dropped_no_path : nat;
  routes_dropped_duarouter_missing : nat;
  routes_dropped_not_downstream : nat;
  vehicles_total : nat;
  vehicles_kept : nat;
  vehicles_dropped_route_missing : nat;
  segments_total : nat;
  segments_cached : nat
}.

Definition Stats0 : Stats := mkStats 0 0 0 0 0 0 0 0 0 0 0.

(** The tolerance [eps = 1e-3] of [_is_stop_sequence_downstream]: the
    double nearest to 1/1000. *)
Definition eps : float := 0.001%float.

(** The loop state of [_is_stop_sequence_downstream]. *)
Record walk_state := mkWalk {
  prev_edge : option string;
  prev_pos_end : option float;
  idx : Z
}.

Definition walk0 : walk_state := mkWalk None None (-1).

(** [for j in range(start, len(route_edges)): if route_edges[j] == e: found = j; break],
    with [n] the number of indices left in the range. *)
Fixpoint find_in_range (route_edges : list string) (e : string) (n : nat) (j : Z)
  : option Z :=
  match n with
  | O => None
  | S n' =>
      if decide (py_index route_edges j = Some e) then Some j
      else find_in_range route_edges e n' (j + 1)
  end.

Definition find_edge (route_edges : list string) (e : string) (start : Z) : option Z :=
  find_in_range route_edges e (Z.to_nat (Z.of_nat (length route_edges) - start)) start.

Section Downstream.
(** The three maps read from the mapped-stop files. *)
Variable stop_to_edge : gmap string string.
Variable stop_to_startpos : gmap string float.
Variable stop_to_posrange : gmap string (option float * option float).

(** The effective [(pos_start, pos_end)] of a stop, after the two
    fall-backs of the loop body. *)
Definition stop_positions (sid : string) : option float * option float :=
  let '(pos_start, pos_end) := default (None, None) (stop_to_posrange !! sid) in
  let pos_start :=
    match pos_start with
    | None => stop_to_startpos !! sid
    | Some _ => pos_start
    end in
  let pos_end :=
    match pos_end with
    | None => pos_start
    | Some _ => pos_end
    end in
  (pos_start, pos_end).

(** [pos_start + eps < prev_pos_end], when both are known: the sum and
    the comparison are those of the doubles. *)
Definition behind (prev_end pos_start : option float) : bool :=
  match prev_end, pos_start with
  | Some pe, Some ps => PrimFloat.ltb (PrimFloat.add ps eps) pe
  | _, _ => false
  end.

(** One iteration of [for sid in stop_ids]; [None] is [return False]. *)
Definition downstream_step (route_edges : list string)
    (st : walk_state) (sid : string) : option walk_state :=
  match stop_to_edge !! sid with
  | None => None
  | Some e =>
      if String.eqb e "" then None
      else
        let start :=
          if decide (Some e = prev_edge st) then idx st else idx st + 1 in
        match find_edge route_edges e start with
        | None => None
        | Some found =>
            let '(pos_start, pos_end) := stop_positions sid in
            if bool_decide (prev_edge st = Some e) && (found =? idx st)
               && behind (prev_pos_end st) pos_start
            then None
            else Some (mkWalk (Some e) pos_end found)
        end
  end.

Fixpoint walk_stops (route_edges : list string) (st : walk_state)
    (stop_ids : list string) : option walk_state :=
  match stop_ids with
  | [] => Some st
  | sid :: rest =>
      match downstream_step route_edges st sid with
      | None => None
      | Some st' => walk_stops route_edges st' rest
      end
  end.

Definition _is_stop_sequence_downstream (route_edges : list string)
    (stop_ids : list string) : bool :=
  match route_edges with
  | [] => false
  | _ :: _ =>
      if (length stop_ids <? 2)%nat then false
      else
        match walk_stops route_edges walk0 stop_ids with
        | Some _ => true
        | None => false
        end
  end.

(** The downstream condition in the words of the specification.  Two
    consecutive stops matched at the same path occurrence are in order
    when the second one starts no earlier than the first one ends, up to
    the tolerance: the start position plus the tolerance is not below
    the end position, in the arithmetic of the doubles (a position that
    is not known constrains nothing). *)
Definition not_backward (sid_prev sid : string) : Prop :=
  forall pe ps : float,
    snd (stop_positions sid_prev) = Some pe ->
    fst (stop_positions sid) = Some ps ->
    PrimFloat.ltb (PrimFloat.add ps eps) pe = false.

(** [matched_at route_edges prev sid j]: walking the path from left to
    right, the stop [sid] is matched at path index [j], the first index
    at or after the index matched for the previous stop [prev] (index 0
    for the first stop) that holds the stop's edge; a stop matched at the
    very index of its predecessor is not behind it on the lane. *)
Definition matched_at (route_edges : list string) (prev : option (nat * string))
    (sid : string) (j : nat) : Prop :=
  let lo := match prev with Some (jp, _) => jp | None => O end in
  (exists e, stop_to_edge !! sid = Some e /\ e <> "" /\
             route_edges !! j = Some e /\
             forall i, (lo <= i < j)%nat -> route_edges !! i <> Some e) /\
  (lo <= j)%nat /\
  match prev with
  | Some (jp, sid_prev) => j = jp -> not_backward sid_prev sid
  | None => True
  end.

(** [greedy_walk route_edges prev stop_ids js]: the stops [stop_ids] are
    matched, one after the other, at the path indices [js]. *)
Fixpoint greedy_walk (route_edges : list string) (prev : option (nat * string))
    (stop_ids : list string) (js : list nat) : Prop :=
  match stop_ids, js with
  | [], [] => True
  | sid :: stop_ids', j :: js' =>
      matched_at route_edges prev sid j /\
      greedy_walk route_edges (Some (j, sid)) stop_ids' js'
  | _, _ => False
  end.

(** The loop state that corresponds to the previous match [prev]. *)
Definition walk_rel (route_edges : list string) (st : walk_state)
    (prev : option (nat * string)) : Prop :=
  match prev with
  | None => st = walk0
  | Some (jp, sid_prev) =>
      exists e, stop_to_edge !! sid_prev = Some e /\ e <> "" /\
        prev_edge st = Some e /\ idx st = Z.of_nat jp /\
        route_edges !! jp = Some e /\
        prev_pos_end st = snd (stop_positions sid_prev)
  end.
End Downstream.

(** A [<route>] element: [route_id] is [r.get("id")] (empty when the
    attribute is absent) and [stops_sequence] is [_stops_sequence(r)]. *)
Record RouteElem := mkRoute {
  route_id : string;
  stops_sequence : list string
}.

(** A [<vehicle>] element: [vehicle_route] is [(v.get("route") or "").strip()]. *)
Record VehicleElem := mkVehicle {
  vehicle_id : string;
  vehicle_route : string
}.

(** What [fill_edges_and_prune] writes and returns: the kept routes with
    their edge lists, the kept vehicles, the statistics.  [out_routes] is
    the dictionary [valid_routes], in the order of its insertions; the
    file lists its routes in the order of [sorted(valid_routes.keys())]. *)
Record Output := mkOutput {
  out_routes : list (string * list string);
  out_vehicles : list VehicleElem;
  out_stats : Stats
}.

Definition add_missing_stop (s : Stats) : Stats :=
  mkStats (routes_total s) (routes_kept s) (S (routes_dropped_missing_stop s))
    (routes_dropped_no_path s) (routes_dropped_duarouter_missing s)
    (routes_dropped_not_downstream s) (vehicles_total s) (vehicles_kept s)
    (vehicles_dropped_route_missing s) (segments_total s) (segments_cached s).

Definition add_no_path (s : Stats) : Stats :=
  mkStats (routes_total s) (routes_kept s) (routes_dropped_missing_stop s)
    (S (routes_dropped_no_path s)) (routes_dropped_duarouter_missing s)
    (routes_dropped_not_downstream s) (vehicles_total s) (vehicles_kept s)
    (vehicles_dropped_route_missing s) (segments_total s) (segments_cached s).

Definition add_duarouter_missing (s : Stats) : Stats :=
  mkStats (routes_total s) (routes_kept s) (routes_dropped_missing_stop s)
    (routes_dropped_no_path s) (S (routes_dropped_duarouter_missing s))
    (routes_dropped_not_downstream s) (vehicles_total s) (vehicles_kept s)
    (vehicles_dropped_route_missing s) (segments_total s) (segments_cached s).

Definition add_not_downstream (s : Stats) : Stats :=
  mkStats (routes_total s) (routes_kept s) (routes_dropped_missing_stop s)
    (routes_dropped_no_path s) (routes_dropped_duarouter_missing s)
    (S (routes_dropped_not_downstream s)) (vehicles_total s) (vehicles_kept s)
    (vehicles_dropped_route_missing s) (segments_total s) (segments_cached s).

Definition add_route_kept (s : Stats) : Stats :=
  mkStats (routes_total s) (S (routes_kept s)) (routes_dropped_missing_stop s)
    (routes_dropped_no_path s) (routes_dropped_duarouter_missing s)
    (routes_dropped_not_downstream s) (vehicles_total s) (vehicles_kept s)
    (vehicles_dropped_route_missing s) (segments_total s) (segments_cached s).

Definition add_vehicle_kept (s : Stats) : Stats :=
  mkStats (routes_total s) (routes_kept s) (routes_dropped_missing_stop s)
    (routes_dropped_no_path s) (routes_dropped_duarouter_missing s)
    (routes_dropped_not_downstream s) (vehicles_total s) (S (vehicles_kept s))
    (vehicles_dropped_route_missing s) (segments_total s) (segments_cached s).

Definition add_vehicle_dropped (s : Stats) : Stats :=
  mkStats (routes_total s) (routes_kept s) (routes_dropped_missing_stop s)
    (routes_dropped_no_path s) (routes_dropped_duarouter_missing s)
    (routes_dropped_not_downstream s) (vehicles_total s) (vehicles_kept s)
    (S (vehicles_dropped_route_missing s)) (segments_total s) (segments_cached s).

(** [stats.segments_total += 1; if (a, b) in cache: stats.segments_cached += 1] *)
Definition add_segment (hit : bool) (s : Stats) : Stats :=
  mkStats (routes_total s) (routes_kept s) (routes_dropped_missing_stop s)
    (routes_dropped_no_path s) (routes_dropped_duarouter_missing s)
    (routes_dropped_not_downstream s) (vehicles_total s) (vehicles_kept s)
    (vehicles_dropped_route_missing s) (S (segments_total s))
    (if hit then S (segments_cached s) else segments_cached s).

Definition set_totals (nr nv : nat) (s : Stats) : Stats :=
  mkStats nr (routes_kept s) (routes_dropped_missing_stop s)
    (routes_dropped_no_path s) (routes_dropped_duarouter_missing s)
    (routes_dropped_not_downstream s) nv (vehicles_kept s)
    (vehicles_dropped_route_missing s) (segments_total s) (segments_cached s).

(** [routes = {r.get("id"): r for r in root.findall("route") if r.get("id")}] *)
Definition routes_dict (rs : list RouteElem) : list (string * RouteElem) :=
  fold_left
    (fun d r => if String.eqb (route_id r) "" then d else dict_set (route_id r) r d)
    rs [].

(** The memo table of [_shortest_path_edges_cached]. *)
Abbreviation cache_t := (gmap (string * string) (option (list string))).

(** The state threaded through the per-route loops. *)
Record fill_state := mkFill {
  fs_cache : cache_t;
  fs_stats : Stats;
  fs_valid : list (string * list string)
}.

Section Fill.
Variable stop_to_edge : gmap string string.
Variable stop_to_startpos : gmap string float.
Variable stop_to_posrange : gmap string (option float * option float).

(** [shortest_path a b] is the list of edge ids of
    [net.getShortestPath(net.getEdge(a), net.getEdge(b))], and [None]
    when the call has no result or raises. *)
Variable shortest_path : string -> string -> option (list string).

(** [_duarouter_compute_route_edges]: the external router, from the
    stop-edge lists to the edge tokens of each routed id (the stripped
    [edges] string, split on blanks). *)
Variable duarouter : list (string * list string) -> gmap string (list string).

Abbreviation is_downstream :=
  (_is_stop_sequence_downstream stop_to_edge stop_to_startpos stop_to_posrange).

(** The inner [for sid in seq] of the first loop: the edges of the
    stops, and [[]] as soon as one stop has no edge. *)
Fixpoint collect_stop_edges (seq : list string) (acc : list string) : list string :=
  match seq with
  | [] => acc
  | sid :: rest =>
      match stop_to_edge !! sid with
      | None => []
      | Some e =>
          if String.eqb e "" then [] else collect_stop_edges rest (acc ++ [e])
      end
  end.

(** The first loop, over [routes.items()]: the state is
    [(route_id_to_stop_edges, route_id_to_stop_ids, stats)]. *)
Definition collect_step
    (st : list (string * list string) * list (string * list string) * Stats)
    (item : string * RouteElem)
  : list (string * list string) * list (string * list string) * Stats :=
  let '(to_edges, to_ids, stats) := st in
  let '(rid, r) := item in
  let seq := stops_sequence r in
  if (length seq <? 2)%nat then (to_edges, to_ids, add_missing_stop stats)
  else
    let stop_edges := collect_stop_edges seq [] in
    if (length stop_edges <? 2)%nat then (to_edges, to_ids, add_missing_stop stats)
    else (dict_set rid stop_edges to_edges, dict_set rid seq to_ids, stats).

(** [_shortest_path_edges_cached] *)
Definition _shortest_path_edges_cached (a b : string) (cache : cache_t)
  : option (list string) * cache_t :=
  match cache !! (a, b) with
  | Some r => (r, cache)
  | None => let r := shortest_path a b in (r, <[(a, b) := r]> cache)
  end.

(** [for i in range(len(stop_edges) - 1)]: [first] is [i == 0]; the
    boolean of the result is [ok]. *)
Fixpoint stitch_segments (first : bool) (stop_edges : list string)
    (full : list string) (cache : cache_t) (stats : Stats)
  : bool * list string * cache_t * Stats :=
  match stop_edges with
  | [] => (true, full, cache, stats)
  | a :: rest =>
      match rest with
      | [] => (true, full, cache, stats)
      | b :: _ =>
          let stats := add_segment (bool_decide (is_Some (cache !! (a, b)))) stats in
          let '(seg, cache) := _shortest_path_edges_cached a b cache in
          match seg with
          | None | Some [] => (false, full, cache, stats)
          | Some (x :: seg') =>
              let full := if first then full ++ x :: seg' else full ++ seg' in
              stitch_segments false rest full cache stats
          end
      end
  end.

(** The body of the [sumolib] loop over [route_id_to_stop_edges.items()]. *)
Definition sumolib_step (to_ids : list (string * list string))
    (st : fill_state) (item : string * list string) : fill_state :=
  let '(rid, stop_edges) := item in
  let '(ok, full, cache, stats) :=
    stitch_segments true stop_edges [] (fs_cache st) (fs_stats st) in
  if negb ok || bool_decide (full = []) then
    mkFill cache (add_no_path stats) (fs_valid st)
  else
    let stop_ids := default [] (dict_get rid to_ids) in
    if negb (is_downstream full stop_ids) then
      mkFill cache (add_not_downstream stats) (fs_valid st)
    else
      mkFill cache (add_route_kept stats) (dict_set rid full (fs_valid st)).

(** The body of the [duarouter] loop. *)
Definition duarouter_step (computed : gmap string (list string))
    (to_ids : list (string * list string))
    (st : fill_state) (item : string * list string) : fill_state :=
  let '(rid, _) := item in
  let edge_list := default [] (computed !! rid) in
  if bool_decide (edge_list = []) then
    mkFill (fs_cache st) (add_duarouter_missing (fs_stats st)) (fs_valid st)
  else
    let stop_ids := default [] (dict_get rid to_ids) in
    if negb (is_downstream edge_list stop_ids) then
      mkFill (fs_cache st) (add_not_downstream (fs_stats st)) (fs_valid st)
    else
      mkFill (fs_cache st) (add_route_kept (fs_stats st))
        (dict_set rid edge_list (fs_valid st)).

(** The vehicle loop: the state is [(kept_vehicles, stats)]. *)
Definition vehicle_step (valid_route_ids : gset string)
    (st : list VehicleElem * Stats) (v : VehicleElem)
  : list VehicleElem * Stats :=
  let '(kept, stats) := st in
  let rid := vehicle_route v in
  if negb (String.eqb rid "") && bool_decide (rid ∈ valid_route_ids)
  then (kept ++ [v], add_vehicle_kept stats)
  else (kept, add_vehicle_dropped stats).

(** [fill_edges_and_prune]; [None] is the [ValueError] of an unknown
    [method]. *)
Definition fill_edges_and_prune (route_elems : list RouteElem)
    (vehicles : list VehicleElem) (method : string) : option Output :=
  let routes := routes_dict route_elems in
  let stats := set_totals (length routes) (length vehicles) Stats0 in
  let '(to_edges, to_ids, stats) := fold_left collect_step routes ([], [], stats) in
  let filled :=
    if String.eqb method "sumolib" then
      Some (fold_left (sumolib_step to_ids) to_edges (mkFill ∅ stats []))
    else if String.eqb method "duarouter" then
      Some (fold_left (duarouter_step (duarouter to_edges) to_ids) to_edges
              (mkFill ∅ stats []))
    else None in
  match filled with
  | None => None
  | Some st =>
      let valid_route_ids : gset string := list_to_set (dict_keys (fs_valid st)) in
      let '(kept, stats) :=
        fold_left (vehicle_step valid_route_ids) vehicles ([], fs_stats st) in
      Some (mkOutput (fs_valid st) kept stats)
  end.

(** *** The contract of the stitcher, one pattern at a time

    [stitch(pattern, stopAssignments, routingMethod) -> StitchedRoute |
    Dropped(reason)]: the outcome of one route as a function of the route
    alone, without the loop state (memo table, counters, output so far).
    The properties below relate the loops of [fill_edges_and_prune] to it. *)

Inductive drop_reason :=
  | missing_stop_assignment
  | no_path
  | not_downstream
  | duarouter_missing.

Inductive outcome :=
  | Kept (edges : list string)
  | Dropped (why : drop_reason).

(** The concatenated segment paths of [stitch_segments], asking the
    routing oracle directly. *)
Fixpoint stitch_path (first : bool) (stop_edges : list string)
    (full : list string) : bool * list string :=
  match stop_edges with
  | [] => (true, full)
  | a :: rest =>
      match rest with
      | [] => (true, full)
      | b :: _ =>
          match shortest_path a b with
          | None | Some [] => (false, full)
          | Some (x :: seg') =>
              stitch_path false rest
                (if first then full ++ x :: seg' else full ++ seg')
          end
      end
  end.

(** The stop edges of a route with at least two stops, all of them
    assigned; [None] otherwise. *)
Definition assigned_stop_edges (r : RouteElem) : option (list string) :=
  let seq := stops_sequence r in
  let stop_edges := collect_stop_edges seq [] in
  if (length seq <? 2)%nat || (length stop_edges <? 2)%nat then None
  else Some stop_edges.

(** The table [route_id_to_stop_edges] handed to the external router. *)
Definition stop_edge_table (routes : list (string * RouteElem))
  : list (string * list string) :=
  omap (fun item : string * RouteElem =>
          match assigned_stop_edges (snd item) with
          | Some stop_edges => Some (fst item, stop_edges)
          | None => None
          end) routes.

(** The table [route_id_to_stop_ids]. *)
Definition stop_ids_table (routes : list (string * RouteElem))
  : list (string * list string) :=
  omap (fun item : string * RouteElem =>
          match assigned_stop_edges (snd item) with
          | Some _ => Some (fst item, stops_sequence (snd item))
          | None => None
          end) routes.

Definition stitch (method : string) (computed : gmap string (list string))
    (item : string * RouteElem) : outcome :=
  let '(rid, r) := item in
  match assigned_stop_edges r with
  | None => Dropped missing_stop_assignment
  | Some stop_edges =>
      if String.eqb method "sumolib" then
        let '(ok, full) := stitch_path true stop_edges [] in
        if negb ok || bool_decide (full = []) then Dropped no_path
        else if is_downstream full (stops_sequence r) then Kept full
        else Dropped not_downstream
      else
        let edge_list := default [] (computed !! rid) in
        if bool_decide (edge_list = []) then Dropped duarouter_missing
        else if is_downstream edge_list (stops_sequence r) then Kept edge_list
        else Dropped not_downstream
  end.

(** The edge path the chosen router produced for a route with stop
    edges [stop_edges], if any: the path that reaches the downstream
    check. *)
Definition routed_path (method : string) (computed : gmap string (list string))
    (rid : string) (stop_edges : list string) : option (list string) :=
  if String.eqb method "sumolib" then
    let '(ok, full) := stitch_path true stop_edges [] in
    if negb ok || bool_decide (full = []) then None else Some full
  else
    let edge_list := default [] (computed !! rid) in
    if bool_decide (edge_list = []) then None else Some edge_list.

(** The kept routes and the number of routes dropped for a reason, by
    the contract. *)
Definition kept_of (method : string) (computed : gmap string (list string))
    (item : string * RouteElem) : option (string * list string) :=
  match stitch method computed item with
  | Kept edges => Some (fst item, edges)
  | Dropped _ => None
  end.

Definition is_dropped (why : drop_reason) (o : outcome) : bool :=
  match o, why with
  | Dropped missing_stop_assignment, missing_stop_assignment
  | Dropped no_path, no_path
  | Dropped not_downstream, not_downstream
  | Dropped duarouter_missing, duarouter_missing => true
  | _, _ => false
  end.

Definition dropped_count (method : string) (computed : gmap string (list string))
    (why : drop_reason) (routes : list (string * RouteElem)) : nat :=
  length (filter (fun item => is_dropped why (stitch method computed item) = true)
            routes).

(** Every entry of the memo table is an answer of the routing oracle. *)
Definition cache_ok (cache : cache_t) : Prop :=
  forall a b r, cache !! (a, b) = Some r -> r = shortest_path a b.

(** The condition under which the vehicle loop keeps a vehicle. *)
Definition keeps_vehicle (valid_route_ids : gset string) (v : VehicleElem) : bool :=
  negb (String.eqb (vehicle_route v) "") && bool_decide (vehicle_route v ∈ valid_route_ids).
End Fill.

(** *** A small scenario

    Four routes over three stops: [r1] is routed and in order, [r2] has
    its second stop behind the first on the same edge occurrence, [r3]
    has no path, [r4] has a stop without an edge; the vehicles reference
    [r1], [r2], an unknown route and no route. *)
Definition ex_stop_to_edge : gmap string string :=
  {[ "s1" := "e1"; "s2" := "e2"; "s3" := "e2" ]}.

Definition ex_stop_to_startpos : gmap string float := {[ "s1" := 5%float ]}.

Definition ex_stop_to_posrange : gmap string (option float * option float) :=
  {[ "s2" := (Some 30%float, Some 50%float);
     "s3" := (Some 10%float, Some 20%float) ]}.

Definition ex_shortest_path (a b : string) : option (list string) :=
  if String.eqb a "e1" && String.eqb b "e2" then Some ["e1"; "x"; "e2"]
  else if String.eqb a b then Some [a] else None.

Definition ex_duarouter (t : list (string * list string))
  : gmap string (list string) :=
  list_to_map (map (fun p => (fst p, _dedupe_consecutive (snd p))) t).

Definition ex_routes : list RouteElem :=
  [ mkRoute "r1" ["s1"; "s2"]; mkRoute "r2" ["s2"; "s3"];
    mkRoute "r3" ["s2"; "s1"]; mkRoute "r4" ["s1"; "s9"] ].

Definition ex_vehicles : list VehicleElem :=
  [ mkVehicle "v1" "r1"; mkVehicle "v2" "r2";
    mkVehicle "v3" "zz"; mkVehicle "v4" "" ].

Definition ex_output : Output :=
  mkOutput [("r1", ["e1"; "x"; "e2"])] [mkVehicle "v1" "r1"]
    (mkStats 4 1 1 1 0 1 4 1 3 3 0).

(** The route and vehicle counters of the statistics, the segment
    counters set aside. *)
Definition forget_segments (s : Stats) : Stats :=
  mkStats (routes_total s) (routes_kept s) (routes_dropped_missing_stop s)
    (routes_dropped_no_path s) (routes_dropped_duarouter_missing s)
    (routes_dropped_not_downstream s) (vehicles_total s) (vehicles_kept s)
    (vehicles_dropped_route_missing s) 0 0.

(** The counter that an outcome increments. *)
Definition tally (o : outcome) (s : Stats) : Stats :=
  match o with
  | Kept _ => add_route_kept s
  | Dropped missing_stop_assignment => add_missing_stop s
  | Dropped no_path => add_no_path s
  | Dropped not_downstream => add_not_downstream s
  | Dropped duarouter_missing => add_duarouter_missing s
  end.

End Stitcher.

(** ** Intermodal planner *)
Module Planner.

(** A TraCI stage as the planner reads it: [stage_type] is
    [getattr(st, "type", None)], [stage_line] is
    [str(getattr(st, "line", "") or "")], [stage_destStop] likewise, and
    the three numbers are [float(getattr(st, ..., 0.0) or 0.0)]. *)
Record Stage := mkStage {
  stage_type : option Z;
  stage_line : string;
  stage_destStop : string;
  stage_length : Q;
  stage_cost : Q;
  stage_travelTime : Q
}.

(** [{"edge": e}] and [{"busStop": s}]. *)
Inductive Ref :=
  | edge (e : string)
  | busStop (s : string).

Inductive leg_type := walk | ride.

(** A leg of the explicit chain; a walk has no ["lines"] key. *)
Record Leg := mkLeg {
  leg_kind : leg_type;
  leg_from : Ref;
  leg_to : Ref;
  leg_lines : option (list string)
}.

(** The three [ValueError]s of [_stages_to_plan], with the stage index. *)
Inductive plan_error :=
  | ride_not_from_busStop (idx : nat)
  | ride_empty_destStop (idx : nat)
  | unsupported_stage (idx : nat).

Record Routing := mkRouting {
  acceptedWalkLimit : Q;
  acceptedMaxTransfers : Z
}.

Record PlanStats := mkPlanStats {
  rideCount : Z;
  transferCount : Z;
  accessWalkLength : option Q;
  egressWalkLength : option Q;
  totalCost : Q;
  totalTravelTime : Q
}.

Record Plan := mkPlan {
  personId : string;
  depart : Z;
  legs : list Leg;
  meta_fromEdge : string;
  meta_toEdge : string;
  meta_routing : option (Routing * PlanStats)
}.

(** [OD] *)
Record OD := mkOD {
  person_id : string;
  od_depart : Z;
  from_edge : string;
  to_edge : string
}.

Definition nonempty (s : string) : bool := negb (String.eqb s "").

(** [is_ride = st_type == 3 or (line != "" and dest_stop != "")] *)
Definition is_ride (st : Stage) : bool :=
  bool_decide (stage_type st = Some 3)
  || (nonempty (stage_line st) && nonempty (stage_destStop st)).

(** [is_walk = st_type == 2 or (line == "" and st_type is not None)] *)
Definition is_walk (st : Stage) : bool :=
  bool_decide (stage_type st = Some 2)
  || (String.eqb (stage_line st) "" && bool_decide (is_Some (stage_type st))).

(** The loop of [_stages_to_plan]: [legs] and [current_ref] are the
    loop variables, [idx] the stage index. *)
Fixpoint stages_loop (dest_edge : string) (idx : nat) (stages : list Stage)
    (legs : list Leg) (current_ref : Ref) : plan_error + list Leg :=
  match stages with
  | [] => inr legs
  | st :: rest =>
      let line := stage_line st in
      let dest_stop := stage_destStop st in
      if is_ride st then
        match current_ref with
        | edge _ => inl (ride_not_from_busStop idx)
        | busStop s =>
            if String.eqb dest_stop "" then inl (ride_empty_destStop idx)
            else
              stages_loop dest_edge (S idx) rest
                (legs ++ [mkLeg ride (busStop s) (busStop dest_stop)
                            (Some (if nonempty line then [line] else []))])
                (busStop dest_stop)
        end
      else if is_walk st then
        if nonempty dest_stop then
          stages_loop dest_edge (S idx) rest
            (legs ++ [mkLeg walk current_ref (busStop dest_stop) None])
            (busStop dest_stop)
        else
          stages_loop dest_edge (S idx) rest
            (legs ++ [mkLeg walk current_ref (edge dest_edge) None])
            (edge dest_edge)
      else inl (unsupported_stage idx)
  end.

(** [_stages_to_plan] *)
Definition _stages_to_plan (stages : list Stage) (pid : string) (dep : Z)
    (origin dest_edge : string) : plan_error + Plan :=
  match stages_loop dest_edge 0 stages [] (edge origin) with
  | inl err => inl err
  | inr legs => inr (mkPlan pid dep legs origin dest_edge None)
  end.

(** The loop of [_plan_stats_from_stages]: the state is
    [(ride_count, first_walk_len, last_walk_len)], [n] is [len(stages)]. *)
Definition stats_step (n : nat) (acc : Z * option Q * option Q)
    (ist : nat * Stage) : Z * option Q * option Q :=
  let '(ride_count, first_walk_len, last_walk_len) := acc in
  let '(i, st) := ist in
  let dest_stop := stage_destStop st in
  let ride_count := if is_ride st then ride_count + 1 else ride_count in
  let first_walk_len :=
    if is_walk st && (i =? 0)%nat && nonempty dest_stop
    then Some (stage_length st) else first_walk_len in
  let last_walk_len :=
    if is_walk st && bool_decide (Z.of_nat i = Z.of_nat n - 1)
       && negb (nonempty dest_stop)
    then Some (stage_length st) else last_walk_len in
  (ride_count, first_walk_len, last_walk_len).

Definition Qsum (l : list Q) : Q := fold_left Qplus l 0%Q.

(** [_plan_stats_from_stages] *)
Definition _plan_stats_from_stages (stages : list Stage) : PlanStats :=
  let '(ride_count, first_walk_len, last_walk_len) :=
    fold_left (stats_step (length stages)) (imap pair stages) (0, None, None) in
  let transfers := Z.max 0 (ride_count - 1) in
  mkPlanStats ride_count transfers first_walk_len last_walk_len
    (Qsum (map stage_cost stages)) (Qsum (map stage_travelTime stages)).

(** [_meets_constraints] *)
Definition _meets_constraints (stats : PlanStats)
    (max_access_egress_walk_m : option Q) (max_transfers : option Z) : bool :=
  match max_transfers with
  | Some t => negb (t <? transferCount stats)
  | None => true
  end
  &&
  match max_access_egress_walk_m with
  | Some w =>
      match accessWalkLength stats with
      | Some a => negb (Qltb w a)
      | None => true
      end
      &&
      match egressWalkLength stats with
      | Some e => negb (Qltb w e)
      | None => true
      end
  | None => true
  end.

(** [_relaxation_grid]: transfers in the outer loop, walk limits in the
    inner loop. *)
Definition _relaxation_grid (walk_limits_m : list Q) (max_transfers_seq : list Z)
  : list (Q * Z) :=
  flat_map (fun t => map (fun w => (w, t)) walk_limits_m) max_transfers_seq.

(** The acceptance loop of [main]:
    [for walk_limit, max_transfers in relax: if _meets_constraints(...): accepted = ...; break]. *)
Fixpoint accept (relax : list (Q * Z)) (stats : PlanStats) : option (Q * Z) :=
  match relax with
  | [] => None
  | (walk_limit, max_transfers) :: rest =>
      if _meets_constraints stats (Some walk_limit) (Some max_transfers)
      then Some (walk_limit, max_transfers)
      else accept rest stats
  end.

(** An entry of [report["results"]]: the status of one request. *)
Inductive item_status :=
  | status_ok (walk_limit : Q) (max_transfers : Z) (stats : PlanStats)
  | status_no_solution_under_constraints (stats : PlanStats)
  | status_error.

Record Item := mkItem {
  item_od : OD;
  item_status_of : item_status
}.

Section Main.
(** [traci.simulation.findIntermodalRoute] for a request: the stages, or
    [None] when the call raises. *)
Variable findIntermodalRoute : OD -> option (list Stage).

(** The body of [for od in ods] in [main]: the state is [(plans, results)]. *)
Definition od_step (relax : list (Q * Z)) (acc : list Plan * list Item) (od : OD)
  : list Plan * list Item :=
  let '(plans, results) := acc in
  match findIntermodalRoute od with
  | None => (plans, results ++ [mkItem od status_error])
  | Some stages =>
      let stats := _plan_stats_from_stages stages in
      match accept relax stats with
      | None =>
          (plans, results ++ [mkItem od (status_no_solution_under_constraints stats)])
      | Some (w, t) =>
          match _stages_to_plan stages (person_id od) (od_depart od)
                  (from_edge od) (to_edge od) with
          | inl _ => (plans, results ++ [mkItem od status_error])
          | inr plan =>
              let plan :=
                mkPlan (personId plan) (depart plan) (legs plan)
                  (meta_fromEdge plan) (meta_toEdge plan)
                  (Some (mkRouting w t, stats)) in
              (plans ++ [plan], results ++ [mkItem od (status_ok w t stats)])
          end
      end
  end.

Definition plan_all (walk_limit : list Q) (max_transfers : list Z) (ods : list OD)
  : list Plan * list Item :=
  fold_left (od_step (_relaxation_grid walk_limit max_transfers)) ods ([], []).
End Main.

(** The chaining invariant of a leg chain: [leg[i].to == leg[i+1].from]. *)
Definition chained (ls : list Leg) : Prop :=
  forall i l l', ls !! i = Some l -> ls !! S i = Some l' -> leg_to l = leg_from l'.

(** The statistics satisfy a pair of the grid, in the words of the
    specification. *)
Definition satisfies (stats : PlanStats) (p : Q * Z) : Prop :=
  transferCount stats <= snd p /\
  (forall a, accessWalkLength stats = Some a -> (a <= fst p)%Q) /\
  (forall e, egressWalkLength stats = Some e -> (e <= fst p)%Q).

(** Scenario C: a stage sequence with six rides, hence five transfers. *)
Definition ex_walk_to (s : string) : Stage := mkStage (Some 2) "" s 100 0 0.
Definition ex_ride (l s : string) : Stage := mkStage (Some 3) l s 1000 0 0.
Definition ex_stages : list Stage :=
  [ ex_walk_to "a"; ex_ride "L1" "b"; ex_ride "L2" "c"; ex_ride "L3" "d";
    ex_ride "L4" "e"; ex_ride "L5" "f"; ex_ride "L6" "g"; ex_walk_to "" ].
Definition ex_od : OD := mkOD "p0" 0 "from" "to".

End Planner.

(** ** Chain validator *)
Module Validator.

(** [Ref]: a parsed anchor; [Ref("edge", e)] and [Ref("busStop", s)]. *)
Inductive Ref :=
  | edge (e : string)
  | busStop (s : string).

#[global] Instance Ref_eq_dec : EqDecision Ref.
Proof. solve_decision. Defined.

(** A JSON anchor object: the values under the keys ["edge"] and
    ["busStop"], when present. *)
Record RefObj := mkRefObj {
  obj_edge : option string;
  obj_busStop : option string
}.

(** [_parse_ref]; [None] is the [ValueError]. *)
Definition _parse_ref (obj : RefObj) : option Ref :=
  match obj_edge obj with
  | Some e => Some (edge e)
  | None =>
      match obj_busStop obj with
      | Some s => Some (busStop s)
      | None => None
      end
  end.

(** A leg object: [leg.get("type")], [leg["from"]], [leg["to"]],
    [leg.get("lines", [])] and [int(leg.get("duration_s", 0) or 0)]. *)
Record Leg := mkLeg {
  leg_type : option string;
  leg_from : RefObj;
  leg_to : RefObj;
  leg_lines : list string;
  leg_duration_s : Z
}.

(** A plan object: [str(plan.get("personId", "")).strip()],
    [int(plan.get("depart", 0))] and [plan.get("legs")], which is [None]
    when it is absent or not a list. *)
Record Plan := mkPlan {
  plan_personId : string;
  plan_depart : Z;
  plan_legs : option (list Leg)
}.

(** A [<stop>] child of a vehicle: [stop.get("busStop")] and
    [_parse_until_seconds(stop.get("until") or "")]. *)
Record Stop := mkStop {
  stop_busStop : option string;
  stop_until : option Z
}.

(** A [<vehicle>]: [get("id") or ""], [get("line") or ""],
    [_parse_until_seconds(get("depart") or "0") or 0] and its stops. *)
Record Vehicle := mkVehicle {
  veh_id : string;
  veh_line : string;
  veh_depart : Z;
  veh_stops : list Stop
}.

(** A routes file: its path and its vehicles in document order. *)
Record RoutesFile := mkRoutesFile {
  file_path : string;
  file_vehicles : list Vehicle
}.

(** The dictionary [_best_vehicle_arrival] returns. *)
Record Best := mkBest {
  routesFile : string;
  vehicleId : string;
  line : string;
  vehicleDepart : Z;
  fromStop : string;
  toStop : string;
  boardLatest : Z;
  arrivalTime : Z
}.

(** The inner [for stop in vehicle.findall("stop")]: the state is
    [(from_until, seen_from)], the result [(from_until, to_until)]; the
    loop stops at the first [to_stop] seen after [from_stop]. *)
Fixpoint scan_stops (from_stop to_stop : string) (stops : list Stop)
    (from_until : option Z) (seen_from : bool) : option Z * option Z :=
  match stops with
  | [] => (from_until, None)
  | stop :: rest =>
      match stop_until stop, stop_busStop stop with
      | Some until, Some bs =>
          if String.eqb bs from_stop && bool_decide (from_until = None) then
            scan_stops from_stop to_stop rest (Some until) true
          else if String.eqb bs to_stop && seen_from then
            (from_until, Some until)
          else scan_stops from_stop to_stop rest from_until seen_from
      | _, _ => scan_stops from_stop to_stop rest from_until seen_from
      end
  end.

(** The body of [for vehicle in _iter_vehicle_candidates(...)]. *)
Definition consider (from_stop to_stop : string) (earliest_time : Z)
    (best : option Best) (fv : string * Vehicle) : option Best :=
  let '(routes_file, vehicle) := fv in
  match scan_stops from_stop to_stop (veh_stops vehicle) None false with
  | (Some from_until, Some to_until) =>
      if from_until <? earliest_time then best
      else
        let arrival := to_until in
        let found :=
          mkBest routes_file (veh_id vehicle) (veh_line vehicle)
            (veh_depart vehicle) from_stop to_stop from_until arrival in
        match best with
        | None => Some found
        | Some b => if arrival <? arrivalTime b then Some found else best
        end
  | _ => best
  end.

(** [_iter_vehicle_candidates] over every routes file, in input order,
    each vehicle paired with the path of its file. *)
Definition candidates (routes_files : list RoutesFile) (target_lines : list string)
  : list (string * Vehicle) :=
  flat_map
    (fun f =>
       map (pair (file_path f))
         (filter (fun v => veh_line v ∈ target_lines) (file_vehicles f)))
    routes_files.

(** [_best_vehicle_arrival] *)
Definition _best_vehicle_arrival (routes_files : list RoutesFile)
    (target_lines : list string) (from_stop to_stop : string)
    (earliest_time : Z) : option Best :=
  fold_left (consider from_stop to_stop earliest_time)
    (candidates routes_files target_lines) None.

(** *** Feasible rides, in the words of the specification *)

(** The stop-time list has, at position [i], the stop [s] with the
    time [t]. *)
Definition timed_at (stops : list Stop) (i : nat) (s : string) (t : Z) : Prop :=
  stops !! i = Some (mkStop (Some s) (Some t)).

(** As the specification states feasibility: the vehicle's stop-time
    list contains the "from" stop at some boarding time at or after the
    cursor, and the "to" stop at a later position, where it arrives at
    [arrival]. *)
Definition claimed_feasible (from_stop to_stop : string) (cursor : Z)
    (stops : list Stop) (arrival : Z) : Prop :=
  exists i j board,
    timed_at stops i from_stop board /\ cursor <= board /\
    (i < j)%nat /\ timed_at stops j to_stop arrival.

(** Position [i] is the first one where the list has the stop [s] with
    a time, and that time is [t]. *)
Definition first_at (stops : list Stop) (s : string) (i : nat) (t : Z) : Prop :=
  timed_at stops i s t /\
  forall i' t', (i' < i)%nat -> ~ timed_at stops i' s t'.

(** Boarding at the first timed entry of the "from" stop and leaving at
    the first timed entry of the "to" stop after it. *)
Definition first_ride (from_stop to_stop : string) (stops : list Stop)
    (board arrival : Z) : Prop :=
  exists i k,
    first_at stops from_stop i board /\
    first_at (drop (S i) stops) to_stop k arrival.

(** The candidate [fv] is feasible at the cursor, and [b] describes its
    ride. *)
Definition feasible_ride (from_stop to_stop : string) (cursor : Z)
    (fv : string * Vehicle) (b : Best) : Prop :=
  first_ride from_stop to_stop (veh_stops (snd fv)) (boardLatest b) (arrivalTime b) /\
  cursor <= boardLatest b /\
  b = mkBest (fst fv) (veh_id (snd fv)) (veh_line (snd fv)) (veh_depart (snd fv))
        from_stop to_stop (boardLatest b) (arrivalTime b).

(** The ride [consider] weighs against the best so far. *)
Definition ride_of (from_stop to_stop : string) (earliest_time : Z)
    (fv : string * Vehicle) : option Best :=
  match scan_stops from_stop to_stop (veh_stops (snd fv)) None false with
  | (Some from_until, Some to_until) =>
      if from_until <? earliest_time then None
      else Some (mkBest (fst fv) (veh_id (snd fv)) (veh_line (snd fv))
                   (veh_depart (snd fv)) from_stop to_stop from_until to_until)
  | _ => None
  end.

(** [b] is the ride of the first candidate, in input order, among the
    feasible candidates of least arrival time. *)
Definition first_earliest (from_stop to_stop : string) (cursor : Z)
    (cands : list (string * Vehicle)) (b : Best) : Prop :=
  exists before fv after,
    cands = before ++ fv :: after /\
    feasible_ride from_stop to_stop cursor fv b /\
    (forall fv' b', fv' ∈ before ->
       feasible_ride from_stop to_stop cursor fv' b' ->
       arrivalTime b < arrivalTime b') /\
    (forall fv' b', fv' ∈ after ->
       feasible_ride from_stop to_stop cursor fv' b' ->
       arrivalTime b <= arrivalTime b').

(** A vehicle that passes the "from" stop twice: once before the
    cursor, once after it. *)
Definition ex_loop_vehicle : Vehicle :=
  mkVehicle "v1" "L1" 100
    [ mkStop (Some "A") (Some 100); mkStop (Some "A") (Some 300);
      mkStop (Some "B") (Some 400) ].

(** The two vehicles of the earliest-arrival scenario, arriving at 100
    and at 80. *)
Definition ex_two_vehicles : list RoutesFile :=
  [ mkRoutesFile "pt.rou.xml"
      [ mkVehicle "slow" "L1" 0 [mkStop (Some "A") (Some 10); mkStop (Some "B") (Some 100)];
        mkVehicle "fast" "L1" 0 [mkStop (Some "A") (Some 20); mkStop (Some "B") (Some 80)] ] ].

(** [raw[len(prefix):]] *)
Definition drop_prefix (prefix raw : string) : string :=
  String.substring (String.length prefix)
    (String.length raw - String.length prefix) raw.

(** The [for prefix in strip_prefixes: ... else: ...] of [_map_lines]. *)
Fixpoint strip_first (strip_prefixes : list string) (raw : string) : string :=
  match strip_prefixes with
  | [] => raw
  | prefix :: rest =>
      if String.prefix prefix raw then drop_prefix prefix raw
      else strip_first rest raw
  end.

(** Unique while preserving order. *)
Fixpoint unique (seen : gset string) (mapped : list string) : list string :=
  match mapped with
  | [] => []
  | l :: rest =>
      if bool_decide (l ∈ seen) then unique seen rest
      else l :: unique ({[l]} ∪ seen) rest
  end.

(** [_map_lines] *)
Definition _map_lines (lines : list string) (line_map : gmap string string)
    (strip_prefixes : list string) : list string :=
  unique ∅
    (map (fun raw =>
            match line_map !! raw with
            | Some m => m
            | None => strip_first strip_prefixes raw
            end) lines).

(** The messages of the three error lists, with the values they format. *)
Inductive structural_error :=
  | unknown_type (idx : nat) (leg_type : option string)
  | starts_elsewhere (idx : nat) (from_ref prev_to : Ref).

Inductive ride_error :=
  | ride_not_busStop_to_busStop (idx : nat)
  | ride_empty_lines (idx : nat)
  | ride_requires_routes (idx : nat) (lines : list string)
  | no_feasible_vehicle (idx : nat) (lines : list string)
      (from_stop to_stop : string) (time_cursor : Z).

(** An entry of [rides]: [{"legIndex": idx, "earliestTimeAtFrom": cursor, **best}]. *)
Record RideReport := mkRide {
  legIndex : nat;
  earliestTimeAtFrom : Z;
  ride_best : Best
}.

(** The report of a plan that passed the shape check. *)
Record FullReport := mkReport {
  personId : string;
  depart : Z;
  ok : bool;
  errors : list structural_error;
  stopErrors : list string;
  rideErrors : list ride_error;
  rides : list RideReport;
  endTimeEstimate : Z;
  referencedLinesMapped : list string
}.

(** What [_validate_one_plan] returns: the short report of the shape
    check, [{"personId": ..., "depart": ..., "ok": False, "errors":
    ["invalid plan shape"]}], or the full report. *)
Inductive Report :=
  | invalid_plan_shape (person : option string) (dep : Z)
  | validated (r : FullReport).

Definition report_ok (r : Report) : bool :=
  match r with
  | invalid_plan_shape _ _ => false
  | validated r => ok r
  end.

(** The value under the key ["endTimeEstimate"], when the report has it. *)
Definition report_endTimeEstimate (r : Report) : option Z :=
  match r with
  | invalid_plan_shape _ _ => None
  | validated r => Some (endTimeEstimate r)
  end.

(** Insertion sort by [String.leb], for [sorted(...)] of a set of strings. *)
Fixpoint insert_sorted (x : string) (l : list string) : list string :=
  match l with
  | [] => [x]
  | y :: l' => if String.leb x y then x :: l else y :: insert_sorted x l'
  end.

Definition sorted (s : gset string) : list string :=
  foldr insert_sorted [] (elements s).

Definition is_type (t : string) (leg : Leg) : bool :=
  bool_decide (leg_type leg = Some t).

Section Validate.
Variable known_stops : option (gset string).
Variable routes_files : list RoutesFile.
Variable line_map : gmap string string.
Variable strip_prefixes : list string.

(** The state of the first loop (leg connectivity and stop existence). *)
Record conn_state := mkConn {
  cs_errors : list structural_error;
  cs_prev_to : option Ref;
  cs_stops : gset string;
  cs_lines : gset string
}.

Definition add_stop (r : Ref) (s : gset string) : gset string :=
  match r with
  | busStop v => {[v]} ∪ s
  | edge _ => s
  end.

(** One iteration of the first loop; [None] when [_parse_ref] raises. *)
Definition conn_step (idx : nat) (leg : Leg) (st : conn_state) : option conn_state :=
  if negb (is_type "walk" leg || is_type "ride" leg) then
    Some (mkConn (cs_errors st ++ [unknown_type idx (leg_type leg)])
            (cs_prev_to st) (cs_stops st) (cs_lines st))
  else
    match _parse_ref (leg_from leg), _parse_ref (leg_to leg) with
    | Some from_ref, Some to_ref =>
        let errors :=
          match cs_prev_to st with
          | Some prev_to =>
              if bool_decide (from_ref <> prev_to)
              then cs_errors st ++ [starts_elsewhere idx from_ref prev_to]
              else cs_errors st
          | None => cs_errors st
          end in
        let stops := add_stop to_ref (add_stop from_ref (cs_stops st)) in
        let lines :=
          if is_type "ride" leg
          then list_to_set (_map_lines (leg_lines leg) line_map strip_prefixes)
                 ∪ cs_lines st
          else cs_lines st in
        Some (mkConn errors (Some to_ref) stops lines)
    | _, _ => None
    end.

Fixpoint conn_loop (idx : nat) (legs : list Leg) (st : conn_state)
  : option conn_state :=
  match legs with
  | [] => Some st
  | leg :: rest =>
      match conn_step idx leg st with
      | None => None
      | Some st' => conn_loop (S idx) rest st'
      end
  end.

(** The state of the second loop (timetable feasibility). *)
Record feas_state := mkFeas {
  time_cursor : Z;
  fs_ride_errors : list ride_error;
  fs_rides : list RideReport
}.

(** One iteration of the second loop; [None] when [_parse_ref] raises. *)
Definition feas_step (idx : nat) (leg : Leg) (st : feas_state) : option feas_state :=
  if is_type "walk" leg then
    Some (mkFeas (time_cursor st + Z.max 0 (leg_duration_s leg))
            (fs_ride_errors st) (fs_rides st))
  else if negb (is_type "ride" leg) then Some st
  else
    match _parse_ref (leg_from leg), _parse_ref (leg_to leg) with
    | Some (busStop from_stop), Some (busStop to_stop) =>
        let mapped_lines := _map_lines (leg_lines leg) line_map strip_prefixes in
        match mapped_lines with
        | [] =>
            Some (mkFeas (time_cursor st)
                    (fs_ride_errors st ++ [ride_empty_lines idx]) (fs_rides st))
        | _ :: _ =>
            match routes_files with
            | [] =>
                Some (mkFeas (time_cursor st)
                        (fs_ride_errors st ++ [ride_requires_routes idx mapped_lines])
                        (fs_rides st))
            | _ :: _ =>
                match _best_vehicle_arrival routes_files mapped_lines
                        from_stop to_stop (time_cursor st) with
                | None =>
                    Some (mkFeas (time_cursor st)
                            (fs_ride_errors st
                             ++ [no_feasible_vehicle idx mapped_lines
                                   from_stop to_stop (time_cursor st)])
                            (fs_rides st))
                | Some best =>
                    Some (mkFeas (arrivalTime best) (fs_ride_errors st)
                            (fs_rides st ++ [mkRide idx (time_cursor st) best]))
                end
            end
        end
    | Some _, Some _ =>
        Some (mkFeas (time_cursor st)
                (fs_ride_errors st ++ [ride_not_busStop_to_busStop idx])
                (fs_rides st))
    | _, _ => None
    end.

Fixpoint feas_loop (idx : nat) (legs : list Leg) (st : feas_state)
  : option feas_state :=
  match legs with
  | [] => Some st
  | leg :: rest =>
      match feas_step idx leg st with
      | None => None
      | Some st' => feas_loop (S idx) rest st'
      end
  end.

(** What the second loop does with a stop-to-stop ride leg whose mapped
    line set [lines] is not empty, in the words of the specification:
    either no candidate is feasible, an error is recorded and the cursor
    stays; or the ride of the first feasible candidate of least arrival
    time is recorded and the cursor moves to its arrival time. *)
Definition ride_outcome (lines : list string) (from_stop to_stop : string)
    (idx : nat) (st st' : feas_state) : Prop :=
  let cursor := time_cursor st in
  let cands := candidates routes_files lines in
  ((forall fv b, fv ∈ cands -> ~ feasible_ride from_stop to_stop cursor fv b) /\
   st' = mkFeas cursor
           (fs_ride_errors st ++
            [match routes_files with
             | [] => ride_requires_routes idx lines
             | _ :: _ => no_feasible_vehicle idx lines from_stop to_stop cursor
             end])
           (fs_rides st)) \/
  (exists b,
     first_earliest from_stop to_stop cursor cands b /\
     st' = mkFeas (arrivalTime b) (fs_ride_errors st)
             (fs_rides st ++ [mkRide idx cursor b])).

(** [_validate_one_plan]; [None] when it raises. *)
Definition _validate_one_plan (plan : Plan) : option Report :=
  let person_id := plan_personId plan in
  let dep := plan_depart plan in
  match plan_legs plan with
  | None | Some [] =>
      Some (invalid_plan_shape
              (if String.eqb person_id "" then None else Some person_id) dep)
  | Some ((_ :: _) as legs) =>
      if String.eqb person_id "" then Some (invalid_plan_shape None dep)
      else
        match conn_loop 0 legs (mkConn [] None ∅ ∅) with
        | None => None
        | Some cs =>
            let stop_errors :=
              match known_stops with
              | Some known => filter (fun s => s ∉ known) (sorted (cs_stops cs))
              | None => []
              end in
            match feas_loop 0 legs (mkFeas dep [] []) with
            | None => None
            | Some fs =>
                let is_ok :=
                  bool_decide (cs_errors cs = []) && bool_decide (stop_errors = [])
                  && bool_decide (fs_ride_errors fs = []) in
                Some (validated
                        (mkReport person_id dep is_ok (cs_errors cs) stop_errors
                           (fs_ride_errors fs) (fs_rides fs) (time_cursor fs)
                           (sorted (cs_lines cs))))
            end
        end
  end.
End Validate.

(** The anchors of a walk or ride leg parse: [_parse_ref] raises on
    neither of them. *)
Definition anchors_ok (leg : Leg) : Prop :=
  is_type "walk" leg || is_type "ride" leg = true ->
  is_Some (_parse_ref (leg_from leg)) /\ is_Some (_parse_ref (leg_to leg)).

(** A ride leg from stop A to stop B on line L1, written with its
    [bus:] prefix, and the prefixes [main] strips by default. *)
Definition ex_ride_leg : Leg :=
  mkLeg (Some "ride") (mkRefObj None (Some "A")) (mkRefObj None (Some "B"))
    ["bus:L1"] 0.

Definition ex_strip_prefixes : list string := ["subway:"; "bus:"].

(** Scenario B: walk to stop X in 50 s, ride X to Y on L1, walk on to
    the destination edge in 70 s; one L1 vehicle boards X at 500 and
    reaches Y at 620; the request departs at 400. *)
Definition ex_plan_B : Plan :=
  mkPlan "p0" 400
    (Some [ mkLeg (Some "walk") (mkRefObj (Some "e0") None) (mkRefObj None (Some "X")) [] 50;
            mkLeg (Some "ride") (mkRefObj None (Some "X")) (mkRefObj None (Some "Y")) ["L1"] 0;
            mkLeg (Some "walk") (mkRefObj None (Some "Y")) (mkRefObj (Some "e9") None) [] 70 ]).

Definition ex_routes_B : list RoutesFile :=
  [ mkRoutesFile "pt.rou.xml"
      [ mkVehicle "bus_1" "L1" 480 [mkStop (Some "X") (Some 500); mkStop (Some "Y") (Some 620)] ] ].

(** A plan with a person and no leg, as the planner emits for an empty
    stage sequence. *)
Definition ex_plan_no_legs : Plan := mkPlan "p1" 400 (Some []).

End Validator.

(** ** Lane matcher *)
Module LaneMatcher.

(** [ROUTABLE_CLASSES] *)
Definition ROUTABLE_CLASSES : list string :=
  [ "passenger"; "bus"; "tram"; "rail_urban"; "rail_electric"; "rail";
    "rail_fast"; "ship"; "custom1"; "custom2" ].

(** A lane of the network as the matcher sees it: its id, the id and
    function of its edge, the classes [lane.allows] accepts, whether the
    edge has outgoing and incoming edges, the heading
    [_lane_heading_rad] computes from the first and last point of its
    shape ([None] for a shape of fewer than two points or with coinciding
    ends), the position [getClosestLanePosAndDist] reports for the stop,
    and its length.  Angles are in degrees: the source compares radians
    with a threshold it converts from degrees, and the scaling changes no
    comparison. *)
Record Lane := mkLane {
  lane_id : string;
  edge_id : string;
  edge_function : string;
  lane_allows : list string;
  has_outgoing : bool;
  has_incoming : bool;
  lane_heading : option Q;
  lane_pos : Q;
  lane_length : Q
}.

(** [_is_valid_lane] *)
Definition _is_valid_lane (lane : Lane) (require_connectivity : bool)
    (require_vclasses : list string) : bool :=
  if String.prefix ":" (edge_id lane) then false
  else if bool_decide (edge_function lane ∈
                         ["internal"; "connector"; "crossing"; "walkingarea"])
  then false
  else
    let allowed_classes :=
      match require_vclasses with
      | [] => ROUTABLE_CLASSES
      | _ :: _ => require_vclasses
      end in
    if negb (existsb (fun cls => bool_decide (cls ∈ lane_allows lane)) allowed_classes)
    then false
    else if require_connectivity && (negb (has_outgoing lane) || negb (has_incoming lane))
    then false
    else true.

(** Python's [x % m] on numbers, for a positive [m]. *)
Definition Qmod (x m : Q) : Q := (x - m * inject_Z (Qfloor (x / m)))%Q.

(** [_angle_diff_rad], in degrees and without rounding:
    [abs((a - b + pi) % (2 * pi) - pi)]. *)
Definition _angle_diff (a b : Q) : Q :=
  Qabs (Qmod (a - b + 180) 360 - 180)%Q.

(** An entry of [scored]: [(dist, d_ang, lane)]. *)
Definition scored_t : Type := Q * Q * Lane.

(** [t1 <= t2] for the sort key [(t[1], t[0])], compared as Python
    compares tuples. *)
Definition key_le (t1 t2 : scored_t) : bool :=
  let '(dist1, dang1, _) := t1 in
  let '(dist2, dang2, _) := t2 in
  if Qeq_bool dang1 dang2 then Qle_bool dist1 dist2 else Qle_bool dang1 dang2.

(** A stable insertion sort, for [scored.sort(key=...)]. *)
Fixpoint insert_by {A : Type} (le : A -> A -> bool) (x : A) (l : list A) : list A :=
  match l with
  | [] => [x]
  | y :: l' => if le x y then x :: l else y :: insert_by le x l'
  end.

Definition sort_by {A : Type} (le : A -> A -> bool) (l : list A) : list A :=
  foldr (insert_by le) [] l.

Section Matcher.
(** [net.getNeighboringLanes(x, y, radius)] for the stop at hand. *)
Variable getNeighboringLanes : Z -> list (Lane * Q).
Variable require_vclasses : list string.
Variable preferred_heading : option Q.
Variable max_heading_diff_deg : Q.

(** The loop of [pick_lane] that builds [scored]. *)
Definition score (require_connectivity : bool) (candidates : list (Lane * Q))
  : list scored_t :=
  omap
    (fun c : Lane * Q =>
       let '(lane, dist) := c in
       if negb (_is_valid_lane lane require_connectivity require_vclasses) then None
       else
         match preferred_heading with
         | None => Some (dist, 0%Q, lane)
         | Some pref =>
             match lane_heading lane with
             | None => None
             | Some h =>
                 let d_ang := _angle_diff h pref in
                 if Qltb max_heading_diff_deg d_ang then None
                 else Some (dist, d_ang, lane)
             end
         end)
    candidates.

(** [pick_lane]: the lane and its distance, [None] for [(None, None)]. *)
Definition pick_lane (candidates : list (Lane * Q)) (require_connectivity : bool)
  : option (Lane * Q) :=
  match sort_by key_le (score require_connectivity candidates) with
  | [] => None
  | (dist, _, lane) :: _ => Some (lane, dist)
  end.

(** [pick_lane_ignore_heading] *)
Definition pick_lane_ignore_heading (candidates : list (Lane * Q))
    (require_connectivity : bool) : option (Lane * Q) :=
  let scored :=
    omap
      (fun c : Lane * Q =>
         let '(lane, dist) := c in
         if negb (_is_valid_lane lane require_connectivity require_vclasses) then None
         else Some (dist, lane))
      candidates in
  match sort_by (fun t1 t2 : Q * Lane => Qle_bool (fst t1) (fst t2)) scored with
  | [] => None
  | (dist, lane) :: _ => Some (lane, dist)
  end.

(** [radius_steps] *)
Definition radius_steps (max_radius : Z) : list Z :=
  let ladder := [100; 500; 1000; 2000; 4000] in
  if 0 <? max_radius then
    match filter (fun r => r <= max_radius) ladder with
    | [] => [max_radius]
    | steps => steps
    end
  else ladder.

(** [for radius in radius_steps: lanes = ...; if lanes: break], from
    [lanes = []]. *)
Fixpoint first_lanes (steps : list Z) (lanes : list (Lane * Q)) : list (Lane * Q) :=
  match steps with
  | [] => lanes
  | radius :: rest =>
      match getNeighboringLanes radius with
      | [] => first_lanes rest []
      | found => found
      end
  end.

(** The connectivity-relaxed retry,
    [for radius in reversed(radius_steps): lanes = ...; valid_lane, distance
     = pick_lane(lanes, False); if valid_lane: break]: the loop leaves both
    [lanes] and the pick behind. *)
Fixpoint relaxed_retry (steps : list Z) (lanes : list (Lane * Q))
  : list (Lane * Q) * option (Lane * Q) :=
  match steps with
  | [] => (lanes, None)
  | radius :: rest =>
      let lanes := getNeighboringLanes radius in
      match pick_lane lanes false with
      | Some picked => (lanes, Some picked)
      | None => relaxed_retry rest lanes
      end
  end.

(** [find_nearest_edge]: [(edge_id, lane_id, pos, distance)], and [None]
    for the four [None]s of an unmatched stop. *)
Definition find_nearest_edge (max_radius : Z) : option (string * string * Q * Q) :=
  let steps := radius_steps max_radius in
  let lanes := first_lanes steps [] in
  match lanes with
  | [] => None
  | _ :: _ =>
      let picked :=
        match pick_lane lanes true with
        | Some picked => Some picked
        | None =>
            let '(lanes, picked) := relaxed_retry (reverse steps) lanes in
            match picked with
            | Some picked => Some picked
            | None => pick_lane_ignore_heading lanes false
            end
        end in
      match picked with
      | None => None
      | Some (valid_lane, distance) =>
          Some (edge_id valid_lane, lane_id valid_lane, lane_pos valid_lane, distance)
      end
  end.
End Matcher.

(** The position range of a matched stop.  A finite double is the
    rational number it denotes, and a sum or difference of doubles is the
    exact result followed by the rounding [rnd] to a double; [min] and
    [max] return one of their arguments and do not round. *)
Section Range.
Variable rnd : Q -> Q.

(** The double [0.1]. *)
Definition tenth : Q := 3602879701896397 # 36028797018963968.

(** [start_pos] and [end_pos] of [map_stops_to_network]: [lane_len] is
    [None] when [net.getLane] finds no lane. *)
Definition stop_range (lane_len : option Q) (pos : Q) : Q * Q :=
  let lane_len :=
    match lane_len with
    | Some len => len
    | None => rnd (Qmax pos 0 + 10)
    end in
  let start_pos := Qmax 0 (Qmin (rnd (pos - 10)) lane_len) in
  let end_pos :=
    Qmin lane_len (Qmax (rnd (pos + 10)) (rnd (start_pos + tenth))) in
  (start_pos, end_pos).
End Range.

(** The integer nearest to [q], the even one of the two when [q] lies
    half way. *)
Definition round_half_even (q : Q) : Z :=
  let f := Qfloor q in
  match (q - inject_Z f ?= 1 # 2)%Q with
  | Lt => f
  | Gt => f + 1
  | Eq => if Z.even f then f else f + 1
  end.

(** The number that [f"{x:.2f}"] writes: the decimal with two digits
    after the point nearest to the value of the double [x]. *)
Definition fmt2 (x : Q) : Q :=
  (inject_Z (round_half_even (x * 100)) / 100)%Q.

(** The attributes [startPos] and [endPos] that [map_stops_to_network]
    writes. *)
Definition written_range (rnd : Q -> Q) (lane_len : option Q) (pos : Q) : Q * Q :=
  let '(start_pos, end_pos) := stop_range rnd lane_len pos in
  (fmt2 start_pos, fmt2 end_pos).

(** No operation rounds: for inputs on which every sum and difference
    is a double. *)
Definition exact : Q -> Q := fun x => x.

(** A one-way street 300 units from the stop, running against the
    direction of the timetable, and nothing within 100 units. *)
Definition ex_lane : Lane :=
  mkLane "E1_0" "E1" "" ["bus"; "passenger"] true true (Some 180%Q) 42 250.

Definition ex_neighbors (radius : Z) : list (Lane * Q) :=
  if radius <? 300 then [] else [(ex_lane, 300%Q)].

End LaneMatcher.

(** ** Timetable conversion: service-group selection *)
Module Timetable.

(** The characters [str.strip()] removes, those for which
    [str.isspace()] holds, among the characters of a string, which are
    below U+0100: U+0009 to U+000D, U+001C to U+0020, U+0085 and
    U+00A0. *)
Definition is_space (c : ascii) : bool :=
  let n := nat_of_ascii c in
  ((9 <=? n) && (n <=? 13) || (28 <=? n) && (n <=? 32)
   || (n =? 133) || (n =? 160))%nat.

Fixpoint lstrip (s : string) : string :=
  match s with
  | EmptyString => EmptyString
  | String c s' => if is_space c then lstrip s' else s
  end.

(** [s.strip()] *)
Definition strip (s : string) : string :=
  String.rev (lstrip (String.rev (lstrip s))).

(** [s.replace("-", "/")] *)
Fixpoint dashes_to_slashes (s : string) : string :=
  match s with
  | EmptyString => EmptyString
  | String c s' =>
      String (if Ascii.eqb c "-" then "/"%char else c) (dashes_to_slashes s')
  end.

(** [needle in hay] *)
Fixpoint contains (needle hay : string) : bool :=
  String.prefix needle hay
  || match hay with
     | EmptyString => false
     | String _ hay' => contains needle hay'
     end.

(** [s.split(sep)], with [cur] the piece being read, reversed. *)
Fixpoint split_go (sep : ascii) (s : string) (cur : string) : list string :=
  match s with
  | EmptyString => [String.rev cur]
  | String c s' =>
      if Ascii.eqb c sep then String.rev cur :: split_go sep s' EmptyString
      else split_go sep s' (String c cur)
  end.

Definition split (sep : ascii) (s : string) : list string :=
  split_go sep s EmptyString.

(** [_normalize_service_date] *)
Definition _normalize_service_date (s : string) : string :=
  dashes_to_slashes (strip s).

(** [_count_service_dates] *)
Definition _count_service_dates (service_key : string) : nat :=
  if String.eqb service_key "" then 0%nat
  else length (filter (fun x => strip x <> "") (split "|" service_key)).

(** A service group: the ids of its trips. *)
Record ServiceGroup := mkGroup {
  trips : list string
}.

(** The two [ValueError]s of the selection. *)
Inductive select_error :=
  | unknown_service_key (service_key : string)
  | unknown_service_policy (service_policy : string).

(** An argument that is [None] or empty counts as absent. *)
Definition supplied (arg : option string) : option string :=
  match arg with
  | Some v => if String.eqb v "" then None else Some v
  | None => None
  end.

(** [{k: services_info[k]}] *)
Definition group_of (k : string) (services_info : list (string * ServiceGroup))
  : list (string * ServiceGroup) :=
  match dict_get k services_info with
  | Some v => [(k, v)]
  | None => []
  end.

(** [max(keys, key=f)]: the first of the greatest. *)
Fixpoint max_from (f : string -> nat) (best : string) (rest : list string) : string :=
  match rest with
  | [] => best
  | k :: rest' =>
      if (f best <? f k)%nat then max_from f k rest' else max_from f best rest'
  end.

(** [len((services_info.get(x) or {}).get("trips") or {})] *)
Definition trip_count (services_info : list (string * ServiceGroup)) (x : string) : nat :=
  match dict_get x services_info with
  | Some g => length (trips g)
  | None => 0%nat
  end.

(** [_select_single_service_group] *)
Definition _select_single_service_group
    (services_info : list (string * ServiceGroup))
    (service_key service_date : option string) (service_policy : string)
  : select_error + (option string * list (string * ServiceGroup)) :=
  match dict_keys services_info with
  | [] => inr (None, [])
  | k0 :: keys' =>
      match supplied service_key with
      | Some key =>
          if bool_decide (key ∈ dict_keys services_info)
          then inr (Some key, group_of key services_info)
          else inl (unknown_service_key key)
      | None =>
          let by_date :=
            match supplied service_date with
            | Some date =>
                let normalized := _normalize_service_date date in
                match
                  List.find
                    (fun k => negb (String.eqb normalized "") && contains normalized k)
                    (dict_keys services_info)
                with
                | Some k => Some k
                | None => None
                end
            | None => None
            end in
          match by_date with
          | Some k => inr (Some k, group_of k services_info)
          | None =>
              if String.eqb service_policy "all" then inr (None, services_info)
              else if String.eqb service_policy "first" then
                inr (Some k0, group_of k0 services_info)
              else if String.eqb service_policy "largest" then
                let best := max_from _count_service_dates k0 keys' in
                inr (Some best, group_of best services_info)
              else if String.eqb service_policy "most_trips" then
                let best := max_from (trip_count services_info) k0 keys' in
                inr (Some best, group_of best services_info)
              else inl (unknown_service_policy service_policy)
          end
      end
  end.

(** [k] is the first of the keys that are greatest for [f]. *)
Definition first_greatest (f : string -> nat) (keys : list string) (k : string) : Prop :=
  exists before after,
    keys = before ++ k :: after /\
    (forall k', k' ∈ before -> (f k' < f k)%nat) /\
    (forall k', k' ∈ after -> (f k' <= f k)%nat).

(** [k] is the first of the keys that contain the normalized date. *)
Definition first_containing (normalized : string) (keys : list string) (k : string)
  : Prop :=
  exists before after,
    keys = before ++ k :: after /\ contains normalized k = true /\
    forall k', k' ∈ before -> contains normalized k' = false.

(** Two groups: weekdays with three dates and one trip, the weekend
    with two dates and two trips. *)
Definition ex_services : list (string * ServiceGroup) :=
  [ ("2024/01/01|2024/01/02|2024/01/03", mkGroup ["t1"]);
    ("2024/01/06|2024/01/07", mkGroup ["t2"; "t3"]) ].

End Timetable.

(** ** Heading estimator *)
Module Headings.

(** [float(n)] for a count [n], which is below [2 ^ 63]. *)
Definition float_of_nat (n : nat) : float :=
  PrimFloat.of_uint63 (Uint63.of_Z (Z.of_nat n)).

(** The pairs [(seq[i], seq[i + 1])] for [i] in [range(len(seq) - 1)]. *)
Fixpoint pairs (seq : list string) : list (string * string) :=
  match seq with
  | [] => []
  | a :: rest =>
      match rest with
      | [] => []
      | b :: _ => (a, b) :: pairs rest
      end
  end.

Definition add_vector (s u : float * float) : float * float :=
  ((fst s + fst u)%float, (snd s + snd u)%float).

Section Estimator.
(** The functions of the [math] module on doubles: [math.cos],
    [math.sin], [math.atan2(y, x)] and [math.hypot(x, y)].  Sums,
    differences, quotients and comparisons are the operations of the
    doubles themselves. *)
Variable cos sin : float -> float.
Variable atan2 hypot : float -> float -> float.

(** [stop_xy]: the planar coordinates of the stops that could be
    converted; [stop_prefix]: the prefix of the stop ids. *)
Variable stop_xy : gmap string (float * float).
Variable stop_prefix : string.

(** The unit vector [(cos(ang), sin(ang))] of [ang = atan2(dy, dx)]. *)
Definition unit_vector (v : float * float) : float * float :=
  let ang := atan2 (snd v) (fst v) in (cos ang, sin ang).

(** The body of [for i in range(len(seq) - 1)]: the stop the pair is
    accumulated at and its displacement, [None] when the loop
    continues. *)
Definition displacement (ab : string * string) : option (string * (float * float)) :=
  let a := String.append stop_prefix (fst ab) in
  let b := String.append stop_prefix (snd ab) in
  match stop_xy !! a, stop_xy !! b with
  | Some (xa, ya), Some (xb, yb) =>
      let dx := (xb - xa)%float in
      let dy := (yb - ya)%float in
      if (PrimFloat.abs dx + PrimFloat.abs dy <? 1e-6)%float then None
      else Some (a, (dx, dy))
  | _, _ => None
  end.

(** One accumulation: the state is [(accum, counts)], two
    [defaultdict]s. *)
Definition accumulate_pair (st : gmap string (float * float) * gmap string nat)
    (ab : string * string) : gmap string (float * float) * gmap string nat :=
  match displacement ab with
  | None => st
  | Some (a, v) =>
      let '(accum, counts) := st in
      (<[a := add_vector (default (0%float, 0%float) (accum !! a)) (unit_vector v)]> accum,
       <[a := S (default 0%nat (counts !! a))]> counts)
  end.

(** The loops over the patterns of every line: [patterns] are their
    stop sequences in file order. *)
Definition accumulate (patterns : list (list string))
  : gmap string (float * float) * gmap string nat :=
  fold_left
    (fun st seq =>
       if (length seq <? 2)%nat then st
       else fold_left accumulate_pair (pairs seq) st)
    patterns (∅, ∅).

(** The body of the final loop over [accum.items()]. *)
Definition emit (counts : gmap string nat) (sid : string) (s : float * float)
  : option float :=
  let n := default 0%nat (counts !! sid) in
  if (n <=? 0)%nat then None
  else
    let mag := (hypot (fst s) (snd s) / float_of_nat n)%float in
    if (mag <? 0.25)%float then None
    else Some (atan2 (snd s) (fst s)).

(** [_build_preferred_headings] *)
Definition _build_preferred_headings (patterns : list (list string))
  : gmap string float :=
  let '(accum, counts) := accumulate patterns in
  map_imap (emit counts) accum.

(** The displacements of the consecutive stop pairs accumulated at the
    stop [sid], in the order of the timetable. *)
Definition vectors_at (sid : string) (ps : list (string * string))
  : list (float * float) :=
  omap (fun ab =>
          match displacement ab with
          | Some (a, v) => if String.eqb a sid then Some v else None
          | None => None
          end) ps.

Definition all_pairs (patterns : list (list string)) : list (string * string) :=
  flat_map pairs patterns.

(** The sum of the unit vectors of the displacements [vs], from [s], in
    the order of the additions. *)
Definition unit_sum_from (s : float * float) (vs : list (float * float))
  : float * float :=
  fold_left (fun s v => add_vector s (unit_vector v)) vs s.

Definition unit_sum (vs : list (float * float)) : float * float :=
  unit_sum_from (0%float, 0%float) vs.

(** The mean resultant length of the displacements [vs], as the code
    computes it. *)
Definition mean_resultant_length (vs : list (float * float)) : float :=
  (hypot (fst (unit_sum vs)) (snd (unit_sum vs)) / float_of_nat (length vs))%float.
End Estimator.

(** A stop served five times eastbound and three times westbound. *)
Definition ex_stop_xy : gmap string (float * float) :=
  {[ "bus_stop_a" := (0%float, 0%float); "bus_stop_b" := (1%float, 0%float);
     "bus_stop_c" := ((-1)%float, 0%float) ]}.

Definition ex_patterns : list (list string) :=
  replicate 5 ["a"; "b"] ++ replicate 3 ["a"; "c"].

(** The double nearest to pi, [math.pi]. *)
Definition ex_pi : float := 0x1.921fb54442d18p+1%float.

(** The values of the [math] functions at the arguments the example
    meets: [atan2(0.0, 1.0) = 0.0] and [atan2(0.0, -1.0) = math.pi];
    [cos(0.0) = 1.0], [sin(0.0) = 0.0], [cos(math.pi) = -1.0] and
    [sin(math.pi) = 1.2246467991473532e-16]; the three westbound sines
    add up to [sy = 3.6739403974420594e-16], and
    [hypot(2.0, sy) = 2.0], [atan2(sy, 2.0) = sy / 2].  Elsewhere the
    tables hold 0. *)
Definition ex_atan2 (y x : float) : float :=
  if (y =? 0)%float && (x =? 1)%float then 0%float
  else if (y =? 0)%float && (x =? -1)%float then ex_pi
  else if (y =? 0x1.a79394c9e8a0ap-52)%float && (x =? 2)%float
       then 0x1.a79394c9e8a0ap-53%float
  else 0%float.

Definition ex_cos (a : float) : float :=
  if (a =? 0)%float then 1%float
  else if (a =? ex_pi)%float then (-1)%float
  else 0%float.

Definition ex_sin (a : float) : float :=
  if (a =? ex_pi)%float then 0x1.1a62633145c07p-53%float else 0%float.

Definition ex_hypot (x y : float) : float :=
  if (x =? 2)%float && (y =? 0x1.a79394c9e8a0ap-52)%float then 2%float
  else 0%float.

End Headings.

(** ** Python strings, continued *)
Module PyString.

(** The character [c] does not occur in [s]. *)
Fixpoint lacks (c : ascii) (s : string) : Prop :=
  match s with
  | EmptyString => True
  | String x s' => x <> c /\ lacks c s'
  end.

(** Every character of [s] is below U+0080. *)
Fixpoint is_ascii (s : string) : bool :=
  match s with
  | EmptyString => true
  | String x s' => (nat_of_ascii x <? 128)%nat && is_ascii s'
  end.

End PyString.

(** ** Route stitcher: reading the stop and route files *)
Module StopFiles.
Import Timetable PyString.

(** The part of [s] before its last [sep]; [None] when [s] has no [sep]. *)
Fixpoint before_last (sep : ascii) (s : string) : option string :=
  match s with
  | EmptyString => None
  | String c s' =>
      match before_last sep s' with
      | Some p => Some (String c p)
      | None => if Ascii.eqb c sep then Some EmptyString else None
      end
  end.

(** [s.rsplit(sep, 1)[0]] *)
Definition rsplit1_head (sep : ascii) (s : string) : string :=
  default s (before_last sep s).

(** [_edge_from_lane] *)
Definition _edge_from_lane (lane_id : string) : string :=
  if contains "_" lane_id then rsplit1_head "_" lane_id else lane_id.

(** The id of lane number [index] of the edge [edge], as SUMO names
    lanes. *)
Definition lane_of (edge index : string) : string :=
  String.append edge (String.append "_" index).

(** [_stops_sequence]: [param] is the value of the route's
    [stops_sequence] parameter, [p.get("value") or ""], and [None] when
    the route has no such parameter. *)
Definition _stops_sequence (param : option string) : list string :=
  match param with
  | None => []
  | Some value =>
      let v := strip value in
      map strip (filter (fun x => strip x <> "") (split "," v))
  end.

(** [",".join(sumo_stops)], the value [create_routes_and_vehicles]
    writes for the parameter. *)
Definition join_stops (sumo_stops : list string) : string :=
  String.concat "," sumo_stops.

(** A stop id as the timetable converter writes it: not empty, without
    blanks at either end, without a comma, and made of ASCII characters,
    which are the same in every encoding of a string. *)
Definition plain_id (x : string) : Prop :=
  x <> "" /\ strip x = x /\ contains "," x = false /\ is_ascii x = true.

(** A [<busStop>] of a mapped-stop file: [bs_id] is
    [(bs.get("id") or "").strip()], [bs_edge_param] the [value] of its
    [param] with key [edge] ([None] without such a [param] or value),
    [bs_lane] is [(bs.get("lane") or "").strip()]. *)
Record BusStop := mkBusStop {
  bs_id : string;
  bs_edge_param : option string;
  bs_lane : string
}.

(** The edge a [busStop] element assigns to its stop: the value of its
    [edge] parameter when it has one that is not empty, else the edge of
    its lane, when it names one. *)
Definition edge_of_stop (bs : BusStop) : option string :=
  match supplied (bs_edge_param bs) with
  | Some v => Some v
  | None =>
      if String.eqb (bs_lane bs) "" then None
      else Some (_edge_from_lane (bs_lane bs))
  end.

(** The body of the loop of [_load_stop_edge_map]. *)
Definition load_edge (mapping : gmap string string) (bs : BusStop)
  : gmap string string :=
  if String.eqb (bs_id bs) "" then mapping
  else
    match edge_of_stop bs with
    | Some e => <[bs_id bs := e]> mapping
    | None => mapping
    end.

(** [_load_stop_edge_map]: [additional_files] are the [busStop]
    elements of each file, in document order. *)
Definition _load_stop_edge_map (additional_files : list (list BusStop))
  : gmap string string :=
  fold_left (fun mapping file => fold_left load_edge file mapping)
    additional_files ∅.

(** The edges the elements with id [sid] assign, in reading order. *)
Definition assignments (sid : string) (additional_files : list (list BusStop))
  : list string :=
  omap (fun bs => if String.eqb (bs_id bs) sid then edge_of_stop bs else None)
    (concat additional_files).

End StopFiles.

(** ** Route stitcher: the trips handed to the external router *)
Module Trips.
Import Stitcher.

(** A [<trip>] of the trips file: [trip_via] are the edges of the [via]
    attribute, [" ".join(via_edges)], which is absent when there is
    none. *)
Record Trip := mkTrip {
  trip_id : string;
  trip_from : string;
  trip_to : string;
  trip_via : list string
}.

(** [edges[1:-1]] *)
Definition middle {A : Type} (edges : list A) : list A :=
  removelast (tail edges).

(** The body of the loop over the sorted table. *)
Definition trip_of (item : string * list string) : option Trip :=
  let '(rid, stop_edges) := item in
  let edges := _dedupe_consecutive stop_edges in
  if (length edges <? 2)%nat then None
  else
    match head edges, last edges with
    | Some from_edge, Some to_edge =>
        Some (mkTrip rid from_edge to_edge (middle edges))
    | _, _ => None
    end.

(** [sorted(route_id_to_stop_edges.items())]: the keys of a dictionary
    are distinct, so the items are ordered by their key. *)
Definition sorted_items (table : list (string * list string))
  : list (string * list string) :=
  LaneMatcher.sort_by
    (fun a b : string * list string => String.leb (fst a) (fst b)) table.

(** The trips [_duarouter_compute_route_edges] writes. *)
Definition trips_of (route_id_to_stop_edges : list (string * list string))
  : list Trip :=
  omap trip_of (sorted_items route_id_to_stop_edges).

(** The edges a trip asks the router to pass, in order. *)
Definition trip_edges (t : Trip) : list string :=
  trip_from t :: trip_via t ++ [trip_to t].

(** The route of the item has at least two stop edges, consecutive
    repetitions counted once. *)
Definition has_trip (item : string * list string) : bool :=
  (2 <=? length (_dedupe_consecutive (snd item)))%nat.

End Trips.

(** ** Route stitcher: notions for its properties *)
Module StitcherFacts.
Import Stitcher.

(** The router answers with a path from the first edge to the second:
    what [net.getShortestPath(from_obj, to_obj)] returns. *)
Definition joins_endpoints
    (shortest_path : string -> string -> option (list string)) : Prop :=
  forall a b p, shortest_path a b = Some p -> head p = Some a /\ last p = Some b.

(** The two segment counters of a statistics record satisfy [P]. *)
Definition on_segments (P : nat -> nat -> Prop) (s : Stats) : Prop :=
  P (segments_total s) (segments_cached s).

(** No two neighbours of the list are equal. *)
Definition no_repeat (l : list string) : Prop :=
  forall i x y, l !! i = Some x -> l !! S i = Some y -> x <> y.

(** The last element of [l], and [prev] for an empty list. *)
Definition last_or (prev : option string) (l : list string) : option string :=
  match last l with
  | Some y => Some y
  | None => prev
  end.

End StitcherFacts.

(** ** Chain validator: what the report refers to *)
Module ValidatorFacts.
Import Validator.

(** The body of the first loop of [_map_lines]: the label a raw line
    name is mapped to. *)
Definition mapped_label (line_map : gmap string string)
    (strip_prefixes : list string) (raw : string) : string :=
  match line_map !! raw with
  | Some m => m
  | None => strip_first strip_prefixes raw
  end.

(** The leg is a walk or a ride that has the stop [s] as an anchor. *)
Definition references (leg : Leg) (s : string) : Prop :=
  is_type "walk" leg || is_type "ride" leg = true /\
  (_parse_ref (leg_from leg) = Some (busStop s) \/
   _parse_ref (leg_to leg) = Some (busStop s)).

(** The ride legs of a plan. *)
Definition ride_legs (legs : list Leg) : list Leg :=
  filter (fun leg => is_type "ride" leg = true) legs.

(** The time a plan of walks takes: [max(0, duration)] of each walk. *)
Definition walk_time (legs : list Leg) : Z :=
  foldr (fun leg t => if is_type "walk" leg
                      then Z.max 0 (leg_duration_s leg) + t else t) 0 legs.

(** The entry [rr] of [rides] reports a ride of the leg it points to:
    the leg is a ride between the two stops of the report, the vehicle
    runs on one of the leg's mapped lines, and it leaves the "from" stop
    no earlier than the cursor had it there. *)
Definition reports_ride (line_map : gmap string string)
    (strip_prefixes : list string) (legs : list Leg) (rr : RideReport) : Prop :=
  exists leg,
    legs !! legIndex rr = Some leg /\ is_type "ride" leg = true /\
    _parse_ref (leg_from leg) = Some (busStop (fromStop (ride_best rr))) /\
    _parse_ref (leg_to leg) = Some (busStop (toStop (ride_best rr))) /\
    line (ride_best rr) ∈ _map_lines (leg_lines leg) line_map strip_prefixes /\
    earliestTimeAtFrom rr <= boardLatest (ride_best rr).

End ValidatorFacts.

(** ** From the planner to the validator

    [od_plan_and_validate.py] runs the planner and then the validator on
    the [explicit_chains.json] the planner wrote: what the validator
    reads is what the planner built. *)
Module Pipeline.

(** The anchor [{"edge": e}] or [{"busStop": s}]. *)
Definition ref_obj (r : Planner.Ref) : Validator.RefObj :=
  match r with
  | Planner.edge e => Validator.mkRefObj (Some e) None
  | Planner.busStop s => Validator.mkRefObj None (Some s)
  end.

Definition type_name (k : Planner.leg_type) : string :=
  match k with
  | Planner.walk => "walk"
  | Planner.ride => "ride"
  end.

(** A leg of the planner as the validator reads it: a walk has no
    ["lines"], and no leg has a ["duration_s"]. *)
Definition leg_obj (l : Planner.Leg) : Validator.Leg :=
  Validator.mkLeg (Some (type_name (Planner.leg_kind l)))
    (ref_obj (Planner.leg_from l)) (ref_obj (Planner.leg_to l))
    (default [] (Planner.leg_lines l)) 0.

(** A plan of the planner as the validator reads it. *)
Definition plan_obj (p : Planner.Plan) : Validator.Plan :=
  Validator.mkPlan (Timetable.strip (Planner.personId p)) (Planner.depart p)
    (Some (map leg_obj (Planner.legs p))).

(** The anchor the validator parses from an anchor of the planner. *)
Definition parsed_ref (r : Planner.Ref) : Validator.Ref :=
  match r with
  | Planner.edge e => Validator.edge e
  | Planner.busStop s => Validator.busStop s
  end.

End Pipeline.

(** ** Intermodal planner: the requests and the time window *)
Module Requests.
Import Planner Timetable.

(** An OD object of the input: the values under its keys, [None] for a
    key that is absent; the values are strings, and an integer under
    ["depart"]. *)
Record ODObj := mkODObj {
  obj_personId : option string;
  obj_depart : option Z;
  obj_fromEdge : option string;
  obj_originEdge : option string;
  obj_toEdge : option string;
  obj_destinationEdge : option string
}.

(** An item of the list: an object or something else. *)
Inductive ODItem :=
  | od_object (o : ODObj)
  | od_other.

(** [obj.get("defaults") or {}]: the values under ["personId"] and
    ["depart"]. *)
Record Defaults := mkDefaults {
  def_personId : option string;
  def_depart : option Z
}.

(** The three [ValueError]s of [_parse_ods]. *)
Inductive od_error :=
  | not_a_nonempty_list
  | not_an_object (idx : nat)
  | missing_edges (idx : nat).

(** [a or b or ""], on strings that may be absent. *)
Definition first_of (a b : option string) : string :=
  match supplied a with
  | Some v => v
  | None => default "" (supplied b)
  end.

(** The body of the loop of [_parse_ods]. *)
Definition parse_od (defaults : Defaults) (idx : nat) (it : ODItem) : od_error + OD :=
  match it with
  | od_other => inl (not_an_object idx)
  | od_object o =>
      let person_id := strip (first_of (obj_personId o) (def_personId defaults)) in
      let person_id :=
        if String.eqb person_id "" then "p" +:+ pretty.pretty idx else person_id in
      let depart :=
        match obj_depart o with
        | Some d => d
        | None => default 0 (def_depart defaults)
        end in
      let from_edge := strip (first_of (obj_fromEdge o) (obj_originEdge o)) in
      let to_edge := strip (first_of (obj_toEdge o) (obj_destinationEdge o)) in
      if String.eqb from_edge "" || String.eqb to_edge ""
      then inl (missing_edges idx)
      else inr (mkOD person_id depart from_edge to_edge)
  end.

Fixpoint parse_loop (defaults : Defaults) (idx : nat) (items : list ODItem)
    (ods : list OD) : od_error + list OD :=
  match items with
  | [] => inr ods
  | it :: rest =>
      match parse_od defaults idx it with
      | inl err => inl err
      | inr od => parse_loop defaults (S idx) rest (ods ++ [od])
      end
  end.

(** [_parse_ods]: [items] is the list under ["ods"], or the input
    itself, and [None] when that is not a list; [defaults] is empty for
    an input without ["ods"]. *)
Definition _parse_ods (defaults : Defaults) (items : option (list ODItem))
  : od_error + list OD :=
  match items with
  | None | Some [] => inl not_a_nonempty_list
  | Some ((_ :: _) as items) => parse_loop defaults 0 items []
  end.

(** [min(o.depart for o in ods)] and [max(...)], from a first element. *)
Definition min_depart (d : Z) (ods : list OD) : Z :=
  fold_left (fun m o => if od_depart o <? m then od_depart o else m) ods d.

Definition max_depart (d : Z) (ods : list OD) : Z :=
  fold_left (fun m o => if m <? od_depart o then od_depart o else m) ods d.

(** The time window of [main], [(begin, end)]; [None] is the
    [ValueError] of [min] on an empty sequence. *)
Definition time_window (ods : list OD) (pt_window_before pt_window_after : Z)
  : option (Z * Z) :=
  match ods with
  | [] => None
  | o :: rest =>
      let begin_ := min_depart (od_depart o) rest - pt_window_before in
      let end_ := max_depart (od_depart o) rest + pt_window_after in
      Some (Z.max 0 begin_, end_)
  end.

End Requests.

(** ** Filtering a routes file: tools/filter_pt_routes.py *)
Module Filter.
Import Timetable.

(** The elements [filter_routes_file] looks at.  [route_id] is
    [elem.get("id")], [vehicle_line] is [elem.get("line") or ""],
    [vehicle_depart] is [_parse_time_seconds(elem.get("depart"))] and
    [vehicle_route] is [elem.get("route")]; the other fields stand for
    the rest of the element, which is copied as it is. *)
Record VType := mkVType {
  vtype_id : string
}.

Record Route := mkRoute {
  route_id : option string;
  route_edges : string
}.

Record Vehicle := mkVehicle {
  vehicle_id : string;
  vehicle_line : string;
  vehicle_depart : option Z;
  vehicle_route : option string
}.

(** An element of the file, in the order of the parser's end events. *)
Inductive Elem :=
  | vType_elem (t : VType)
  | route_elem (r : Route)
  | vehicle_elem (v : Vehicle)
  | other_elem.

(** The four collections of the reading loop. *)
Record Acc := mkAcc {
  vtypes : list VType;
  routes_by_id : gmap string Route;
  kept_vehicles : list Vehicle;
  needed_route_ids : gset string
}.

Section Filtering.
(** [allowed_lines] is [None] for every line; the window is
    [[begin, end]]. *)
Variable allowed_lines : option (gset string).
Variable begin_ end_ : Z.

(** [line_ok and depart is not None and begin <= depart <= end] *)
Definition keeps (v : Vehicle) : bool :=
  match allowed_lines with
  | None => true
  | Some lines => bool_decide (strip (vehicle_line v) ∈ lines)
  end
  &&
  match vehicle_depart v with
  | Some depart => (begin_ <=? depart) && (depart <=? end_)
  | None => false
  end.

(** The body of the loop over the elements. *)
Definition read_elem (acc : Acc) (elem : Elem) : Acc :=
  match elem with
  | vType_elem t =>
      mkAcc (vtypes acc ++ [t]) (routes_by_id acc) (kept_vehicles acc)
        (needed_route_ids acc)
  | route_elem r =>
      match supplied (route_id r) with
      | Some rid =>
          mkAcc (vtypes acc) (<[rid := r]> (routes_by_id acc)) (kept_vehicles acc)
            (needed_route_ids acc)
      | None => acc
      end
  | vehicle_elem v =>
      if keeps v then
        mkAcc (vtypes acc) (routes_by_id acc) (kept_vehicles acc ++ [v])
          (match supplied (vehicle_route v) with
           | Some rid => {[rid]} ∪ needed_route_ids acc
           | None => needed_route_ids acc
           end)
      else acc
  | other_elem => acc
  end.

(** What the function returns. *)
Record FilterStats := mkFilterStats {
  stat_vTypes : nat;
  stat_routes : nat;
  stat_vehicles : nat;
  stat_missingRoutes : nat
}.

(** [filter_routes_file]: the elements written under the root of the
    output, in order, and the statistics. *)
Definition filter_routes_file (input : list Elem) : list Elem * FilterStats :=
  let acc := fold_left read_elem input (mkAcc [] ∅ [] ∅) in
  let needed := Validator.sorted (needed_route_ids acc) in
  let routes := omap (fun rid => routes_by_id acc !! rid) needed in
  let missing := length (filter (fun rid => routes_by_id acc !! rid = None) needed) in
  (map vType_elem (vtypes acc) ++ map route_elem routes
     ++ map vehicle_elem (kept_vehicles acc),
   mkFilterStats (length (vtypes acc)) (length needed - missing)
     (length (kept_vehicles acc)) missing).
End Filtering.

(** The vehicles, the vehicle types and the routes among the elements. *)
Definition vehicles_of (elems : list Elem) : list Vehicle :=
  omap (fun e => match e with vehicle_elem v => Some v | _ => None end) elems.

Definition vtypes_of (elems : list Elem) : list VType :=
  omap (fun e => match e with vType_elem t => Some t | _ => None end) elems.

Definition routes_of (elems : list Elem) : list Route :=
  omap (fun e => match e with route_elem r => Some r | _ => None end) elems.

(** The routes the vehicles [vs] refer to. *)
Definition referenced (vs : list Vehicle) : gset string :=
  list_to_set (omap (fun v => supplied (vehicle_route v)) vs).

(** The routes with the id [rid], in reading order. *)
Definition definitions_of (rid : string) (elems : list Elem) : list Route :=
  filter (fun r => supplied (route_id r) = Some rid) (routes_of elems).

End Filter.

(** ** Intermodal planner: what a plan is made of *)
Module PlanFacts.
Import Planner.

(** The leg [_stages_to_plan] makes of a stage: a ride leg between two
    bus stops for a ride stage, a walk leg for any other stage. *)
Definition leg_of_stage (dest_edge : string) (st : Stage) (l : Leg) : Prop :=
  if is_ride st then
    leg_kind l = ride /\ (exists s, leg_from l = busStop s) /\
    stage_destStop st <> "" /\ leg_to l = busStop (stage_destStop st) /\
    leg_lines l = Some (if nonempty (stage_line st) then [stage_line st] else [])
  else
    leg_kind l = walk /\ leg_lines l = None /\
    leg_to l = if nonempty (stage_destStop st)
               then busStop (stage_destStop st) else edge dest_edge.

(** Where the traveller stands after a stage: at the stop the stage
    names, at the destination edge when it names none. *)
Definition anchor_step (dest_edge : string) (st : Stage) : Ref :=
  if nonempty (stage_destStop st) then busStop (stage_destStop st)
  else edge dest_edge.

Definition anchor_after (dest_edge : string) (cur : Ref) (stages : list Stage) : Ref :=
  fold_left (fun _ st => anchor_step dest_edge st) stages cur.

(** The stage [st], number [idx], met at the anchor [cur], is refused
    with the error [err]. *)
Definition rejects (idx : nat) (cur : Ref) (st : Stage) (err : plan_error) : Prop :=
  match err with
  | ride_not_from_busStop i =>
      i = idx /\ is_ride st = true /\ exists e, cur = edge e
  | ride_empty_destStop i =>
      i = idx /\ is_ride st = true /\ stage_destStop st = ""
  | unsupported_stage i =>
      i = idx /\ is_ride st = false /\ is_walk st = false
  end.

(** The number of ride stages. *)
Definition ride_stages (stages : list Stage) : list Stage :=
  filter (fun st => is_ride st = true) stages.

(** The walk bound and the transfer bound of [_meets_constraints], one
    at a time. *)
Definition walk_ok (stats : PlanStats) (w : Q) : bool :=
  _meets_constraints stats (Some w) None.

Definition transfers_ok (stats : PlanStats) (t : Z) : bool :=
  _meets_constraints stats None (Some t).

(** The request got a plan. *)
Definition is_ok (it : Item) : bool :=
  match item_status_of it with
  | status_ok _ _ _ => true
  | _ => false
  end.

(** The plan [p] is the plan of the request reported by [it]: it is made
    of the stages the router found for the request, and both the plan
    and the report record the statistics of these stages and the pair of
    the grid [relax] that was the first to accept them. *)
Definition plan_of_request (findIntermodalRoute : OD -> option (list Stage))
    (relax : list (Q * Z)) (it : Item) (p : Plan) : Prop :=
  exists stages w t base,
    let od := item_od it in
    let stats := _plan_stats_from_stages stages in
    findIntermodalRoute od = Some stages /\
    accept relax stats = Some (w, t) /\
    item_status_of it = status_ok w t stats /\
    _stages_to_plan stages (person_id od) (od_depart od) (from_edge od) (to_edge od)
      = inr base /\
    p = mkPlan (personId base) (depart base) (legs base) (meta_fromEdge base)
          (meta_toEdge base) (Some (mkRouting w t, stats)).

End PlanFacts.

(** ** Lane matcher: the order of the candidates *)
Module MatcherFacts.
Import LaneMatcher.

Section Order.
Variable preferred_heading : option Q.
Variable max_heading_diff_deg : Q.

(** The lane passes the heading test of [pick_lane]: there is none
    without a preferred heading. *)
Definition heading_ok (lane : Lane) : Prop :=
  match preferred_heading with
  | None => True
  | Some pref =>
      exists h, lane_heading lane = Some h /\
                (_angle_diff h pref <= max_heading_diff_deg)%Q
  end.

(** [d_ang] of a lane that passes. *)
Definition d_ang (lane : Lane) : Q :=
  match preferred_heading, lane_heading lane with
  | Some pref, Some h => _angle_diff h pref
  | _, _ => 0%Q
  end.

(** The sort key [(d_ang, dist)] of one candidate is before that of
    another, as Python orders tuples. *)
Definition key_before (lane : Lane) (dist : Q) (lane' : Lane) (dist' : Q) : Prop :=
  (d_ang lane < d_ang lane')%Q \/
  ((d_ang lane == d_ang lane')%Q /\ (dist <= dist')%Q).
End Order.

End MatcherFacts.

(** * Properties *)

(** ** Route stitcher: the downstream validator *)
Section DownstreamProps.
Import Stitcher.

Variable stop_to_edge : gmap string string.
Variable stop_to_startpos : gmap string float.
Variable stop_to_posrange : gmap string (option float * option float).

Lemma py_index_nonneg {A : Type} (l : list A) (j : Z) :
  0 <= j -> py_index l j = l !! Z.to_nat j.
Proof.
  intros Hj. unfold py_index.
  destruct (Z.leb_spec 0 j); [reflexivity | lia].
Qed.

Lemma find_in_range_Some (re : list string) (e : string) (n : nat) :
  forall j k, 0 <= j ->
    find_in_range re e n j = Some k ->
    j <= k < j + Z.of_nat n /\ re !! Z.to_nat k = Some e /\
    forall i, j <= i < k -> re !! Z.to_nat i <> Some e.
Proof.
  induction n as [|n IH]; intros j k Hj; simpl; [discriminate|].
  destruct (decide (py_index re j = Some e)) as [Hy|Hn].
  - intros [= <-]. rewrite py_index_nonneg in Hy by lia.
    split; [lia|]. split; [exact Hy|]. intros i Hi. lia.
  - intros Hf. apply IH in Hf; [|lia].
    destruct Hf as (Hr & Hk & Hmin).
    split; [lia|]. split; [exact Hk|].
    intros i Hi. destruct (Z.eq_dec i j) as [->|Hne].
    + rewrite py_index_nonneg in Hn by lia. exact Hn.
    + apply Hmin. lia.
Qed.

Lemma find_in_range_None (re : list string) (e : string) (n : nat) :
  forall j, 0 <= j ->
    find_in_range re e n j = None ->
    forall i, j <= i < j + Z.of_nat n -> re !! Z.to_nat i <> Some e.
Proof.
  induction n as [|n IH]; intros j Hj; simpl; [intros _ i Hi; lia|].
  destruct (decide (py_index re j = Some e)) as [Hy|Hn]; [discriminate|].
  intros Hf i Hi. destruct (Z.eq_dec i j) as [->|Hne].
  - rewrite py_index_nonneg in Hn by lia. exact Hn.
  - apply (IH (j + 1)); [lia | exact Hf | lia].
Qed.

(** The search of the loop body returns the first index at or after
    [start] that holds the edge. *)
Lemma find_edge_first (re : list string) (e : string) (start : nat) (k : nat) :
  re !! k = Some e -> (start <= k)%nat ->
  (forall i, (start <= i < k)%nat -> re !! i <> Some e) ->
  find_edge re e (Z.of_nat start) = Some (Z.of_nat k).
Proof.
  intros Hk Hle Hmin. unfold find_edge.
  destruct (find_in_range re e _ (Z.of_nat start)) as [k'|] eqn:Hf.
  - apply find_in_range_Some in Hf; [|lia].
    destruct Hf as (Hr & Hk' & Hmin').
    f_equal. destruct (Z.lt_trichotomy k' (Z.of_nat k)) as [Hlt|[Heq|Hgt]].
    + exfalso. apply (Hmin (Z.to_nat k')); [lia | exact Hk'].
    + exact Heq.
    + exfalso. apply (Hmin' (Z.of_nat k)); [lia|]. rewrite Nat2Z.id. exact Hk.
  - exfalso. apply lookup_lt_Some in Hk as Hlen.
    eapply find_in_range_None with (i := Z.of_nat k) in Hf; [| lia | lia].
    rewrite Nat2Z.id in Hf. contradiction.
Qed.

Lemma find_edge_inv (re : list string) (e : string) (start : nat) (k : Z) :
  find_edge re e (Z.of_nat start) = Some k ->
  exists j : nat, k = Z.of_nat j /\ (start <= j)%nat /\ re !! j = Some e /\
    forall i, (start <= i < j)%nat -> re !! i <> Some e.
Proof.
  unfold find_edge. intros Hf.
  apply find_in_range_Some in Hf; [|lia].
  destruct Hf as (Hr & Hk & Hmin).
  exists (Z.to_nat k). split; [lia|]. split; [lia|]. split; [exact Hk|].
  intros i Hi. specialize (Hmin (Z.of_nat i)). rewrite Nat2Z.id in Hmin.
  apply Hmin. lia.
Qed.

Abbreviation positions := (stop_positions stop_to_startpos stop_to_posrange).
Abbreviation step :=
  (downstream_step stop_to_edge stop_to_startpos stop_to_posrange).
Abbreviation walk := (walk_stops stop_to_edge stop_to_startpos stop_to_posrange).
Abbreviation matched :=
  (matched_at stop_to_edge stop_to_startpos stop_to_posrange).
Abbreviation greedy :=
  (greedy_walk stop_to_edge stop_to_startpos stop_to_posrange).
Abbreviation related :=
  (walk_rel stop_to_edge stop_to_startpos stop_to_posrange).

Lemma behind_false (prev_end pos_start : option float) :
  behind prev_end pos_start = false <->
  forall pe ps, prev_end = Some pe -> pos_start = Some ps ->
    PrimFloat.ltb (PrimFloat.add ps eps) pe = false.
Proof.
  destruct prev_end as [pe|], pos_start as [ps|]; simpl;
    try (split; [intros _ pe' ps' ? ?; discriminate | reflexivity]).
  split.
  - intros H pe' ps' [= <-] [= <-]. exact H.
  - intros H. exact (H pe ps eq_refl eq_refl).
Qed.

Lemma step_sound (re : list string) (st st' : walk_state)
    (prev : option (nat * string)) (sid : string) :
  related re st prev -> step re st sid = Some st' ->
  exists j, matched re prev sid j /\ related re st' (Some (j, sid)).
Proof.
  intros Hrel. unfold downstream_step.
  destruct (stop_to_edge !! sid) as [e|] eqn:He; [|discriminate].
  destruct (String.eqb e "") eqn:Hemp; [discriminate|].
  apply String.eqb_neq in Hemp.
  destruct (positions sid) as [ps pe] eqn:Hpos.
  destruct prev as [[jp sidp]|]; simpl in Hrel.
  - destruct Hrel as (e0 & He0 & Hne0 & Hprev & Hidx & Hjp & Hend).
    rewrite Hprev, Hidx.
    destruct (decide (Some e = Some e0)) as [Heq|Hneq].
    + injection Heq as ->.
      destruct (find_edge re e0 (Z.of_nat jp)) as [k|] eqn:Hf; [|discriminate].
      apply find_edge_inv in Hf. destruct Hf as (j & -> & Hle & Hj & Hmin).
      assert (j = jp) as ->.
      { destruct (Nat.eq_dec j jp) as [|Hne]; [assumption|].
        exfalso. apply (Hmin jp); [lia | exact Hjp]. }
      rewrite bool_decide_eq_true_2 by reflexivity.
      rewrite Z.eqb_refl. simpl.
      destruct (behind (prev_pos_end st) ps) eqn:Hb; [discriminate|].
      intros [= <-]. exists jp. split.
      * split; [exists e0; repeat split; try assumption; intros i Hi; lia|].
        split; [lia|]. intros _ pe' ps' Hpe Hps.
        rewrite behind_false in Hb. apply Hb.
        -- rewrite Hend. exact Hpe.
        -- rewrite Hpos in Hps. exact Hps.
      * simpl. exists e0. repeat split; try assumption.
        rewrite Hpos. reflexivity.
    + replace (Z.of_nat jp + 1) with (Z.of_nat (S jp)) by lia.
      destruct (find_edge re e (Z.of_nat (S jp))) as [k|] eqn:Hf; [|discriminate].
      apply find_edge_inv in Hf. destruct Hf as (j & -> & Hle & Hj & Hmin).
      rewrite bool_decide_eq_false_2 by congruence. simpl.
      intros [= <-]. exists j. split.
      * split.
        { exists e. repeat split; try assumption.
          intros i Hi. destruct (Nat.eq_dec i jp) as [->|Hne].
          - rewrite Hjp. congruence.
          - apply Hmin. lia. }
        split; [lia|]. intros ->. lia.
      * simpl. exists e. repeat split; try assumption.
        rewrite Hpos. reflexivity.
  - subst st. simpl.
    destruct (decide (Some e = None)) as [Habs|_]; [discriminate|].
    change (-1 + 1) with (Z.of_nat 0).
    destruct (find_edge re e (Z.of_nat 0)) as [k|] eqn:Hf; [|discriminate].
    apply find_edge_inv in Hf. destruct Hf as (j & -> & Hle & Hj & Hmin).
    try rewrite bool_decide_eq_false_2 by discriminate. simpl.
    intros [= <-]. exists j. split.
    + split; [exists e; repeat split; assumption|]. split; [lia | exact I].
    + simpl. exists e. repeat split; try assumption.
      rewrite Hpos. reflexivity.
Qed.

Lemma step_complete (re : list string) (st : walk_state)
    (prev : option (nat * string)) (sid : string) (j : nat) :
  related re st prev -> matched re prev sid j ->
  exists st', step re st sid = Some st' /\ related re st' (Some (j, sid)).
Proof.
  intros Hrel ((e & He & Hemp & Hj & Hmin) & Hle & Hpos).
  unfold downstream_step. rewrite He.
  apply String.eqb_neq in Hemp as Hemp'. rewrite Hemp'.
  destruct (positions sid) as [ps pe] eqn:Hp.
  assert (Hfinal : related re (mkWalk (Some e) pe (Z.of_nat j)) (Some (j, sid))).
  { simpl. exists e. repeat split; try assumption. rewrite Hp. reflexivity. }
  destruct prev as [[jp sidp]|]; simpl in Hrel.
  - destruct Hrel as (e0 & He0 & Hne0 & Hprev & Hidx & Hjp & Hend).
    rewrite Hprev, Hidx.
    destruct (decide (Some e = Some e0)) as [Heq|Hneq].
    + injection Heq as ->.
      assert (j = jp) as ->.
      { destruct (Nat.eq_dec j jp) as [|Hne]; [assumption|].
        exfalso. apply (Hmin jp); [lia | exact Hjp]. }
      rewrite (find_edge_first re e0 jp jp) by (try assumption; lia).
      rewrite bool_decide_eq_true_2 by reflexivity.
      rewrite Z.eqb_refl. simpl.
      assert (Hb : behind (prev_pos_end st) ps = false).
      { apply behind_false. intros pe' ps' Hpe Hps.
        apply (Hpos eq_refl).
        - rewrite <- Hend. exact Hpe.
        - rewrite Hp. exact Hps. }
      rewrite Hb. eexists. split; [reflexivity | exact Hfinal].
    + assert (j <> jp) by (intros ->; congruence).
      replace (Z.of_nat jp + 1) with (Z.of_nat (S jp)) by lia.
      rewrite (find_edge_first re e (S jp) j);
        [| assumption | lia | intros i Hi; apply Hmin; lia].
      rewrite bool_decide_eq_false_2 by congruence. simpl.
      eexists. split; [reflexivity | exact Hfinal].
  - subst st. simpl.
    destruct (decide (Some e = None)) as [Habs|_]; [discriminate|].
    change (-1 + 1) with (Z.of_nat 0).
    rewrite (find_edge_first re e 0 j) by (try assumption; lia).
    try rewrite bool_decide_eq_false_2 by discriminate. simpl.
    eexists. split; [reflexivity | exact Hfinal].
Qed.

(** The loop succeeds exactly when the stops can be matched greedily. *)
Lemma walk_stops_greedy (re : list string) (stop_ids : list string) :
  forall st prev, related re st prev ->
    (is_Some (walk re st stop_ids) <-> exists js, greedy re prev stop_ids js).
Proof.
  induction stop_ids as [|sid rest IH]; intros st prev Hrel; simpl.
  - split; [intros _; exists []; exact I | intros _; eauto].
  - destruct (step re st sid) as [st'|] eqn:Hs.
    + destruct (step_sound _ _ _ _ _ Hrel Hs) as (j & Hm & Hrel').
      split.
      * intros Hw. apply (IH _ _ Hrel') in Hw. destruct Hw as [js Hjs].
        exists (j :: js). split; assumption.
      * intros [[|j' js] Hjs]; [destruct Hjs|]. destruct Hjs as [Hm' Hjs].
        destruct (step_complete _ _ _ _ _ Hrel Hm') as (st'' & Hs'' & Hrel'').
        rewrite Hs in Hs''. injection Hs'' as <-.
        apply (IH _ _ Hrel''). eauto.
    + split; [intros [? ?]; discriminate|].
      intros [[|j' js] Hjs]; [destruct Hjs|]. destruct Hjs as [Hm' _].
      destruct (step_complete _ _ _ _ _ Hrel Hm') as (st'' & Hs'' & _).
      rewrite Hs in Hs''. discriminate.
Qed.

(** [_is_stop_sequence_downstream] accepts exactly the stop sequences of
    at least two stops that the greedy left-to-right walk matches. *)
Lemma is_downstream_greedy (re : list string) (stop_ids : list string) :
  _is_stop_sequence_downstream stop_to_edge stop_to_startpos stop_to_posrange
    re stop_ids = true <->
  (2 <= length stop_ids)%nat /\ exists js, greedy re None stop_ids js.
Proof.
  unfold _is_stop_sequence_downstream.
  destruct re as [|x re].
  - split; [discriminate|]. intros [Hlen [js Hjs]].
    destruct stop_ids as [|sid rest]; [simpl in Hlen; lia|].
    destruct js as [|j js]; [destruct Hjs|].
    destruct Hjs as [((e & _ & _ & Hj & _) & _) _].
    rewrite lookup_nil in Hj. discriminate.
  - destruct (Nat.ltb_spec (length stop_ids) 2) as [Hlt|Hge].
    + split; [discriminate | intros [Hlen _]; lia].
    + pose proof (walk_stops_greedy (x :: re) stop_ids walk0 None eq_refl) as Hw.
      destruct (walk (x :: re) walk0 stop_ids) as [st|].
      * split; [intros _; split; [lia | apply Hw; eauto] | reflexivity].
      * split; [discriminate|]. intros [_ Hjs]. apply Hw in Hjs.
        destruct Hjs; discriminate.
Qed.

(** At the tolerance the doubles decide: [1.001 + 1e-3] is the double
    1.0019999999999998, which is below 1.002, and [0.0 + 1e-3] is the
    double [1e-3] itself. *)
Lemma behind_at_tolerance :
  behind (Some 1.002%float) (Some 1.001%float) = true /\
  behind (Some 0.001%float) (Some 0%float) = false.
Proof. split; reflexivity. Qed.

End DownstreamProps.

(** ** Insertion-ordered dictionaries *)
Section DictProps.
Context {V : Type}.
Implicit Types (d : list (string * V)) (k : string) (v : V).

Lemma dict_set_fresh k v d :
  k ∉ dict_keys d -> dict_set k v d = d ++ [(k, v)].
Proof.
  induction d as [|[k' v'] d IH]; simpl; intros Hk; [reflexivity|].
  destruct (String.eqb_spec k k') as [->|Hne].
  - exfalso. apply Hk. left.
  - f_equal. apply IH. intros Hin. apply Hk. right. exact Hin.
Qed.

Lemma dict_keys_set k v d :
  dict_keys (dict_set k v d) =
  if bool_decide (k ∈ dict_keys d) then dict_keys d else dict_keys d ++ [k].
Proof.
  induction d as [|[k' v'] d IH]; simpl; [reflexivity|].
  destruct (String.eqb_spec k k') as [->|Hne]; simpl.
  - rewrite bool_decide_eq_true_2 by left. reflexivity.
  - rewrite IH. unfold dict_keys. destruct (bool_decide_reflect (k ∈ map fst d)) as [Hin|Hnin].
    + rewrite bool_decide_eq_true_2 by (right; exact Hin). reflexivity.
    + rewrite bool_decide_eq_false_2; [reflexivity|].
      intros Hin. apply elem_of_cons in Hin. destruct Hin; [congruence | contradiction].
Qed.

Lemma dict_set_NoDup k v d :
  NoDup (dict_keys d) -> NoDup (dict_keys (dict_set k v d)).
Proof.
  intros Hnd. rewrite dict_keys_set. case_bool_decide as Hin; [exact Hnd|].
  apply NoDup_app. split; [exact Hnd|]. split.
  - intros x Hx Hx'. apply list_elem_of_singleton in Hx'. subst x. contradiction.
  - apply NoDup_singleton.
Qed.

Lemma dict_get_Some_elem k v d : dict_get k d = Some v -> (k, v) ∈ d.
Proof.
  induction d as [|[k' v'] d IH]; simpl; [discriminate|].
  destruct (String.eqb_spec k k') as [->|Hne].
  - intros [= ->]. left.
  - intros H. right. apply IH. exact H.
Qed.

Lemma dict_get_elem k v d :
  NoDup (dict_keys d) -> (k, v) ∈ d -> dict_get k d = Some v.
Proof.
  induction d as [|[k' v'] d IH]; simpl; intros Hnd Hin.
  - apply elem_of_nil in Hin. destruct Hin.
  - apply NoDup_cons in Hnd. destruct Hnd as [Hk' Hnd].
    apply elem_of_cons in Hin. destruct Hin as [[= <- <-]|Hin].
    + rewrite String.eqb_refl. reflexivity.
    + destruct (String.eqb_spec k k') as [->|Hne].
      * exfalso. apply Hk'. apply (list_elem_of_fmap_2 fst) in Hin. exact Hin.
      * apply IH; assumption.
Qed.

Lemma dict_get_None k d : dict_get k d = None <-> k ∉ dict_keys d.
Proof.
  induction d as [|[k' v'] d IH]; simpl.
  - split; [intros _ H; apply elem_of_nil in H; destruct H | reflexivity].
  - destruct (String.eqb_spec k k') as [->|Hne].
    + split; [discriminate|]. intros H. exfalso. apply H. left.
    + rewrite IH. split.
      * intros H Hin. apply elem_of_cons in Hin. destruct Hin; [congruence | contradiction].
      * intros H Hin. apply H. right. exact Hin.
Qed.

Lemma dict_get_app_fresh k v d d' :
  k ∉ dict_keys d -> dict_get k (d ++ (k, v) :: d') = Some v.
Proof.
  induction d as [|[k' v'] d IH]; simpl; intros Hk.
  - rewrite String.eqb_refl. reflexivity.
  - destruct (String.eqb_spec k k') as [->|Hne].
    + exfalso. apply Hk. left.
    + apply IH. intros Hin. apply Hk. right. exact Hin.
Qed.

End DictProps.

Lemma fold_left_omap {A B S : Type} (f : A -> option B) (g : S -> B -> S)
    (l : list A) (s : S) :
  fold_left g (omap f l) s =
  fold_left (fun s x => match f x with Some y => g s y | None => s end) l s.
Proof.
  revert s. induction l as [|x l IH]; intros s; simpl; [reflexivity|].
  destruct (f x) as [y|]; simpl; apply IH.
Qed.

Lemma routes_dict_NoDup (rs : list Stitcher.RouteElem) :
  NoDup (dict_keys (Stitcher.routes_dict rs)).
Proof.
  unfold Stitcher.routes_dict.
  assert (H : forall d, NoDup (dict_keys d) ->
    NoDup (dict_keys (fold_left
      (fun d r => if String.eqb (Stitcher.route_id r) "" then d
                  else dict_set (Stitcher.route_id r) r d) rs d))).
  { induction rs as [|r rs IH]; intros d Hd; simpl; [exact Hd|].
    apply IH. destruct (String.eqb _ _); [exact Hd|].
    apply dict_set_NoDup. exact Hd. }
  apply H. apply NoDup_nil_2.
Qed.

(** ** Route stitcher: the loops of [fill_edges_and_prune] *)
Section FillProps.
Import Stitcher.

Variable stop_to_edge : gmap string string.
Variable stop_to_startpos : gmap string float.
Variable stop_to_posrange : gmap string (option float * option float).
Variable shortest_path : string -> string -> option (list string).
Variable duarouter : list (string * list string) -> gmap string (list string).

Abbreviation assigned := (assigned_stop_edges stop_to_edge).
Abbreviation edge_table := (stop_edge_table stop_to_edge).
Abbreviation ids_table := (stop_ids_table stop_to_edge).
Abbreviation outcome_of :=
  (stitch stop_to_edge stop_to_startpos stop_to_posrange shortest_path).
Abbreviation kept_route :=
  (kept_of stop_to_edge stop_to_startpos stop_to_posrange shortest_path).
Abbreviation dropped :=
  (dropped_count stop_to_edge stop_to_startpos stop_to_posrange shortest_path).
Abbreviation memo_ok := (cache_ok shortest_path).

Lemma forget_tally (o : outcome) (s : Stats) :
  forget_segments (tally o s) = tally o (forget_segments s).
Proof. destruct o as [e|[]]; reflexivity. Qed.

Lemma forget_add_segment (hit : bool) (s : Stats) :
  forget_segments (add_segment hit s) = forget_segments s.
Proof. reflexivity. Qed.

(** *** The memo table is transparent *)

Lemma cached_lookup (a b : string) (cache : cache_t) :
  memo_ok cache ->
  fst (_shortest_path_edges_cached shortest_path a b cache) = shortest_path a b /\
  memo_ok (snd (_shortest_path_edges_cached shortest_path a b cache)).
Proof.
  intros Hok. unfold _shortest_path_edges_cached.
  destruct (cache !! (a, b)) as [r|] eqn:Hc; simpl.
  - split; [apply Hok; exact Hc | exact Hok].
  - split; [reflexivity|]. intros a' b' r Hr.
    destruct (decide ((a, b) = (a', b'))) as [[= <- <-]|Hne].
    + rewrite lookup_insert_eq in Hr. congruence.
    + rewrite lookup_insert_ne in Hr by exact Hne. apply Hok. exact Hr.
Qed.

Lemma stitch_segments_path (stop_edges : list string) :
  forall first full cache stats, memo_ok cache ->
    exists cache' stats',
      stitch_segments shortest_path first stop_edges full cache stats =
        (stitch_path shortest_path first stop_edges full, cache', stats') /\
      memo_ok cache' /\ forget_segments stats' = forget_segments stats.
Proof.
  induction stop_edges as [|a rest IH]; intros first full cache stats Hok.
  - exists cache, stats. simpl. auto.
  - destruct rest as [|b rest'].
    + exists cache, stats. simpl. auto.
    + cbn [stitch_segments stitch_path].
      destruct (cached_lookup a b cache Hok) as [Hr Hok'].
      destruct (_shortest_path_edges_cached shortest_path a b cache) as [seg cache1].
      simpl in Hr, Hok'. subst seg.
      destruct (shortest_path a b) as [[|x seg']|].
      * eexists _, _. split; [reflexivity|]. split; [exact Hok' | reflexivity].
      * destruct (IH false (if first then full ++ x :: seg' else full ++ seg')
                    cache1 (add_segment (bool_decide (is_Some (cache !! (a, b)))) stats)
                    Hok') as (cache' & stats' & Heq & Hok'' & Hst).
        exists cache', stats'. split; [exact Heq|]. split; [exact Hok''|].
        rewrite Hst. reflexivity.
      * eexists _, _. split; [reflexivity|]. split; [exact Hok' | reflexivity].
Qed.

(** *** One route at a time *)

Lemma sumolib_step_spec (to_ids : list (string * list string))
    (computed : gmap string (list string)) (st : fill_state)
    (rid : string) (r : RouteElem) (se : list string) :
  assigned r = Some se ->
  dict_get rid to_ids = Some (stops_sequence r) ->
  memo_ok (fs_cache st) ->
  let st' := sumolib_step stop_to_edge stop_to_startpos stop_to_posrange
               shortest_path to_ids st (rid, se) in
  let o := outcome_of "sumolib" computed (rid, r) in
  memo_ok (fs_cache st') /\
  fs_valid st' = match o with
                 | Kept e => dict_set rid e (fs_valid st)
                 | Dropped _ => fs_valid st
                 end /\
  forget_segments (fs_stats st') = tally o (forget_segments (fs_stats st)).
Proof.
  intros Ha Hids Hok. unfold sumolib_step, stitch. rewrite Ha, Hids.
  destruct (stitch_segments_path se true [] (fs_cache st) (fs_stats st) Hok)
    as (cache' & stats' & Heq & Hok' & Hst).
  rewrite Heq. destruct (stitch_path shortest_path true se []) as [ok full].
  cbn [String.eqb Ascii.eqb Bool.eqb andb default from_option Datatypes.id].
  destruct (negb ok || bool_decide (full = [])); cbn [fs_cache fs_valid fs_stats].
  - split; [exact Hok'|]. split; [reflexivity|].
    rewrite <- Hst. reflexivity.
  - destruct (_is_stop_sequence_downstream _ _ _ full (stops_sequence r));
      cbn [negb fs_cache fs_valid fs_stats];
      (split; [exact Hok'|]; split; [reflexivity|]; rewrite <- Hst; reflexivity).
Qed.

Lemma duarouter_step_spec (to_ids : list (string * list string))
    (computed : gmap string (list string)) (st : fill_state)
    (rid : string) (r : RouteElem) (se : list string) :
  assigned r = Some se ->
  dict_get rid to_ids = Some (stops_sequence r) ->
  memo_ok (fs_cache st) ->
  let st' := duarouter_step stop_to_edge stop_to_startpos stop_to_posrange
               computed to_ids st (rid, se) in
  let o := outcome_of "duarouter" computed (rid, r) in
  memo_ok (fs_cache st') /\
  fs_valid st' = match o with
                 | Kept e => dict_set rid e (fs_valid st)
                 | Dropped _ => fs_valid st
                 end /\
  forget_segments (fs_stats st') = tally o (forget_segments (fs_stats st)).
Proof.
  intros Ha Hids Hok. unfold duarouter_step, stitch. rewrite Ha, Hids.
  cbn [String.eqb Ascii.eqb Bool.eqb andb default from_option Datatypes.id].
  destruct (bool_decide (default [] (computed !! rid) = []));
    cbn [fs_cache fs_valid fs_stats].
  - split; [exact Hok|]. split; reflexivity.
  - destruct (_is_stop_sequence_downstream _ _ _ _ (stops_sequence r));
      cbn [negb fs_cache fs_valid fs_stats];
      (split; [exact Hok|]; split; reflexivity).
Qed.

Lemma stitch_assigned (method : string) (computed : gmap string (list string))
    (rid : string) (r : RouteElem) (se : list string) :
  assigned r = Some se ->
  outcome_of method computed (rid, r) <> Dropped missing_stop_assignment.
Proof.
  intros Ha. unfold stitch. rewrite Ha.
  destruct (String.eqb method "sumolib").
  - destruct (stitch_path shortest_path true se []) as [ok full].
    destruct (negb ok || bool_decide (full = [])); [discriminate|].
    destruct (_is_stop_sequence_downstream _ _ _ _ _); discriminate.
  - destruct (bool_decide _); [discriminate|].
    destruct (_is_stop_sequence_downstream _ _ _ _ _); discriminate.
Qed.

Lemma stitch_unassigned (method : string) (computed : gmap string (list string))
    (rid : string) (r : RouteElem) :
  assigned r = None ->
  outcome_of method computed (rid, r) = Dropped missing_stop_assignment.
Proof. intros Ha. unfold stitch. rewrite Ha. reflexivity. Qed.

Lemma dropped_cons (method : string) (computed : gmap string (list string))
    (why : drop_reason) (item : string * RouteElem)
    (items : list (string * RouteElem)) :
  dropped method computed why (item :: items) =
  ((if is_dropped why (outcome_of method computed item) then 1 else 0)
   + dropped method computed why items)%nat.
Proof.
  unfold dropped_count. rewrite filter_cons.
  destruct (is_dropped why (outcome_of method computed item)) eqn:Hd.
  - rewrite decide_True by reflexivity. reflexivity.
  - rewrite decide_False by discriminate. reflexivity.
Qed.

Lemma edge_table_cons (rid : string) (r : RouteElem)
    (items : list (string * RouteElem)) :
  edge_table ((rid, r) :: items) =
  match assigned r with
  | Some se => (rid, se) :: edge_table items
  | None => edge_table items
  end.
Proof.
  unfold stop_edge_table. cbn [omap list_omap fst snd].
  destruct (assigned r); reflexivity.
Qed.

Lemma ids_table_cons (rid : string) (r : RouteElem)
    (items : list (string * RouteElem)) :
  ids_table ((rid, r) :: items) =
  match assigned r with
  | Some _ => (rid, stops_sequence r) :: ids_table items
  | None => ids_table items
  end.
Proof.
  unfold stop_ids_table. cbn [omap list_omap fst snd].
  destruct (assigned r); reflexivity.
Qed.

Lemma kept_cons (method : string) (computed : gmap string (list string))
    (rid : string) (r : RouteElem) (items : list (string * RouteElem)) :
  omap (kept_route method computed) ((rid, r) :: items) =
  match outcome_of method computed (rid, r) with
  | Kept e => (rid, e) :: omap (kept_route method computed) items
  | Dropped _ => omap (kept_route method computed) items
  end.
Proof.
  cbn [omap list_omap]. unfold kept_of at 1. cbn [fst].
  destruct (outcome_of method computed (rid, r)); reflexivity.
Qed.

(** *** The loop over the routes, for either routing method *)
Section RouteLoop.
Variable method : string.
Variable computed : gmap string (list string).
Variable to_ids : list (string * list string).
Variable stepf : fill_state -> string * list string -> fill_state.

Hypothesis stepf_spec :
  forall st rid r se,
    assigned r = Some se ->
    dict_get rid to_ids = Some (stops_sequence r) ->
    memo_ok (fs_cache st) ->
    memo_ok (fs_cache (stepf st (rid, se))) /\
    fs_valid (stepf st (rid, se)) =
      match outcome_of method computed (rid, r) with
      | Kept e => dict_set rid e (fs_valid st)
      | Dropped _ => fs_valid st
      end /\
    forget_segments (fs_stats (stepf st (rid, se))) =
      tally (outcome_of method computed (rid, r)) (forget_segments (fs_stats st)).

Lemma route_loop (items : list (string * RouteElem)) :
  forall st,
    NoDup (dict_keys items) ->
    (forall k, k ∈ dict_keys items -> k ∉ dict_keys (fs_valid st)) ->
    (forall rid r se, (rid, r) ∈ items -> assigned r = Some se ->
       dict_get rid to_ids = Some (stops_sequence r)) ->
    memo_ok (fs_cache st) ->
    let st' := fold_left stepf (edge_table items) st in
    let s := fs_stats st in
    fs_valid st' = fs_valid st ++ omap (kept_route method computed) items /\
    forget_segments (fs_stats st') =
      mkStats (routes_total s)
        (routes_kept s + length (omap (kept_route method computed) items))
        (routes_dropped_missing_stop s)
        (routes_dropped_no_path s + dropped method computed no_path items)
        (routes_dropped_duarouter_missing s
         + dropped method computed duarouter_missing items)
        (routes_dropped_not_downstream s
         + dropped method computed not_downstream items)
        (vehicles_total s) (vehicles_kept s) (vehicles_dropped_route_missing s)
        0 0.
Proof.
  induction items as [|[rid r] items IH]; intros st Hnd Hfresh Hids Hok.
  - cbn. split; [rewrite app_nil_r; reflexivity|].
    unfold forget_segments. f_equal; lia.
  - change (dict_keys ((rid, r) :: items)) with (rid :: dict_keys items) in Hnd, Hfresh.
    apply NoDup_cons in Hnd. destruct Hnd as [Hrid Hnd].
    assert (Hids' : forall rid0 r0 se0, (rid0, r0) ∈ items ->
              assigned r0 = Some se0 ->
              dict_get rid0 to_ids = Some (stops_sequence r0)).
    { intros rid0 r0 se0 Hin. apply Hids. right. exact Hin. }
    rewrite !dropped_cons, edge_table_cons, kept_cons.
    destruct (assigned r) as [se|] eqn:Ha.
    + cbn [fold_left].
      destruct (stepf_spec st rid r se Ha) as (Hok1 & Hv1 & Hs1);
        [eapply Hids; [left | exact Ha] | exact Hok |].
      pose proof (stitch_assigned method computed rid r se Ha) as Hnm.
      assert (Hfresh' : forall k, k ∈ dict_keys items ->
                k ∉ dict_keys (fs_valid (stepf st (rid, se)))).
      { intros k Hk Hin. rewrite Hv1 in Hin.
        destruct (outcome_of method computed (rid, r)) as [e|why].
        - rewrite dict_set_fresh in Hin by (apply Hfresh; left).
          unfold dict_keys in Hin. rewrite map_app in Hin.
          apply elem_of_app in Hin. destruct Hin as [Hin|Hin].
          + apply (Hfresh k); [right; exact Hk | exact Hin].
          + apply list_elem_of_singleton in Hin. simpl in Hin. subst k.
            contradiction.
        - apply (Hfresh k); [right; exact Hk | exact Hin]. }
      destruct (IH (stepf st (rid, se)) Hnd Hfresh' Hids' Hok1) as [Hv Hs].
      cbv zeta in Hv, Hs. split.
      * rewrite Hv, Hv1.
        destruct (outcome_of method computed (rid, r)) as [e|why].
        -- rewrite dict_set_fresh by (apply Hfresh; left).
           rewrite <- app_assoc. reflexivity.
        -- reflexivity.
      * rewrite Hs. clear Hs Hv IH.
        assert (Hp : forall f : Stats -> nat,
                  f (forget_segments (fs_stats (stepf st (rid, se)))) =
                  f (tally (outcome_of method computed (rid, r))
                       (forget_segments (fs_stats st))))
          by (intros f; rewrite Hs1; reflexivity).
        pose proof (Hp routes_total) as H1. pose proof (Hp routes_kept) as H2.
        pose proof (Hp routes_dropped_missing_stop) as H3.
        pose proof (Hp routes_dropped_no_path) as H4.
        pose proof (Hp routes_dropped_duarouter_missing) as H5.
        pose proof (Hp routes_dropped_not_downstream) as H6.
        pose proof (Hp vehicles_total) as H7. pose proof (Hp vehicles_kept) as H8.
        pose proof (Hp vehicles_dropped_route_missing) as H9.
        cbn [forget_segments routes_total routes_kept routes_dropped_missing_stop
             routes_dropped_no_path routes_dropped_duarouter_missing
             routes_dropped_not_downstream vehicles_total vehicles_kept
             vehicles_dropped_route_missing] in H1, H2, H3, H4, H5, H6, H7, H8, H9.
        rewrite H1, H2, H3, H4, H5, H6, H7, H8, H9.
        destruct (outcome_of method computed (rid, r)) as [e|[]];
          try contradiction; cbn; f_equal; lia.
    + assert (Hfresh' : forall k, k ∈ dict_keys items ->
                k ∉ dict_keys (fs_valid st)).
      { intros k Hk. apply Hfresh. right. exact Hk. }
      destruct (IH st Hnd Hfresh' Hids' Hok) as [Hv Hs].
      cbv zeta in Hv, Hs.
      rewrite (stitch_unassigned method computed rid r Ha).
      split; [exact Hv|]. rewrite Hs. cbn. f_equal; lia.
Qed.
End RouteLoop.

(** *** The first loop: stop edges of every route *)

Lemma collect_step_assigned (to_edges to_ids : list (string * list string))
    (stats : Stats) (rid : string) (r : RouteElem) :
  collect_step stop_to_edge (to_edges, to_ids, stats) (rid, r) =
  match assigned r with
  | Some se => (dict_set rid se to_edges, dict_set rid (stops_sequence r) to_ids, stats)
  | None => (to_edges, to_ids, add_missing_stop stats)
  end.
Proof.
  unfold collect_step, assigned_stop_edges.
  destruct (length (stops_sequence r) <? 2)%nat; [reflexivity|].
  destruct (length (collect_stop_edges stop_to_edge (stops_sequence r) []) <? 2)%nat;
    reflexivity.
Qed.

Lemma keys_app_fresh {V : Type} (k rid : string) (v : V) (d : list (string * V)) :
  k <> rid -> k ∉ dict_keys d -> k ∉ dict_keys (d ++ [(rid, v)]).
Proof.
  intros Hne Hk Hin. unfold dict_keys in Hin. rewrite map_app in Hin.
  apply elem_of_app in Hin. destruct Hin as [Hin|Hin]; [contradiction|].
  apply list_elem_of_singleton in Hin. simpl in Hin. contradiction.
Qed.

Lemma collect_loop (method : string) (computed : gmap string (list string))
    (items : list (string * RouteElem)) :
  forall to_edges to_ids stats,
    NoDup (dict_keys items) ->
    (forall k, k ∈ dict_keys items -> k ∉ dict_keys to_edges) ->
    (forall k, k ∈ dict_keys items -> k ∉ dict_keys to_ids) ->
    fold_left (collect_step stop_to_edge) items (to_edges, to_ids, stats) =
    (to_edges ++ edge_table items, to_ids ++ ids_table items,
     mkStats (routes_total stats) (routes_kept stats)
       (routes_dropped_missing_stop stats
        + dropped method computed missing_stop_assignment items)
       (routes_dropped_no_path stats) (routes_dropped_duarouter_missing stats)
       (routes_dropped_not_downstream stats) (vehicles_total stats)
       (vehicles_kept stats) (vehicles_dropped_route_missing stats)
       (segments_total stats) (segments_cached stats)).
Proof.
  induction items as [|[rid r] items IH]; intros to_edges to_ids stats Hnd Hfe Hfi.
  - cbn. rewrite !app_nil_r. destruct stats; cbn. repeat f_equal; lia.
  - change (dict_keys ((rid, r) :: items)) with (rid :: dict_keys items) in Hnd, Hfe, Hfi.
    apply NoDup_cons in Hnd. destruct Hnd as [Hrid Hnd].
    cbn [fold_left]. rewrite collect_step_assigned.
    rewrite dropped_cons, edge_table_cons, ids_table_cons.
    destruct (assigned r) as [se|] eqn:Ha.
    + rewrite !dict_set_fresh by (first [apply Hfe | apply Hfi]; left).
      rewrite IH; [| exact Hnd | |].
      * rewrite <- !app_assoc. cbn [app].
        destruct (outcome_of method computed (rid, r)) as [e|[]] eqn:Ho;
          try reflexivity.
        exfalso. exact (stitch_assigned method computed rid r se Ha Ho).
      * intros k Hk. apply keys_app_fresh; [congruence | apply Hfe; right; exact Hk].
      * intros k Hk. apply keys_app_fresh; [congruence | apply Hfi; right; exact Hk].
    + rewrite IH; [| exact Hnd | |].
      * rewrite (stitch_unassigned method computed rid r Ha). cbn.
        repeat f_equal; lia.
      * intros k Hk. apply Hfe. right. exact Hk.
      * intros k Hk. apply Hfi. right. exact Hk.
Qed.

Lemma ids_table_keys (items : list (string * RouteElem)) (k : string) :
  k ∈ dict_keys (ids_table items) -> k ∈ dict_keys items.
Proof.
  induction items as [|[rid r] items IH]; [intros H; exact H|].
  rewrite ids_table_cons.
  change (dict_keys ((rid, r) :: items)) with (rid :: dict_keys items).
  destruct (assigned r).
  - change (dict_keys ((rid, stops_sequence r) :: ids_table items))
      with (rid :: dict_keys (ids_table items)).
    intros Hin. apply elem_of_cons in Hin. destruct Hin as [->|Hin];
      [left | right; apply IH; exact Hin].
  - intros Hin. right. apply IH. exact Hin.
Qed.

Lemma ids_table_lookup (items : list (string * RouteElem)) :
  NoDup (dict_keys items) ->
  forall rid r se, (rid, r) ∈ items -> assigned r = Some se ->
    dict_get rid (ids_table items) = Some (stops_sequence r).
Proof.
  induction items as [|[rid0 r0] items IH]; intros Hnd rid r se Hin Ha.
  - apply elem_of_nil in Hin. destruct Hin.
  - change (dict_keys ((rid0, r0) :: items)) with (rid0 :: dict_keys items) in Hnd.
    apply NoDup_cons in Hnd. destruct Hnd as [Hrid Hnd].
    rewrite ids_table_cons.
    apply elem_of_cons in Hin. destruct Hin as [[= -> ->]|Hin].
    + rewrite Ha. cbn [dict_get]. rewrite String.eqb_refl. reflexivity.
    + assert (rid <> rid0) as Hne.
      { intros ->. apply Hrid. apply (list_elem_of_fmap_2 fst) in Hin. exact Hin. }
      destruct (assigned r0).
      * cbn [dict_get]. apply String.eqb_neq in Hne. rewrite Hne.
        eapply IH; eassumption.
      * eapply IH; eassumption.
Qed.

(** *** The vehicle loop *)

Lemma vehicle_loop (ids : gset string) (vs : list VehicleElem) :
  forall kept stats,
    fold_left (vehicle_step ids) vs (kept, stats) =
    (kept ++ filter (fun v => keeps_vehicle ids v = true) vs,
     mkStats (routes_total stats) (routes_kept stats)
       (routes_dropped_missing_stop stats) (routes_dropped_no_path stats)
       (routes_dropped_duarouter_missing stats)
       (routes_dropped_not_downstream stats) (vehicles_total stats)
       (vehicles_kept stats
        + length (filter (fun v => keeps_vehicle ids v = true) vs))
       (vehicles_dropped_route_missing stats
        + length (filter (fun v => keeps_vehicle ids v <> true) vs))
       (segments_total stats) (segments_cached stats)).
Proof.
  induction vs as [|v vs IH]; intros kept stats.
  - cbn. rewrite app_nil_r. destruct stats; cbn. repeat f_equal; lia.
  - cbn [fold_left]. unfold vehicle_step at 2. rewrite !filter_cons.
    fold (keeps_vehicle ids v).
    destruct (keeps_vehicle ids v) eqn:Hk.
    + rewrite decide_True by reflexivity.
      rewrite decide_False by (intros H; apply H; reflexivity).
      rewrite IH. rewrite <- app_assoc. cbn. repeat f_equal; lia.
    + rewrite decide_False by discriminate.
      rewrite decide_True by discriminate.
      rewrite IH. cbn. repeat f_equal; lia.
Qed.

(** *** [fill_edges_and_prune] computes the contract, route by route *)

Lemma memo_ok_empty : memo_ok ∅.
Proof. intros a b r Hr. rewrite lookup_empty in Hr. discriminate. Qed.

Lemma fill_refines_stitch (route_elems : list RouteElem)
    (vehicles : list VehicleElem) (method : string) (out : Output) :
  fill_edges_and_prune stop_to_edge stop_to_startpos stop_to_posrange
    shortest_path duarouter route_elems vehicles method = Some out ->
  let routes := routes_dict route_elems in
  let computed := duarouter (edge_table routes) in
  let ids : gset string := list_to_set (dict_keys (out_routes out)) in
  (method = "sumolib" \/ method = "duarouter") /\
  out_routes out = omap (kept_route method computed) routes /\
  out_vehicles out = filter (fun v => keeps_vehicle ids v = true) vehicles /\
  forget_segments (out_stats out) =
    mkStats (length routes) (length (out_routes out))
      (dropped method computed missing_stop_assignment routes)
      (dropped method computed no_path routes)
      (dropped method computed duarouter_missing routes)
      (dropped method computed not_downstream routes)
      (length vehicles) (length (out_vehicles out))
      (length (filter (fun v => keeps_vehicle ids v <> true) vehicles)) 0 0.
Proof.
  intros Hfill routes computed ids. revert Hfill.
  unfold fill_edges_and_prune. fold routes.
  pose proof (routes_dict_NoDup route_elems) as Hnd. fold routes in Hnd.
  rewrite (collect_loop method computed routes [] [] _ Hnd)
    by (intros k _ Hin; apply elem_of_nil in Hin; exact Hin).
  cbn [app]. fold computed.
  set (stats0 := mkStats _ _ _ _ _ _ _ _ _ _ _).
  assert (Hloop : forall stepf,
    (forall st rid r se, assigned r = Some se ->
       dict_get rid (ids_table routes) = Some (stops_sequence r) ->
       memo_ok (fs_cache st) ->
       memo_ok (fs_cache (stepf st (rid, se))) /\
       fs_valid (stepf st (rid, se)) =
         match outcome_of method computed (rid, r) with
         | Kept e => dict_set rid e (fs_valid st)
         | Dropped _ => fs_valid st
         end /\
       forget_segments (fs_stats (stepf st (rid, se))) =
         tally (outcome_of method computed (rid, r)) (forget_segments (fs_stats st))) ->
    match
      (let st := fold_left stepf (edge_table routes) (mkFill ∅ stats0 []) in
       let valid_route_ids : gset string := list_to_set (dict_keys (fs_valid st)) in
       let '(kept, stats) :=
         fold_left (vehicle_step valid_route_ids) vehicles ([], fs_stats st) in
       Some (mkOutput (fs_valid st) kept stats))
    with
    | Some out' =>
        out' = out ->
        out_routes out = omap (kept_route method computed) routes /\
        out_vehicles out = filter (fun v => keeps_vehicle ids v = true) vehicles /\
        forget_segments (out_stats out) =
          mkStats (length routes) (length (out_routes out))
            (dropped method computed missing_stop_assignment routes)
            (dropped method computed no_path routes)
            (dropped method computed duarouter_missing routes)
            (dropped method computed not_downstream routes)
            (length vehicles) (length (out_vehicles out))
            (length (filter (fun v => keeps_vehicle ids v <> true) vehicles)) 0 0
    | None => True
    end).
  { intros stepf Hspec.
    destruct (route_loop method computed (ids_table routes) stepf Hspec routes
                (mkFill ∅ stats0 []) Hnd) as [Hv Hs].
    - intros k _ Hin. apply elem_of_nil in Hin. exact Hin.
    - apply ids_table_lookup. exact Hnd.
    - apply memo_ok_empty.
    - cbv zeta in Hv, Hs. cbv zeta. cbn [fs_valid app] in Hv.
      rewrite vehicle_loop. cbn [app]. intros <-.
      cbn [out_routes out_vehicles out_stats] in *.
      subst ids. cbn [out_routes]. rewrite Hv.
      split; [reflexivity|]. split; [reflexivity|].
      set (s' := fs_stats (fold_left stepf (edge_table routes) (mkFill ∅ stats0 []))) in *.
      assert (Hp : forall f : Stats -> nat, f (forget_segments s') = f _)
        by (intros f; rewrite Hs; reflexivity).
      pose proof (Hp routes_total) as H1. pose proof (Hp routes_kept) as H2.
      pose proof (Hp routes_dropped_missing_stop) as H3.
      pose proof (Hp routes_dropped_no_path) as H4.
      pose proof (Hp routes_dropped_duarouter_missing) as H5.
      pose proof (Hp routes_dropped_not_downstream) as H6.
      pose proof (Hp vehicles_total) as H7. pose proof (Hp vehicles_kept) as H8.
      pose proof (Hp vehicles_dropped_route_missing) as H9.
      cbn in H1, H2, H3, H4, H5, H6, H7, H8, H9.
      unfold forget_segments. cbn.
      rewrite H1, H2, H3, H4, H5, H6, H7, H8, H9.
      f_equal; lia. }
  destruct (String.eqb_spec method "sumolib") as [Hm|Hm].
  - intros Hfill. split; [left; exact Hm|]. subst method.
    specialize (Hloop _ (fun st rid r se =>
      sumolib_step_spec (ids_table routes) computed st rid r se)).
    cbv zeta in Hloop, Hfill.
    destruct (fold_left (vehicle_step _) vehicles _) as [kept stats].
    injection Hfill as Hfill. apply Hloop. exact Hfill.
  - destruct (String.eqb_spec method "duarouter") as [Hm'|Hm']; [|discriminate].
    intros Hfill. split; [right; exact Hm'|]. subst method.
    specialize (Hloop _ (fun st rid r se =>
      duarouter_step_spec (ids_table routes) computed st rid r se)).
    cbv zeta in Hloop, Hfill.
    destruct (fold_left (vehicle_step _) vehicles _) as [kept stats].
    injection Hfill as Hfill. apply Hloop. exact Hfill.
Qed.

End FillProps.

(** ** Route stitcher: downstream validation and cascade pruning *)
Section StitcherClaims.
Import Stitcher.

Variable stop_to_edge : gmap string string.
Variable stop_to_startpos : gmap string float.
Variable stop_to_posrange : gmap string (option float * option float).
Variable shortest_path : string -> string -> option (list string).
Variable duarouter : list (string * list string) -> gmap string (list string).

Abbreviation assigned' := (assigned_stop_edges stop_to_edge).
Abbreviation outcome' :=
  (stitch stop_to_edge stop_to_startpos stop_to_posrange shortest_path).
Abbreviation kept' :=
  (kept_of stop_to_edge stop_to_startpos stop_to_posrange shortest_path).
Abbreviation dropped' :=
  (dropped_count stop_to_edge stop_to_startpos stop_to_posrange shortest_path).
Abbreviation greedy' :=
  (greedy_walk stop_to_edge stop_to_startpos stop_to_posrange).
Abbreviation fill :=
  (fill_edges_and_prune stop_to_edge stop_to_startpos stop_to_posrange
     shortest_path duarouter).

Lemma stitch_routed (method : string) (computed : gmap string (list string))
    (rid : string) (r : RouteElem) (se : list string) :
  assigned' r = Some se ->
  outcome' method computed (rid, r) =
  match routed_path shortest_path method computed rid se with
  | None => Dropped (if String.eqb method "sumolib" then no_path else duarouter_missing)
  | Some path =>
      if _is_stop_sequence_downstream stop_to_edge stop_to_startpos
           stop_to_posrange path (stops_sequence r)
      then Kept path else Dropped not_downstream
  end.
Proof.
  intros Ha. unfold stitch, routed_path. rewrite Ha.
  destruct (String.eqb method "sumolib").
  - destruct (stitch_path shortest_path true se []) as [ok full].
    destruct (negb ok || bool_decide (full = [])); reflexivity.
  - destruct (bool_decide _); reflexivity.
Qed.

Lemma kept_keys_sublist (method : string) (computed : gmap string (list string))
    (items : list (string * RouteElem)) :
  sublist (dict_keys (omap (kept' method computed) items)) (dict_keys items).
Proof.
  induction items as [|[rid r] items IH]; [apply sublist_nil|].
  cbn [omap list_omap]. unfold kept_of at 1. cbn [fst].
  change (dict_keys ((rid, r) :: items)) with (rid :: dict_keys items).
  destruct (outcome' method computed (rid, r)) as [e|why].
  - apply sublist_skip. exact IH.
  - apply sublist_cons. exact IH.
Qed.

(** A route is in the output exactly when the contract keeps it. *)
Lemma kept_lookup (method : string) (computed : gmap string (list string))
    (items : list (string * RouteElem)) (rid : string) (e : list string) :
  NoDup (dict_keys items) ->
  dict_get rid (omap (kept' method computed) items) = Some e <->
  exists r, (rid, r) ∈ items /\ outcome' method computed (rid, r) = Kept e.
Proof.
  intros Hnd.
  assert (Hnd' : NoDup (dict_keys (omap (kept' method computed) items)))
    by (eapply sublist_NoDup; [exact Hnd | apply kept_keys_sublist]).
  split.
  - intros Hg. apply dict_get_Some_elem in Hg.
    apply list_elem_of_omap in Hg. destruct Hg as ([rid' r] & Hin & Hk).
    unfold kept_of in Hk. cbn [fst] in Hk.
    destruct (outcome' method computed (rid', r)) as [e'|] eqn:Ho; [|discriminate].
    injection Hk as -> ->. exists r. split; assumption.
  - intros (r & Hin & Ho). apply dict_get_elem; [exact Hnd'|].
    apply list_elem_of_omap. exists (rid, r). split; [exact Hin|].
    unfold kept_of. rewrite Ho. reflexivity.
Qed.

Lemma elem_unique {V : Type} (d : list (string * V)) (k : string) (v v' : V) :
  NoDup (dict_keys d) -> (k, v) ∈ d -> (k, v') ∈ d -> v = v'.
Proof.
  intros Hnd H1 H2. apply (dict_get_elem _ _ _ Hnd) in H1, H2. congruence.
Qed.

(** Every route has exactly one outcome. *)
Lemma outcome_partition (method : string) (computed : gmap string (list string))
    (items : list (string * RouteElem)) :
  length items =
  (length (omap (kept' method computed) items)
   + dropped' method computed missing_stop_assignment items
   + dropped' method computed no_path items
   + dropped' method computed not_downstream items
   + dropped' method computed duarouter_missing items)%nat.
Proof.
  induction items as [|[rid r] items IH]; [reflexivity|].
  rewrite !dropped_cons, kept_cons. cbn [length].
  destruct (outcome' method computed (rid, r)) as [e|[]]; cbn; lia.
Qed.

Lemma assigned_length (r : RouteElem) (se : list string) :
  assigned' r = Some se -> (2 <= length (stops_sequence r))%nat.
Proof.
  unfold assigned_stop_edges.
  destruct (Nat.ltb_spec (length (stops_sequence r)) 2); [discriminate | lia].
Qed.

(** What the contract keeps is what passed the downstream check. *)
Lemma kept_inv (method : string) (computed : gmap string (list string))
    (rid : string) (r : RouteElem) (e : list string) :
  outcome' method computed (rid, r) = Kept e ->
  exists se, assigned' r = Some se /\
    routed_path shortest_path method computed rid se = Some e /\
    _is_stop_sequence_downstream stop_to_edge stop_to_startpos stop_to_posrange
      e (stops_sequence r) = true.
Proof.
  intros Ho. destruct (assigned' r) as [se|] eqn:Ha.
  - exists se. split; [reflexivity|].
    rewrite (stitch_routed method computed rid r se Ha) in Ho.
    destruct (routed_path shortest_path method computed rid se) as [path|];
      [|discriminate].
    destruct (_is_stop_sequence_downstream _ _ _ path _) eqn:Hd; [|discriminate].
    injection Ho as <-. split; [reflexivity | exact Hd].
  - unfold stitch in Ho. rewrite Ha in Ho. discriminate.
Qed.


(** C7 -- cascade pruning.  Every kept vehicle is an input vehicle that
    references a kept route; every vehicle whose route is not among the
    kept routes (dropped, or not a known route at all) is absent from the
    output; each drop counter counts the routes with that outcome, the
    kept counters count the output, and [routes_total] and
    [vehicles_total] are the sums of the respective counters. *)
Theorem cascade_pruning (route_elems : list RouteElem)
    (vehicles : list VehicleElem) (method : string) (out : Output) :
  fill route_elems vehicles method = Some out ->
  let routes := routes_dict route_elems in
  let computed := duarouter (stop_edge_table stop_to_edge routes) in
  let s := out_stats out in
  (forall v, v ∈ out_vehicles out ->
     v ∈ vehicles /\ vehicle_route v ∈ dict_keys (out_routes out)) /\
  (forall v, v ∈ vehicles ->
     vehicle_route v ∉ dict_keys (out_routes out) -> v ∉ out_vehicles out) /\
  (forall rid, rid ∈ dict_keys (out_routes out) <->
     exists r e, (rid, r) ∈ routes /\ outcome' method computed (rid, r) = Kept e) /\
  routes_kept s = length (out_routes out) /\
  routes_dropped_missing_stop s =
    dropped' method computed missing_stop_assignment routes /\
  routes_dropped_no_path s = dropped' method computed no_path routes /\
  routes_dropped_not_downstream s =
    dropped' method computed not_downstream routes /\
  routes_dropped_duarouter_missing s =
    dropped' method computed duarouter_missing routes /\
  vehicles_kept s = length (out_vehicles out) /\
  routes_total s = length routes /\
  vehicles_total s = length vehicles /\
  routes_total s =
    (routes_kept s + routes_dropped_missing_stop s + routes_dropped_no_path s
     + routes_dropped_not_downstream s + routes_dropped_duarouter_missing s)%nat /\
  vehicles_total s = (vehicles_kept s + vehicles_dropped_route_missing s)%nat.
Proof.
  intros Hfill routes computed s.
  destruct (fill_refines_stitch _ _ _ _ _ _ _ _ _ Hfill) as (_ & Hr & Hv & Hs).
  fold routes in Hr, Hs. fold computed in Hr, Hs. fold s in Hs.
  pose proof (routes_dict_NoDup route_elems) as Hnd. fold routes in Hnd.
  set (ids := list_to_set (dict_keys (out_routes out)) : gset string) in *.
  assert (Hkeep : forall v, keeps_vehicle ids v = true ->
            vehicle_route v ∈ dict_keys (out_routes out)).
  { intros v Hk. unfold keeps_vehicle in Hk. apply andb_true_iff in Hk.
    destruct Hk as [_ Hk]. apply bool_decide_eq_true in Hk.
    subst ids. apply elem_of_list_to_set in Hk. exact Hk. }
  assert (Hp : forall f : Stats -> nat, f (forget_segments s) = f _)
    by (intros f; rewrite Hs; reflexivity).
  pose proof (Hp routes_total) as H1. pose proof (Hp routes_kept) as H2.
  pose proof (Hp routes_dropped_missing_stop) as H3.
  pose proof (Hp routes_dropped_no_path) as H4.
  pose proof (Hp routes_dropped_duarouter_missing) as H5.
  pose proof (Hp routes_dropped_not_downstream) as H6.
  pose proof (Hp vehicles_total) as H7. pose proof (Hp vehicles_kept) as H8.
  pose proof (Hp vehicles_dropped_route_missing) as H9.
  cbn in H1, H2, H3, H4, H5, H6, H7, H8, H9.
  pose proof (outcome_partition method computed routes) as Hpart.
  rewrite <- Hr in Hpart.
  assert (Hvpart : length vehicles =
            (length (filter (fun v => keeps_vehicle ids v = true) vehicles)
             + length (filter (fun v => keeps_vehicle ids v <> true) vehicles))%nat).
  { clear. induction vehicles as [|v vs IH]; [reflexivity|].
    rewrite !filter_cons. destruct (keeps_vehicle ids v).
    - rewrite decide_True by reflexivity.
      rewrite decide_False by (intros H; apply H; reflexivity). cbn. lia.
    - rewrite decide_False by discriminate.
      rewrite decide_True by discriminate. cbn. lia. }
  rewrite <- Hv in Hvpart.
  split; [|split; [|split]].
  - intros v Hin. rewrite Hv in Hin. apply list_elem_of_filter in Hin.
    destruct Hin as [Hk Hin]. split; [exact Hin | apply Hkeep; exact Hk].
  - intros v _ Hnot Hin. rewrite Hv in Hin. apply list_elem_of_filter in Hin.
    destruct Hin as [Hk _]. apply Hnot. apply Hkeep. exact Hk.
  - intros rid. rewrite Hr. split.
    + intros Hin. destruct (dict_get rid (omap (kept' method computed) routes))
        as [e|] eqn:Hg.
      * apply (kept_lookup _ _ _ _ _ Hnd) in Hg. destruct Hg as (r & Hin' & Ho).
        exists r, e. split; assumption.
      * apply dict_get_None in Hg. contradiction.
    + intros (r & e & Hin & Ho).
      assert (Hg : dict_get rid (omap (kept' method computed) routes) = Some e)
        by (apply (kept_lookup _ _ _ _ _ Hnd); exists r; split; assumption).
      destruct (decide (rid ∈ dict_keys (omap (kept' method computed) routes)))
        as [Hy|Hn]; [exact Hy|].
      apply dict_get_None in Hn. congruence.
  - repeat split; lia.
Qed.

End StitcherClaims.



(** The same scenario as an instance of C7. *)
Lemma cascade_pruning_witness :
  Stitcher.fill_edges_and_prune Stitcher.ex_stop_to_edge
    Stitcher.ex_stop_to_startpos Stitcher.ex_stop_to_posrange
    Stitcher.ex_shortest_path Stitcher.ex_duarouter
    Stitcher.ex_routes Stitcher.ex_vehicles "sumolib" = Some Stitcher.ex_output /\
  forall v, v ∈ Stitcher.out_vehicles Stitcher.ex_output ->
    v ∈ Stitcher.ex_vehicles /\
    Stitcher.vehicle_route v ∈ dict_keys (Stitcher.out_routes Stitcher.ex_output).
Proof.
  assert (H : Stitcher.fill_edges_and_prune Stitcher.ex_stop_to_edge
    Stitcher.ex_stop_to_startpos Stitcher.ex_stop_to_posrange
    Stitcher.ex_shortest_path Stitcher.ex_duarouter
    Stitcher.ex_routes Stitcher.ex_vehicles "sumolib" = Some Stitcher.ex_output)
    by (vm_compute; reflexivity).
  split; [exact H|].
  exact (proj1 (cascade_pruning _ _ _ _ _ _ _ _ _ H)).
Defined.

(** ** Intermodal planner: the leg chain *)
Section PlannerChain.
Import Planner.

Lemma chained_snoc (ls : list Leg) (l : Leg) :
  chained ls ->
  (forall l0, last ls = Some l0 -> leg_to l0 = leg_from l) ->
  chained (ls ++ [l]).
Proof.
  intros Hc Hlast i a b Ha Hb.
  destruct (Nat.lt_trichotomy (S i) (length ls)) as [Hlt|[Heq|Hgt]].
  - rewrite lookup_app_l in Ha by lia. rewrite lookup_app_l in Hb by lia.
    eapply Hc; eassumption.
  - rewrite lookup_app_l in Ha by lia.
    rewrite lookup_app_r in Hb by lia.
    replace (S i - length ls)%nat with 0%nat in Hb by lia.
    injection Hb as <-. apply Hlast.
    rewrite last_lookup. rewrite <- Heq. exact Ha.
  - rewrite lookup_app_r in Hb by lia.
    destruct (S i - length ls)%nat as [|k] eqn:Hk; [lia|].
    simpl in Hb. rewrite lookup_nil in Hb. discriminate.
Qed.

(** The loop invariant of [_stages_to_plan]: the legs built so far are
    chained, start at the origin edge and end at the running anchor. *)
Lemma stages_loop_chained (origin dest_edge : string) (stages : list Stage) :
  forall idx ls cur ls',
    chained ls ->
    (forall l, head ls = Some l -> leg_from l = edge origin) ->
    match last ls with Some l => leg_to l = cur | None => cur = edge origin end ->
    stages_loop dest_edge idx stages ls cur = inr ls' ->
    chained ls' /\ (forall l, head ls' = Some l -> leg_from l = edge origin).
Proof.
  induction stages as [|st rest IH]; intros idx ls cur ls' Hc Hh Hl; simpl.
  - intros [= <-]. split; assumption.
  - assert (Hstep : forall l, leg_from l = cur ->
              chained (ls ++ [l]) /\
              (forall l1, head (ls ++ [l]) = Some l1 -> leg_from l1 = edge origin) /\
              match last (ls ++ [l]) with
              | Some l1 => leg_to l1 = leg_to l
              | None => leg_to l = edge origin
              end).
    { intros l Hfrom. split; [|split].
      - apply chained_snoc; [exact Hc|]. intros l0 Hl0.
        rewrite Hl0 in Hl. congruence.
      - intros l1. destruct ls as [|l0 ls0]; simpl.
        + intros [= <-]. simpl in Hl. congruence.
        + intros [= <-]. apply Hh. reflexivity.
      - rewrite last_snoc. reflexivity. }
    destruct (is_ride st).
    + destruct cur as [e|s]; [discriminate|].
      destruct (String.eqb (stage_destStop st) ""); [discriminate|].
      intros Hloop. eapply IH; [| | | exact Hloop]; eapply Hstep; reflexivity.
    + destruct (is_walk st); [|discriminate].
      destruct (nonempty (stage_destStop st));
        intros Hloop; (eapply IH; [| | | exact Hloop]); eapply Hstep; reflexivity.
Qed.

(** C4 -- chaining invariant by construction.  Whenever
    [_stages_to_plan] returns a plan (raises no error), consecutive legs
    of the plan satisfy [leg[i].to == leg[i+1].from], and the first leg
    starts at the request's origin edge. *)
Theorem stages_to_plan_chained (stages : list Stage) (pid : string) (dep : Z)
    (origin dest_edge : string) (plan : Plan) :
  _stages_to_plan stages pid dep origin dest_edge = inr plan ->
  chained (legs plan) /\
  (forall l, head (legs plan) = Some l -> leg_from l = edge origin).
Proof.
  unfold _stages_to_plan.
  destruct (stages_loop dest_edge 0 stages [] (edge origin)) as [err|ls] eqn:Hloop;
    [discriminate|].
  intros [= <-]. simpl.
  eapply stages_loop_chained; [| | | exact Hloop].
  - intros i l l' Hl. rewrite lookup_nil in Hl. discriminate.
  - intros l Hl. discriminate.
  - reflexivity.
Qed.

(** Scenario C's stage sequence converts to a chain of eight legs. *)
Lemma stages_to_plan_chained_witness :
  exists plan,
    _stages_to_plan ex_stages "p0" 0 "from" "to" = inr plan /\
    chained (legs plan) /\
    (forall l, head (legs plan) = Some l -> leg_from l = edge "from").
Proof.
  eexists. split; [vm_compute; reflexivity|].
  apply (stages_to_plan_chained ex_stages "p0" 0 "from" "to").
  vm_compute. reflexivity.
Defined.

End PlannerChain.

(** ** Intermodal planner: the relaxation grid *)
Section PlannerGrid.
Import Planner.

Lemma Qltb_false (x y : Q) : Qltb x y = false <-> (y <= x)%Q.
Proof. unfold Qltb. rewrite negb_false_iff. apply Qle_bool_iff. Qed.

Lemma Qltb_true (x y : Q) : Qltb x y = true <-> (x < y)%Q.
Proof.
  unfold Qltb. rewrite negb_true_iff. rewrite <- not_true_iff_false.
  rewrite Qle_bool_iff. split; [apply Qnot_le_lt | apply Qlt_not_le].
Qed.

(** [_meets_constraints] checks each bound that is present against each
    statistic that is present. *)
Lemma meets_constraints_iff (stats : PlanStats) (w : option Q) (t : option Z) :
  _meets_constraints stats w t = true <->
  (forall t', t = Some t' -> transferCount stats <= t') /\
  (forall w' a, w = Some w' -> accessWalkLength stats = Some a -> (a <= w')%Q) /\
  (forall w' e, w = Some w' -> egressWalkLength stats = Some e -> (e <= w')%Q).
Proof.
  unfold _meets_constraints. rewrite andb_true_iff. split.
  - intros [Ht Hw]. split; [|split].
    + intros t' ->. apply negb_true_iff in Ht. apply Z.ltb_ge in Ht. exact Ht.
    + intros w' a -> Ha. rewrite Ha in Hw. apply andb_true_iff in Hw.
      destruct Hw as [Hw _]. apply negb_true_iff in Hw. apply Qltb_false. exact Hw.
    + intros w' e -> He. rewrite He in Hw. apply andb_true_iff in Hw.
      destruct Hw as [_ Hw]. apply negb_true_iff in Hw. apply Qltb_false. exact Hw.
  - intros (Ht & Ha & He). split.
    + destruct t as [t'|]; [|reflexivity].
      apply negb_true_iff. apply Z.ltb_ge. apply Ht. reflexivity.
    + destruct w as [w'|]; [|reflexivity]. apply andb_true_iff. split.
      * destruct (accessWalkLength stats) as [a|]; [|reflexivity].
        apply negb_true_iff. apply Qltb_false. eapply Ha; reflexivity.
      * destruct (egressWalkLength stats) as [e|]; [|reflexivity].
        apply negb_true_iff. apply Qltb_false. eapply He; reflexivity.
Qed.

Lemma meets_satisfies (stats : PlanStats) (p : Q * Z) :
  _meets_constraints stats (Some (fst p)) (Some (snd p)) = true <-> satisfies stats p.
Proof.
  rewrite meets_constraints_iff. unfold satisfies. split.
  - intros (Ht & Ha & He). split; [apply Ht; reflexivity|].
    split; intros x Hx; [eapply Ha | eapply He]; eauto.
  - intros (Ht & Ha & He). split; [intros t' [= <-]; exact Ht|].
    split; intros w' x [= <-] Hx; [apply Ha | apply He]; exact Hx.
Qed.

(** The acceptance loop returns the first pair of the grid that the
    statistics satisfy. *)
Lemma accept_first (relax : list (Q * Z)) (stats : PlanStats) (p : Q * Z) :
  accept relax stats = Some p <->
  exists before after,
    relax = before ++ p :: after /\ satisfies stats p /\
    forall q, q ∈ before -> ~ satisfies stats q.
Proof.
  induction relax as [|[w t] rest IH]; simpl.
  - split; [discriminate|]. intros (before & after & Heq & _).
    destruct before; discriminate.
  - destruct (_meets_constraints stats (Some w) (Some t)) eqn:Hm.
    + apply (meets_satisfies stats (w, t)) in Hm. split.
      * intros [= <-]. exists [], rest. split; [reflexivity|].
        split; [exact Hm|]. intros q Hq. apply elem_of_nil in Hq. destruct Hq.
      * intros (before & after & Heq & Hp & Hnot).
        destruct before as [|q before]; simpl in Heq.
        -- injection Heq as <- _. reflexivity.
        -- injection Heq as <- _. exfalso. apply (Hnot (w, t)); [left | exact Hm].
    + assert (Hn : ~ satisfies stats (w, t)).
      { intros Hs. apply (meets_satisfies stats (w, t)) in Hs.
        simpl in Hs. congruence. }
      rewrite IH. split.
      * intros (before & after & -> & Hp & Hnot).
        exists ((w, t) :: before), after. split; [reflexivity|].
        split; [exact Hp|]. intros q Hq. apply elem_of_cons in Hq.
        destruct Hq as [->|Hq]; [exact Hn | apply Hnot; exact Hq].
      * intros (before & after & Heq & Hp & Hnot).
        destruct before as [|q before]; simpl in Heq.
        -- injection Heq as <- _. contradiction.
        -- injection Heq as <- ->. exists before, after.
           split; [reflexivity|]. split; [exact Hp|].
           intros q Hq. apply Hnot. right. exact Hq.
Qed.

Lemma accept_none (relax : list (Q * Z)) (stats : PlanStats) :
  accept relax stats = None <-> forall q, q ∈ relax -> ~ satisfies stats q.
Proof.
  induction relax as [|[w t] rest IH]; simpl.
  - split; [|reflexivity]. intros _ q Hq. apply elem_of_nil in Hq. destruct Hq.
  - destruct (_meets_constraints stats (Some w) (Some t)) eqn:Hm.
    + apply (meets_satisfies stats (w, t)) in Hm.
      split; [discriminate|]. intros H. exfalso. apply (H (w, t)); [left | exact Hm].
    + rewrite IH. split.
      * intros H q Hq. apply elem_of_cons in Hq. destruct Hq as [->|Hq].
        -- intros Hs. apply (meets_satisfies stats (w, t)) in Hs.
           simpl in Hs. congruence.
        -- apply H. exact Hq.
      * intros H q Hq. apply H. right. exact Hq.
Qed.

(** C3 -- relaxation-grid acceptance.  For a request whose stage
    statistics are computed: [_meets_constraints] holds for a pair exactly
    when the transfer count is within the transfer bound and each of the
    access and egress walk lengths that is present is within the walk
    bound (an absent bound or length constrains nothing); the request is
    accepted under exactly the first pair of the grid that the statistics
    satisfy; and when no pair is satisfied, no plan is added and the
    request's result is [no_solution_under_constraints] with the
    statistics attached. *)
Theorem relaxation_grid_acceptance
    (findIntermodalRoute : OD -> option (list Stage)) (relax : list (Q * Z))
    (plans plans' : list Plan) (results results' : list Item)
    (od : OD) (stages : list Stage) :
  findIntermodalRoute od = Some stages ->
  od_step findIntermodalRoute relax (plans, results) od = (plans', results') ->
  let stats := _plan_stats_from_stages stages in
  (forall w t, _meets_constraints stats w t = true <->
     (forall t', t = Some t' -> transferCount stats <= t') /\
     (forall w' a, w = Some w' -> accessWalkLength stats = Some a -> (a <= w')%Q) /\
     (forall w' e, w = Some w' -> egressWalkLength stats = Some e -> (e <= w')%Q)) /\
  (forall p, accept relax stats = Some p <->
     exists before after,
       relax = before ++ p :: after /\ satisfies stats p /\
       forall q, q ∈ before -> ~ satisfies stats q) /\
  (forall w t, accept relax stats = Some (w, t) ->
     (exists plan,
        _stages_to_plan stages (person_id od) (od_depart od)
          (from_edge od) (to_edge od) = inr plan /\
        plans' = plans ++ [mkPlan (personId plan) (depart plan) (legs plan)
                             (meta_fromEdge plan) (meta_toEdge plan)
                             (Some (mkRouting w t, stats))] /\
        results' = results ++ [mkItem od (status_ok w t stats)]) \/
     (plans' = plans /\ results' = results ++ [mkItem od status_error])) /\
  ((forall q, q ∈ relax -> ~ satisfies stats q) ->
     plans' = plans /\
     results' = results ++ [mkItem od (status_no_solution_under_constraints stats)]).
Proof.
  intros Hfind Hstep stats. unfold od_step in Hstep. rewrite Hfind in Hstep.
  fold stats in Hstep.
  split; [intros; apply meets_constraints_iff|].
  split; [intros; apply accept_first|].
  destruct (accept relax stats) as [[w t]|] eqn:Hacc.
  - destruct (_stages_to_plan stages (person_id od) (od_depart od)
                (from_edge od) (to_edge od)) as [err|plan];
      injection Hstep as <- <-.
    + split.
      * intros w' t' [= <- <-]. right. split; reflexivity.
      * intros Hnone. apply accept_none in Hnone. congruence.
    + split.
      * intros w' t' [= <- <-]. left. exists plan. repeat split; reflexivity.
      * intros Hnone. apply accept_none in Hnone. congruence.
  - injection Hstep as <- <-. split.
    + intros w' t'. discriminate.
    + intros _. split; reflexivity.
Qed.

(** Scenario C: five transfers against the grid of [main]'s defaults,
    whose largest transfer bound is four. *)
Lemma relaxation_grid_acceptance_witness :
  let find := fun _ : OD => Some ex_stages in
  let relax := _relaxation_grid [1000; 2000; 5000]%Q [2; 3; 4] in
  let stats := _plan_stats_from_stages ex_stages in
  transferCount stats = 5 /\
  od_step find relax ([], []) ex_od =
    ([], [mkItem ex_od (status_no_solution_under_constraints stats)]) /\
  forall p, accept relax stats = Some p <->
    exists before after,
      relax = before ++ p :: after /\ satisfies stats p /\
      forall q, q ∈ before -> ~ satisfies stats q.
Proof.
  intros find relax stats.
  assert (Hstep : od_step find relax ([], []) ex_od =
            ([], [mkItem ex_od (status_no_solution_under_constraints stats)]))
    by (vm_compute; reflexivity).
  split; [vm_compute; reflexivity|]. split; [exact Hstep|].
  exact (proj1 (proj2 (relaxation_grid_acceptance find relax [] [] [] _
                         ex_od ex_stages eq_refl Hstep))).
Defined.

End PlannerGrid.

(** ** Chain validator: the earliest-arrival search *)
Section EarliestArrival.
Import Validator.

Lemma first_at_nil (s : string) (i : nat) (t : Z) : ~ first_at [] s i t.
Proof. intros [H _]. unfold timed_at in H. rewrite lookup_nil in H. discriminate. Qed.

Lemma first_at_here (rest : list Stop) (s : string) (t : Z) (i : nat) (t' : Z) :
  first_at (mkStop (Some s) (Some t) :: rest) s i t' <-> i = 0%nat /\ t' = t.
Proof.
  split.
  - intros [Hi Hmin]. destruct i as [|i].
    + unfold timed_at in Hi. simpl in Hi. injection Hi as ->. split; reflexivity.
    + exfalso. apply (Hmin 0%nat t); [lia | reflexivity].
  - intros [-> ->]. split; [reflexivity|]. intros i' t' Hi'. lia.
Qed.

Lemma first_at_skip (x : Stop) (rest : list Stop) (s : string) (i : nat) (t : Z) :
  (forall u, x <> mkStop (Some s) (Some u)) ->
  first_at (x :: rest) s i t <-> exists i', i = S i' /\ first_at rest s i' t.
Proof.
  intros Hx. split.
  - intros [Hi Hmin]. destruct i as [|i].
    + unfold timed_at in Hi. simpl in Hi. injection Hi as Hi.
      exfalso. exact (Hx t Hi).
    + exists i. split; [reflexivity|]. split; [exact Hi|].
      intros i' t' Hlt Hi'. apply (Hmin (S i') t'); [lia | exact Hi'].
  - intros (i' & -> & Hi & Hmin). split; [exact Hi|].
    intros [|j] t' Hlt Hj.
    + unfold timed_at in Hj. simpl in Hj. injection Hj as Hj. exact (Hx t' Hj).
    + apply (Hmin j t'); [lia | exact Hj].
Qed.

(** Once the "from" stop is seen, the scan ends at the first timed
    entry of the "to" stop. *)
Lemma scan_after (from_stop to_stop : string) (stops : list Stop) (b : Z) :
  exists tu,
    scan_stops from_stop to_stop stops (Some b) true = (Some b, tu) /\
    forall a, tu = Some a <-> exists k, first_at stops to_stop k a.
Proof.
  induction stops as [|[[bs|] [u|]] rest IH]; simpl.
  - exists None. split; [reflexivity|]. intros a. split; [discriminate|].
    intros [k Hk]. exfalso. exact (first_at_nil _ _ _ Hk).
  - rewrite andb_false_r.
    destruct (String.eqb_spec bs to_stop) as [->|Hne]; simpl.
    + exists (Some u). split; [reflexivity|]. intros a. split.
      * intros [= <-]. exists 0%nat. apply first_at_here. split; reflexivity.
      * intros [k Hk]. apply first_at_here in Hk. destruct Hk as [_ ->]. reflexivity.
    + destruct IH as (tu & Heq & Htu). exists tu. split; [exact Heq|].
      intros a. rewrite Htu. split.
      * intros [k Hk]. exists (S k). apply first_at_skip; [congruence|]. eauto.
      * intros [k Hk]. apply first_at_skip in Hk; [|congruence].
        destruct Hk as (k' & _ & Hk'). eauto.
  - destruct IH as (tu & Heq & Htu). exists tu. split; [exact Heq|].
    intros a. rewrite Htu. split.
    + intros [k Hk]. exists (S k). apply first_at_skip; [congruence|]. eauto.
    + intros [k Hk]. apply first_at_skip in Hk; [|congruence].
      destruct Hk as (k' & _ & Hk'). eauto.
  - destruct IH as (tu & Heq & Htu). exists tu. split; [exact Heq|].
    intros a. rewrite Htu. split.
    + intros [k Hk]. exists (S k). apply first_at_skip; [congruence|]. eauto.
    + intros [k Hk]. apply first_at_skip in Hk; [|congruence].
      destruct Hk as (k' & _ & Hk'). eauto.
  - destruct IH as (tu & Heq & Htu). exists tu. split; [exact Heq|].
    intros a. rewrite Htu. split.
    + intros [k Hk]. exists (S k). apply first_at_skip; [congruence|]. eauto.
    + intros [k Hk]. apply first_at_skip in Hk; [|congruence].
      destruct Hk as (k' & _ & Hk'). eauto.
Qed.

Lemma first_ride_skip (from_stop to_stop : string) (x : Stop) (rest : list Stop)
    (b a : Z) :
  (forall u, x <> mkStop (Some from_stop) (Some u)) ->
  first_ride from_stop to_stop (x :: rest) b a <->
  first_ride from_stop to_stop rest b a.
Proof.
  intros Hx. unfold first_ride. split.
  - intros (i & k & Hi & Hk). apply first_at_skip in Hi; [|exact Hx].
    destruct Hi as (i' & -> & Hi'). exists i', k. split; [exact Hi' | exact Hk].
  - intros (i & k & Hi & Hk). exists (S i), k. split; [|exact Hk].
    apply first_at_skip; [exact Hx|]. eauto.
Qed.

(** The scan of a vehicle's stops finds the first timed entry of the
    "from" stop and the first timed entry of the "to" stop after it. *)
Lemma scan_first_ride (from_stop to_stop : string) (stops : list Stop) (b a : Z) :
  scan_stops from_stop to_stop stops None false = (Some b, Some a) <->
  first_ride from_stop to_stop stops b a.
Proof.
  induction stops as [|[[bs|] [u|]] rest IH]; simpl.
  - split; [discriminate|]. intros (i & k & Hi & _).
    exfalso. exact (first_at_nil _ _ _ Hi).
  - rewrite andb_false_r.
    destruct (String.eqb_spec bs from_stop) as [->|Hne]; simpl.
    + destruct (scan_after from_stop to_stop rest u) as (tu & Heq & Htu).
      rewrite Heq. split.
      * intros [= -> ->]. destruct (proj1 (Htu a) eq_refl) as [k Hk].
        exists 0%nat, k. split; [apply first_at_here; split; reflexivity | exact Hk].
      * intros (i & k & Hi & Hk). apply first_at_here in Hi. destruct Hi as [-> ->].
        simpl in Hk. rewrite drop_0 in Hk.
        f_equal. apply Htu. eauto.
    + rewrite IH. symmetry. apply first_ride_skip. congruence.
  - rewrite IH. symmetry. apply first_ride_skip. congruence.
  - rewrite IH. symmetry. apply first_ride_skip. congruence.
  - rewrite IH. symmetry. apply first_ride_skip. congruence.
Qed.

Lemma ride_of_feasible (from_stop to_stop : string) (cursor : Z)
    (fv : string * Vehicle) (b : Best) :
  ride_of from_stop to_stop cursor fv = Some b <->
  feasible_ride from_stop to_stop cursor fv b.
Proof.
  unfold ride_of, feasible_ride.
  destruct (scan_stops from_stop to_stop (veh_stops (snd fv)) None false)
    as [fu tu] eqn:Hscan.
  split.
  - destruct fu as [fu|]; [|discriminate]. destruct tu as [tu|]; [|discriminate].
    destruct (Z.ltb_spec fu cursor) as [Hlt|Hge]; [discriminate|].
    intros [= <-]. simpl. apply scan_first_ride in Hscan.
    split; [exact Hscan|]. split; [exact Hge | reflexivity].
  - intros (Hride & Hcur & Hb). apply scan_first_ride in Hride.
    rewrite Hscan in Hride. injection Hride as -> ->.
    destruct (Z.ltb_spec (boardLatest b) cursor) as [Hlt|Hge]; [lia|].
    rewrite Hb at 3. reflexivity.
Qed.

Lemma consider_ride_of (from_stop to_stop : string) (cursor : Z)
    (best : option Best) (fv : string * Vehicle) :
  consider from_stop to_stop cursor best fv =
  match ride_of from_stop to_stop cursor fv with
  | None => best
  | Some f =>
      match best with
      | None => Some f
      | Some b => if arrivalTime f <? arrivalTime b then Some f else best
      end
  end.
Proof.
  unfold consider, ride_of. destruct fv as [file v]. simpl.
  destruct (scan_stops from_stop to_stop (veh_stops v) None false) as [[fu|] [tu|]];
    try reflexivity.
  destruct (fu <? cursor); reflexivity.
Qed.

Lemma feasible_ride_unique (from_stop to_stop : string) (cursor : Z)
    (fv : string * Vehicle) (b b' : Best) :
  feasible_ride from_stop to_stop cursor fv b ->
  feasible_ride from_stop to_stop cursor fv b' -> b = b'.
Proof.
  intros H H'. apply ride_of_feasible in H, H'. congruence.
Qed.

(** The loop over the candidates keeps the first candidate of least
    arrival time. *)
Lemma fold_consider (from_stop to_stop : string) (cursor : Z)
    (cands : list (string * Vehicle)) :
  match fold_left (consider from_stop to_stop cursor) cands None with
  | None => forall fv, fv ∈ cands -> ride_of from_stop to_stop cursor fv = None
  | Some b => first_earliest from_stop to_stop cursor cands b
  end.
Proof.
  induction cands as [|x l IH] using rev_ind.
  - simpl. intros fv Hin. apply elem_of_nil in Hin. destruct Hin.
  - rewrite fold_left_app. simpl. rewrite consider_ride_of.
    destruct (ride_of from_stop to_stop cursor x) as [f|] eqn:Hx.
    + apply ride_of_feasible in Hx as Hfx.
      destruct (fold_left (consider from_stop to_stop cursor) l None) as [b|].
      * destruct IH as (before & fv & after & -> & Hfv & Hb & Ha).
        destruct (Z.ltb_spec (arrivalTime f) (arrivalTime b)) as [Hlt|Hge].
        -- exists (before ++ fv :: after), x, []. split; [reflexivity|].
           split; [exact Hfx|]. split.
           ++ intros fv' b' Hin Hfeas. apply elem_of_app in Hin.
              destruct Hin as [Hin|Hin].
              ** specialize (Hb _ _ Hin Hfeas). lia.
              ** apply elem_of_cons in Hin. destruct Hin as [->|Hin].
                 --- rewrite (feasible_ride_unique _ _ _ _ _ _ Hfeas Hfv). lia.
                 --- specialize (Ha _ _ Hin Hfeas). lia.
           ++ intros fv' b' Hin. apply elem_of_nil in Hin. destruct Hin.
        -- exists before, fv, (after ++ [x]).
           split; [rewrite <- app_assoc; reflexivity|].
           split; [exact Hfv|]. split; [exact Hb|].
           intros fv' b' Hin Hfeas. apply elem_of_app in Hin.
           destruct Hin as [Hin|Hin]; [eapply Ha; eassumption|].
           apply list_elem_of_singleton in Hin. subst fv'.
           rewrite (feasible_ride_unique _ _ _ _ _ _ Hfeas Hfx). exact Hge.
      * exists l, x, []. split; [reflexivity|]. split; [exact Hfx|]. split.
        -- intros fv' b' Hin Hfeas. apply ride_of_feasible in Hfeas.
           rewrite (IH _ Hin) in Hfeas. discriminate.
        -- intros fv' b' Hin. apply elem_of_nil in Hin. destruct Hin.
    + destruct (fold_left (consider from_stop to_stop cursor) l None) as [b|].
      * destruct IH as (before & fv & after & -> & Hfv & Hb & Ha).
        exists before, fv, (after ++ [x]).
        split; [rewrite <- app_assoc; reflexivity|].
        split; [exact Hfv|]. split; [exact Hb|].
        intros fv' b' Hin Hfeas. apply elem_of_app in Hin.
        destruct Hin as [Hin|Hin]; [eapply Ha; eassumption|].
        apply list_elem_of_singleton in Hin. subst fv'.
        apply ride_of_feasible in Hfeas. congruence.
      * intros fv Hin. apply elem_of_app in Hin. destruct Hin as [Hin|Hin].
        -- apply IH. exact Hin.
        -- apply list_elem_of_singleton in Hin. subst fv. exact Hx.
Qed.

Lemma best_vehicle_arrival_Some (routes_files : list RoutesFile)
    (target_lines : list string) (from_stop to_stop : string) (cursor : Z)
    (b : Best) :
  _best_vehicle_arrival routes_files target_lines from_stop to_stop cursor = Some b ->
  first_earliest from_stop to_stop cursor (candidates routes_files target_lines) b.
Proof.
  unfold _best_vehicle_arrival. intros Hb.
  pose proof (fold_consider from_stop to_stop cursor
                (candidates routes_files target_lines)) as H.
  rewrite Hb in H. exact H.
Qed.

Lemma best_vehicle_arrival_None (routes_files : list RoutesFile)
    (target_lines : list string) (from_stop to_stop : string) (cursor : Z) :
  _best_vehicle_arrival routes_files target_lines from_stop to_stop cursor = None <->
  forall fv b, fv ∈ candidates routes_files target_lines ->
    ~ feasible_ride from_stop to_stop cursor fv b.
Proof.
  unfold _best_vehicle_arrival.
  pose proof (fold_consider from_stop to_stop cursor
                (candidates routes_files target_lines)) as H.
  destruct (fold_left _ _ None) as [b|].
  - split; [discriminate|]. intros Hnone. exfalso.
    destruct H as (before & fv & after & Heq & Hfv & _).
    apply (Hnone fv b); [|exact Hfv].
    rewrite Heq. apply elem_of_app. right. left.
  - split; [|reflexivity]. intros _ fv b Hin Hfeas.
    apply ride_of_feasible in Hfeas. rewrite (H fv Hin) in Hfeas. discriminate.
Qed.

(** The candidates are the vehicles of an acceptable line, file by file
    in input order. *)
Lemma elem_of_candidates (routes_files : list RoutesFile)
    (target_lines : list string) (fv : string * Vehicle) :
  fv ∈ candidates routes_files target_lines <->
  exists f, f ∈ routes_files /\ fst fv = file_path f /\
    snd fv ∈ file_vehicles f /\ veh_line (snd fv) ∈ target_lines.
Proof.
  unfold candidates. rewrite list_elem_of_In, in_flat_map. split.
  - intros (f & Hf & Hin). apply list_elem_of_In in Hf.
    apply list_elem_of_In in Hin. apply list_elem_of_fmap in Hin.
    destruct Hin as (v & -> & Hv). apply list_elem_of_filter in Hv.
    destruct Hv as [Hline Hv]. exists f. simpl. auto.
  - intros (f & Hf & Hpath & Hv & Hline). exists f.
    split; [apply list_elem_of_In; exact Hf|].
    apply list_elem_of_In. apply list_elem_of_fmap. exists (snd fv).
    split; [destruct fv; simpl in *; congruence|].
    apply list_elem_of_filter. split; assumption.
Qed.

(** The feasibility step on a stop-to-stop ride leg with lines. *)
Lemma feas_step_ride (routes_files : list RoutesFile)
    (line_map : gmap string string) (strip_prefixes : list string)
    (idx : nat) (leg : Leg) (st : feas_state) (from_stop to_stop : string) :
  is_type "ride" leg = true ->
  _parse_ref (leg_from leg) = Some (busStop from_stop) ->
  _parse_ref (leg_to leg) = Some (busStop to_stop) ->
  _map_lines (leg_lines leg) line_map strip_prefixes <> [] ->
  feas_step routes_files line_map strip_prefixes idx leg st =
  Some
    (let lines := _map_lines (leg_lines leg) line_map strip_prefixes in
     match routes_files with
     | [] =>
         mkFeas (time_cursor st)
           (fs_ride_errors st ++ [ride_requires_routes idx lines]) (fs_rides st)
     | _ :: _ =>
         match _best_vehicle_arrival routes_files lines from_stop to_stop
                 (time_cursor st) with
         | None =>
             mkFeas (time_cursor st)
               (fs_ride_errors st
                ++ [no_feasible_vehicle idx lines from_stop to_stop (time_cursor st)])
               (fs_rides st)
         | Some best =>
             mkFeas (arrivalTime best) (fs_ride_errors st)
               (fs_rides st ++ [mkRide idx (time_cursor st) best])
         end
     end).
Proof.
  intros Hride Hfrom Hto Hlines. unfold feas_step.
  assert (Hwalk : is_type "walk" leg = false).
  { unfold is_type in *. apply bool_decide_eq_true in Hride.
    apply bool_decide_eq_false. rewrite Hride. discriminate. }
  rewrite Hwalk, Hride, Hfrom, Hto. cbn [negb].
  destruct (_map_lines (leg_lines leg) line_map strip_prefixes) as [|l ls];
    [contradiction|].
  destruct routes_files as [|f fs]; [reflexivity|].
  destruct (_best_vehicle_arrival _ _ _ _ _); reflexivity.
Qed.

(** C2 (as the code has it) -- earliest-arrival search.  For a ride leg
    with stop anchors at both ends and a non-empty mapped line set, the
    feasibility step always completes; a vehicle is weighed as a
    candidate exactly when the first timed entry of the "from" stop in
    its stop-time list has a time at or after the cursor and the "to"
    stop has a timed entry at a later position (its arrival time is the
    first such entry's); and among the vehicles of an acceptable line over
    all routes files, in input order, the step records the ride of the
    first feasible one of least arrival time, or an error when none is
    feasible. *)
Theorem earliest_arrival_search (routes_files : list RoutesFile)
    (line_map : gmap string string) (strip_prefixes : list string)
    (idx : nat) (leg : Leg) (st : feas_state) (from_stop to_stop : string) :
  is_type "ride" leg = true ->
  _parse_ref (leg_from leg) = Some (busStop from_stop) ->
  _parse_ref (leg_to leg) = Some (busStop to_stop) ->
  _map_lines (leg_lines leg) line_map strip_prefixes <> [] ->
  let lines := _map_lines (leg_lines leg) line_map strip_prefixes in
  (forall fv b,
     consider from_stop to_stop (time_cursor st) None fv = Some b <->
     feasible_ride from_stop to_stop (time_cursor st) fv b) /\
  (forall fv,
     fv ∈ candidates routes_files lines <->
     exists f, f ∈ routes_files /\ fst fv = file_path f /\
       snd fv ∈ file_vehicles f /\ veh_line (snd fv) ∈ lines) /\
  exists st',
    feas_step routes_files line_map strip_prefixes idx leg st = Some st' /\
    ride_outcome routes_files lines from_stop to_stop idx st st'.
Proof.
  intros Hride Hfrom Hto Hlines lines.
  split; [|split].
  - intros fv b. rewrite consider_ride_of.
    rewrite <- ride_of_feasible.
    destruct (ride_of from_stop to_stop (time_cursor st) fv); reflexivity.
  - intros fv. apply elem_of_candidates.
  - rewrite (feas_step_ride _ _ _ _ _ _ _ _ Hride Hfrom Hto Hlines).
    cbv zeta. fold lines. unfold ride_outcome.
    destruct routes_files as [|f fs].
    + eexists. split; [reflexivity|]. left. split; [|reflexivity].
      intros fv b Hin. apply elem_of_nil in Hin. destruct Hin.
    + destruct (_best_vehicle_arrival (f :: fs) lines from_stop to_stop
                  (time_cursor st)) as [b|] eqn:Hbest.
      * eexists. split; [reflexivity|]. right. exists b. split; [|reflexivity].
        apply best_vehicle_arrival_Some. exact Hbest.
      * eexists. split; [reflexivity|]. left. split; [|reflexivity].
        apply best_vehicle_arrival_None. exact Hbest.
Qed.

(** The two-vehicle scenario as an instance of C2: the vehicle arriving
    at 80 is selected over the one arriving at 100. *)
Lemma earliest_arrival_search_witness :
  feas_step ex_two_vehicles ∅ ex_strip_prefixes 1 ex_ride_leg (mkFeas 0 [] []) =
    Some (mkFeas 80 []
            [mkRide 1 0 (mkBest "pt.rou.xml" "fast" "L1" 0 "A" "B" 20 80)]) /\
  exists st',
    feas_step ex_two_vehicles ∅ ex_strip_prefixes 1 ex_ride_leg (mkFeas 0 [] []) =
      Some st' /\
    ride_outcome ex_two_vehicles ["L1"] "A" "B" 1 (mkFeas 0 [] []) st'.
Proof.
  split; [vm_compute; reflexivity|].
  assert (Hlines : _map_lines (leg_lines ex_ride_leg) ∅ ex_strip_prefixes <> [])
    by (vm_compute; discriminate).
  exact (proj2 (proj2 (earliest_arrival_search ex_two_vehicles ∅ ex_strip_prefixes
                         1 ex_ride_leg (mkFeas 0 [] []) "A" "B"
                         eq_refl eq_refl eq_refl Hlines))).
Defined.

(** C2 as stated fails on a vehicle that passes the "from" stop twice.
    The loop vehicle has stop A at time 300, at or after the cursor 200,
    and stop B at a later position, so it is feasible as the claim
    defines it; the search, which only looks at the first entry of A (at
    time 100), finds no vehicle and the step records an error. *)
Lemma earliest_arrival_counterexample :
  let files := [mkRoutesFile "pt.rou.xml" [ex_loop_vehicle]] in
  ("pt.rou.xml", ex_loop_vehicle) ∈ candidates files ["L1"] /\
  claimed_feasible "A" "B" 200 (veh_stops ex_loop_vehicle) 400 /\
  _best_vehicle_arrival files ["L1"] "A" "B" 200 = None /\
  feas_step files ∅ ex_strip_prefixes 1 ex_ride_leg (mkFeas 200 [] []) =
    Some (mkFeas 200 [no_feasible_vehicle 1 ["L1"] "A" "B" 200] []).
Proof.
  intros files. split; [|split; [|split]].
  - vm_compute. left.
  - exists 1%nat, 2%nat, 300. repeat split; try reflexivity; lia.
  - vm_compute. reflexivity.
  - vm_compute. reflexivity.
Qed.

End EarliestArrival.

(** ** Chain validator: the report *)
Section ValidationReport.
Import Validator.

Variable known_stops : option (gset string).
Variable routes_files : list RoutesFile.
Variable line_map : gmap string string.
Variable strip_prefixes : list string.

Abbreviation cstep := (conn_step line_map strip_prefixes).
Abbreviation cloop := (conn_loop line_map strip_prefixes).
Abbreviation fstep := (feas_step routes_files line_map strip_prefixes).
Abbreviation floop := (feas_loop routes_files line_map strip_prefixes).

Lemma conn_step_total (idx : nat) (leg : Leg) (st : conn_state) :
  anchors_ok leg -> is_Some (cstep idx leg st).
Proof.
  intros Hok. unfold conn_step.
  destruct (is_type "walk" leg || is_type "ride" leg) eqn:Ht; simpl; [|eauto].
  destruct (Hok Ht) as [[f Hf] [t Hto]]. rewrite Hf, Hto. eauto.
Qed.

Lemma conn_loop_total (legs : list Leg) :
  Forall anchors_ok legs -> forall idx st, is_Some (cloop idx legs st).
Proof.
  induction 1 as [|leg legs Hleg _ IH]; intros idx st; simpl; [eauto|].
  destruct (conn_step_total idx leg st Hleg) as [st' Hst]. rewrite Hst. apply IH.
Qed.

Lemma feas_step_total (idx : nat) (leg : Leg) (st : feas_state) :
  anchors_ok leg -> is_Some (fstep idx leg st).
Proof.
  intros Hok. unfold feas_step.
  destruct (is_type "walk" leg) eqn:Hw; [eauto|].
  destruct (is_type "ride" leg) eqn:Hr; simpl; [|eauto].
  destruct Hok as [[f Hf] [t Hto]]; [rewrite Hw, Hr; reflexivity|].
  rewrite Hf, Hto.
  destruct f as [e|s]; destruct t as [e'|s']; eauto.
  destruct (_map_lines _ _ _); [eauto|].
  destruct routes_files; [eauto|].
  destruct (_best_vehicle_arrival _ _ _ _ _); eauto.
Qed.

Lemma feas_loop_total (legs : list Leg) :
  Forall anchors_ok legs -> forall idx st, is_Some (floop idx legs st).
Proof.
  induction 1 as [|leg legs Hleg _ IH]; intros idx st; simpl; [eauto|].
  destruct (feas_step_total idx leg st Hleg) as [st' Hst]. rewrite Hst. apply IH.
Qed.

(** The second loop goes through the legs one after the other. *)
Lemma feas_loop_app (l1 l2 : list Leg) :
  forall idx st,
    floop idx (l1 ++ l2) st =
    match floop idx l1 st with
    | Some st' => floop (idx + length l1) l2 st'
    | None => None
    end.
Proof.
  induction l1 as [|leg l1 IH]; intros idx st; simpl.
  - rewrite Nat.add_0_r. reflexivity.
  - destruct (fstep idx leg st) as [st'|]; [|reflexivity].
    rewrite IH. replace (S idx + length l1)%nat with (idx + S (length l1))%nat by lia.
    reflexivity.
Qed.

(** A recorded ride error stays in the list. *)
Lemma feas_step_errors (idx : nat) (leg : Leg) (st st' : feas_state) (e : ride_error) :
  fstep idx leg st = Some st' -> e ∈ fs_ride_errors st -> e ∈ fs_ride_errors st'.
Proof.
  unfold feas_step. intros Hstep Hin.
  destruct (is_type "walk" leg); [injection Hstep as <-; exact Hin|].
  destruct (negb (is_type "ride" leg)); [injection Hstep as <-; exact Hin|].
  destruct (_parse_ref (leg_from leg)) as [[?|?]|];
    destruct (_parse_ref (leg_to leg)) as [[?|?]|]; try discriminate;
    try (injection Hstep as <-; simpl; apply elem_of_app; left; exact Hin).
  destruct (_map_lines _ _ _);
    [injection Hstep as <-; simpl; apply elem_of_app; left; exact Hin|].
  destruct routes_files;
    [injection Hstep as <-; simpl; apply elem_of_app; left; exact Hin|].
  destruct (_best_vehicle_arrival _ _ _ _ _); injection Hstep as <-; simpl;
    [exact Hin | apply elem_of_app; left; exact Hin].
Qed.

Lemma feas_loop_errors (legs : list Leg) (e : ride_error) :
  forall idx st st',
    floop idx legs st = Some st' -> e ∈ fs_ride_errors st -> e ∈ fs_ride_errors st'.
Proof.
  induction legs as [|leg legs IH]; intros idx st st'; simpl.
  - intros [= <-] Hin. exact Hin.
  - destruct (fstep idx leg st) as [st1|] eqn:Hstep; [|discriminate].
    intros Hloop Hin. eapply IH; [exact Hloop|].
    eapply feas_step_errors; eassumption.
Qed.

(** C6 (as the code has it) -- failure semantics and report
    completeness.  For every plan with a person id, at least one leg and
    anchors that parse, the validator returns a full report; the report
    is ok exactly when its three error lists are empty; its
    [endTimeEstimate] is the final value of the time cursor; and when a
    stop-to-stop ride leg with a non-empty line set has no feasible
    vehicle in the routes files, the error naming the lines, the stops
    and the cursor is recorded, the cursor is left unchanged, the legs
    after it are evaluated from that state, and the plan is not ok. *)
Theorem validation_report (plan : Plan) (legs : list Leg) :
  plan_personId plan <> "" ->
  plan_legs plan = Some legs ->
  legs <> [] ->
  Forall anchors_ok legs ->
  exists r fs,
    _validate_one_plan known_stops routes_files line_map strip_prefixes plan =
      Some (validated r) /\
    floop 0 legs (mkFeas (plan_depart plan) [] []) = Some fs /\
    endTimeEstimate r = time_cursor fs /\
    rideErrors r = fs_ride_errors fs /\
    (ok r = true <-> errors r = [] /\ stopErrors r = [] /\ rideErrors r = []) /\
    forall before leg after st from_stop to_stop,
      legs = before ++ leg :: after ->
      floop 0 before (mkFeas (plan_depart plan) [] []) = Some st ->
      is_type "ride" leg = true ->
      _parse_ref (leg_from leg) = Some (busStop from_stop) ->
      _parse_ref (leg_to leg) = Some (busStop to_stop) ->
      let lines := _map_lines (leg_lines leg) line_map strip_prefixes in
      lines <> [] ->
      routes_files <> [] ->
      (forall fv b, fv ∈ candidates routes_files lines ->
         ~ feasible_ride from_stop to_stop (time_cursor st) fv b) ->
      let err := no_feasible_vehicle (length before) lines from_stop to_stop
                   (time_cursor st) in
      let st' := mkFeas (time_cursor st) (fs_ride_errors st ++ [err]) (fs_rides st) in
      fstep (length before) leg st = Some st' /\
      floop (S (length before)) after st' = Some fs /\
      err ∈ rideErrors r /\ ok r = false.
Proof.
  intros Hpid Hlegs Hne Hanchors.
  destruct (conn_loop_total legs Hanchors 0 (mkConn [] None ∅ ∅)) as [cs Hcs].
  destruct (feas_loop_total legs Hanchors 0 (mkFeas (plan_depart plan) [] []))
    as [fs Hfs].
  eexists _, fs. split.
  { unfold _validate_one_plan. rewrite Hlegs.
    destruct legs as [|leg0 legs0]; [contradiction|].
    apply String.eqb_neq in Hpid. rewrite Hpid. rewrite Hcs, Hfs. reflexivity. }
  split; [exact Hfs|]. split; [reflexivity|]. split; [reflexivity|].
  cbn [ok errors stopErrors rideErrors]. split.
  { rewrite !andb_true_iff, !bool_decide_eq_true. tauto. }
  intros before leg after st from_stop to_stop Hsplit Hbefore Hride Hfrom Hto
    Hlines Hfiles Hnone.
  set (lines := _map_lines (leg_lines leg) line_map strip_prefixes) in *.
  set (err := no_feasible_vehicle (length before) lines from_stop to_stop
                (time_cursor st)).
  set (st' := mkFeas (time_cursor st) (fs_ride_errors st ++ [err]) (fs_rides st)).
  assert (Hstep : fstep (length before) leg st = Some st').
  { rewrite (feas_step_ride _ _ _ _ _ _ _ _ Hride Hfrom Hto Hlines).
    cbv zeta. fold lines. apply best_vehicle_arrival_None in Hnone.
    rewrite Hnone. destruct routes_files; [contradiction | reflexivity]. }
  assert (Hafter : floop (S (length before)) after st' = Some fs).
  { rewrite Hsplit in Hfs. rewrite feas_loop_app in Hfs. rewrite Hbefore in Hfs.
    cbn [feas_loop] in Hfs. cbn [Nat.add] in Hfs. rewrite Hstep in Hfs. exact Hfs. }
  split; [exact Hstep|]. split; [exact Hafter|].
  assert (Hin : err ∈ fs_ride_errors fs).
  { eapply feas_loop_errors; [exact Hafter|].
    subst st'. cbn [fs_ride_errors]. apply elem_of_app. right. left. }
  split; [exact Hin|].
  apply andb_false_iff. right. apply bool_decide_eq_false.
  intros Hempty. rewrite Hempty in Hin. apply elem_of_nil in Hin. exact Hin.
Qed.

End ValidationReport.

(** Scenario B as an instance of C6: the plan is ok, the ride boards at
    500 and arrives at 620, and the estimate is 620 plus the egress walk. *)
Lemma validation_report_witness :
  Validator._validate_one_plan (Some {["X"; "Y"]}) Validator.ex_routes_B ∅
    Validator.ex_strip_prefixes Validator.ex_plan_B =
    Some (Validator.validated
            (Validator.mkReport "p0" 400 true [] [] []
               [Validator.mkRide 1 450
                  (Validator.mkBest "pt.rou.xml" "bus_1" "L1" 480 "X" "Y" 500 620)]
               690 ["L1"])) /\
  exists r fs,
    Validator._validate_one_plan (Some {["X"; "Y"]}) Validator.ex_routes_B ∅
      Validator.ex_strip_prefixes Validator.ex_plan_B =
      Some (Validator.validated r) /\
    Validator.feas_loop Validator.ex_routes_B ∅ Validator.ex_strip_prefixes 0
      (default [] (Validator.plan_legs Validator.ex_plan_B))
      (Validator.mkFeas 400 [] []) = Some fs /\
    Validator.endTimeEstimate r = Validator.time_cursor fs.
Proof.
  split; [vm_compute; reflexivity|].
  assert (Hanchors : Forall Validator.anchors_ok
                       (default [] (Validator.plan_legs Validator.ex_plan_B))).
  { cbn. repeat (constructor; [intros _; split; vm_compute; eauto|]). constructor. }
  destruct (validation_report (Some {["X"; "Y"]}) Validator.ex_routes_B ∅
              Validator.ex_strip_prefixes Validator.ex_plan_B _
              ltac:(discriminate) eq_refl ltac:(discriminate) Hanchors)
    as (r & fs & Hrep & Hfs & Hend & _).
  exists r, fs. split; [exact Hrep|]. split; [exact Hfs | exact Hend].
Defined.

(** C6 as stated fails on a plan without legs: the validator returns
    the short report of the shape check, which is not ok and has no
    [endTimeEstimate]. *)
Lemma validation_report_counterexample :
  Validator._validate_one_plan None Validator.ex_routes_B ∅
    Validator.ex_strip_prefixes Validator.ex_plan_no_legs =
    Some (Validator.invalid_plan_shape (Some "p1") 400) /\
  Validator.report_endTimeEstimate
    (Validator.invalid_plan_shape (Some "p1") 400) = None.
Proof. split; reflexivity. Qed.


(** ** Lane matcher: the emitted position range *)
Section StopRange.
Import LaneMatcher.

Ltac compared :=
  repeat match goal with
         | H : (_ ?= _)%Q = Eq |- _ => apply Qeq_alt in H
         | H : (_ ?= _)%Q = Lt |- _ => apply Qlt_alt in H
         | H : (_ ?= _)%Q = Gt |- _ => apply Qgt_alt in H
         end.

Lemma round_half_even_bounds (q : Q) :
  Qfloor q <= round_half_even q <= Qfloor q + 1.
Proof.
  unfold round_half_even. destruct (q - inject_Z (Qfloor q) ?= 1 # 2)%Q; [|lia|lia].
  destruct (Z.even (Qfloor q)); lia.
Qed.

Lemma round_half_even_monotone (x y : Q) :
  (x <= y)%Q -> round_half_even x <= round_half_even y.
Proof.
  intros Hxy. pose proof (Qfloor_resp_le _ _ Hxy) as Hf.
  pose proof (round_half_even_bounds x) as Hx.
  pose proof (round_half_even_bounds y) as Hy.
  destruct (Z.eq_dec (Qfloor x) (Qfloor y)) as [He|Hne]; [|lia].
  unfold round_half_even. rewrite He.
  assert (Hr : (x - inject_Z (Qfloor y) <= y - inject_Z (Qfloor y))%Q) by lra.
  destruct (x - inject_Z (Qfloor y) ?= 1 # 2)%Q eqn:Hcx;
    destruct (y - inject_Z (Qfloor y) ?= 1 # 2)%Q eqn:Hcy;
    try (destruct (Z.even (Qfloor y))); try lia.
  all: compared; exfalso; lra.
Qed.

(** The nearest integer is at most half a unit away. *)
Lemma round_half_even_close (q : Q) :
  (q - (1 # 2) <= inject_Z (round_half_even q) <= q + (1 # 2))%Q.
Proof.
  pose proof (Qfloor_le q) as Hlo. pose proof (Qlt_floor q) as Hhi.
  rewrite inject_Z_plus in Hhi. change (inject_Z 1) with 1%Q in Hhi.
  unfold round_half_even.
  destruct (q - inject_Z (Qfloor q) ?= 1 # 2)%Q eqn:Hc; compared.
  - destruct (Z.even (Qfloor q)); rewrite ?inject_Z_plus;
      change (inject_Z 1) with 1%Q; lra.
  - lra.
  - rewrite inject_Z_plus. change (inject_Z 1) with 1%Q. lra.
Qed.

Lemma fmt2_monotone (x y : Q) : (x <= y)%Q -> (fmt2 x <= fmt2 y)%Q.
Proof.
  intros Hxy. unfold fmt2.
  assert (H : round_half_even (x * 100) <= round_half_even (y * 100)).
  { apply round_half_even_monotone. lra. }
  rewrite Zle_Qle in H. unfold Qdiv.
  apply Qmult_le_compat_r; [exact H|]. vm_compute. discriminate.
Qed.

(** The written number is within 0.005 of the value. *)
Lemma fmt2_close (x : Q) : (x - (1 # 200) <= fmt2 x <= x + (1 # 200))%Q.
Proof.
  unfold fmt2. pose proof (round_half_even_close (x * 100)) as [Hlo Hhi].
  set (z := inject_Z (round_half_even (x * 100))) in *.
  split.
  - apply Qle_shift_div_l; [reflexivity|]. lra.
  - apply Qle_shift_div_r; [reflexivity|]. lra.
Qed.

Lemma fmt2_zero : (fmt2 0 == 0)%Q.
Proof. reflexivity. Qed.

(** What is assumed of the rounding of doubles: it keeps the order, and
    zero is a double.  Both hold of the rounding to the nearest double,
    as long as no sum overflows. *)
Variable rnd : Q -> Q.
Hypothesis rnd_monotone : forall x y, (x <= y)%Q -> (rnd x <= rnd y)%Q.
Hypothesis rnd_zero : (rnd 0 == 0)%Q.


End StopRange.



(** ** Lane matcher: the fall-back order *)
Section MatcherFallback.
Import LaneMatcher.

Variable getNeighboringLanes : Z -> list (Lane * Q).
Variable require_vclasses : list string.
Variable preferred_heading : option Q.
Variable max_heading_diff_deg : Q.

Abbreviation pick :=
  (pick_lane require_vclasses preferred_heading max_heading_diff_deg).
Abbreviation retry :=
  (relaxed_retry getNeighboringLanes require_vclasses preferred_heading
     max_heading_diff_deg).

Lemma radius_steps_nonempty (max_radius : Z) : radius_steps max_radius <> [].
Proof.
  unfold radius_steps. destruct (0 <? max_radius); [|discriminate].
  destruct (filter _ _); discriminate.
Qed.

(** When the relaxed retry picks nothing, it leaves behind the lanes of
    the last radius it queried. *)
Lemma relaxed_retry_none (steps : list Z) :
  forall lanes,
    (forall r, r ∈ steps -> pick (getNeighboringLanes r) false = None) ->
    retry steps lanes =
    (match last steps with
     | Some r => getNeighboringLanes r
     | None => lanes
     end, None).
Proof.
  induction steps as [|r steps IH]; intros lanes Hnone; simpl; [reflexivity|].
  rewrite (Hnone r) by left.
  rewrite IH by (intros r' Hr'; apply Hnone; right; exact Hr').
  destruct steps as [|r' steps']; [reflexivity|].
  change (last (r :: r' :: steps')) with (last (r' :: steps')).
  destruct (last (r' :: steps')) eqn:Hl; [reflexivity|].
  apply last_None in Hl. discriminate.
Qed.

(** What the matcher does when both heading-constrained searches fail:
    the final, heading-free retry ranks the lanes of the narrowest radius
    of the ladder only, the radius the relaxed retry queried last. *)
Lemma final_retry_narrowest (max_radius : Z) (r0 : Z) (rest : list Z) :
  radius_steps max_radius = r0 :: rest ->
  first_lanes getNeighboringLanes (r0 :: rest) [] <> [] ->
  pick (first_lanes getNeighboringLanes (r0 :: rest) []) true = None ->
  (forall r, r ∈ r0 :: rest -> pick (getNeighboringLanes r) false = None) ->
  find_nearest_edge getNeighboringLanes require_vclasses preferred_heading
    max_heading_diff_deg max_radius =
  match pick_lane_ignore_heading require_vclasses (getNeighboringLanes r0) false with
  | Some (lane, distance) =>
      Some (edge_id lane, lane_id lane, lane_pos lane, distance)
  | None => None
  end.
Proof.
  intros Hsteps Hlanes Hstrict Hrelaxed. unfold find_nearest_edge.
  rewrite Hsteps.
  destruct (first_lanes getNeighboringLanes (r0 :: rest) []) as [|c lanes] eqn:Hfirst;
    [contradiction|].
  rewrite Hstrict.
  rewrite relaxed_retry_none.
  - rewrite last_reverse. cbn [head]. reflexivity.
  - intros r Hr. apply Hrelaxed. apply elem_of_reverse. exact Hr.
Qed.

End MatcherFallback.

(** C5 -- fall-back order, on a stop the code leaves unmatched.  The
    street of [LaneMatcher.ex_lane] is the only lane within reach; the
    ladder queries radius 100 (nothing) and radius 500 (the street); the
    street allows buses but runs against the preferred heading, so both
    heading-constrained searches fail; the heading-free retry over the
    lanes of the queried radius 500 would pick the street; yet
    [find_nearest_edge] reports the stop unmatched, because its final
    retry only sees the empty result of radius 100. *)
Theorem fallback_misses_queried_lane :
  let lanes := LaneMatcher.first_lanes LaneMatcher.ex_neighbors
                 (LaneMatcher.radius_steps 4000) [] in
  lanes = LaneMatcher.ex_neighbors 500 /\
  lanes = [(LaneMatcher.ex_lane, 300%Q)] /\
  LaneMatcher.pick_lane ["bus"] (Some 0%Q) 90 lanes true = None /\
  (forall r, r ∈ LaneMatcher.radius_steps 4000 ->
     LaneMatcher.pick_lane ["bus"] (Some 0%Q) 90 (LaneMatcher.ex_neighbors r) false
     = None) /\
  LaneMatcher.pick_lane_ignore_heading ["bus"] lanes false
    = Some (LaneMatcher.ex_lane, 300%Q) /\
  LaneMatcher.find_nearest_edge LaneMatcher.ex_neighbors ["bus"] (Some 0%Q) 90 4000
    = None.
Proof.
  cbv zeta. repeat split; try (vm_compute; reflexivity).
  intros r Hr. vm_compute in Hr.
  repeat (apply elem_of_cons in Hr; destruct Hr as [->|Hr];
          [vm_compute; reflexivity|]).
  apply elem_of_nil in Hr. destruct Hr.
Qed.

(** ** Timetable conversion: service-group selection *)
Section ServiceSelection.
Import Timetable.

Lemma max_from_first_greatest (f : string -> nat) (rest : list string) :
  forall before best mid,
    (forall k', k' ∈ before -> (f k' < f best)%nat) ->
    (forall k', k' ∈ mid -> (f k' <= f best)%nat) ->
    first_greatest f (before ++ best :: mid ++ rest) (max_from f best rest).
Proof.
  induction rest as [|k rest IH]; intros before best mid Hb Hm; simpl.
  - exists before, mid. rewrite app_nil_r. auto.
  - destruct (Nat.ltb_spec (f best) (f k)) as [Hlt|Hge].
    + replace (before ++ best :: mid ++ k :: rest)
        with ((before ++ best :: mid) ++ k :: [] ++ rest)
        by (rewrite <- app_assoc; reflexivity).
      apply IH.
      * intros k' Hin. apply elem_of_app in Hin. destruct Hin as [Hin|Hin].
        -- specialize (Hb _ Hin). lia.
        -- apply elem_of_cons in Hin. destruct Hin as [->|Hin]; [exact Hlt|].
           specialize (Hm _ Hin). lia.
      * intros k' Hin. apply elem_of_nil in Hin. destruct Hin.
    + replace (before ++ best :: mid ++ k :: rest)
        with (before ++ best :: (mid ++ [k]) ++ rest)
        by (rewrite <- (app_assoc mid); reflexivity).
      apply IH; [exact Hb|].
      intros k' Hin. apply elem_of_app in Hin. destruct Hin as [Hin|Hin].
      * apply Hm. exact Hin.
      * apply list_elem_of_singleton in Hin. subst k'. exact Hge.
Qed.

Lemma find_first {A : Type} (p : A -> bool) (before after : list A) (x : A) :
  (forall y, y ∈ before -> p y = false) -> p x = true ->
  List.find p (before ++ x :: after) = Some x.
Proof.
  induction before as [|y before IH]; intros Hb Hx; simpl.
  - rewrite Hx. reflexivity.
  - rewrite (Hb y) by left. apply IH; [|exact Hx].
    intros y' Hy'. apply Hb. right. exact Hy'.
Qed.

Lemma find_none {A : Type} (p : A -> bool) (l : list A) :
  (forall y, y ∈ l -> p y = false) -> List.find p l = None.
Proof.
  induction l as [|y l IH]; intros Hl; simpl; [reflexivity|].
  rewrite (Hl y) by left. apply IH. intros y' Hy'. apply Hl. right. exact Hy'.
Qed.

Lemma dict_get_key {V : Type} (k : string) (d : list (string * V)) :
  k ∈ dict_keys d -> exists v, dict_get k d = Some v.
Proof.
  intros Hin. destruct (dict_get k d) as [v|] eqn:Hg; [eauto|].
  apply dict_get_None in Hg. contradiction.
Qed.

Lemma first_greatest_elem (f : string -> nat) (keys : list string) (k : string) :
  first_greatest f keys k -> k ∈ keys.
Proof.
  intros (before & after & -> & _). apply elem_of_app. right. left.
Qed.

Lemma group_of_key (k : string) (services_info : list (string * ServiceGroup)) :
  k ∈ dict_keys services_info ->
  exists g, dict_get k services_info = Some g /\
            group_of k services_info = [(k, g)].
Proof.
  intros Hin. destruct (dict_get_key k services_info Hin) as [g Hg].
  exists g. split; [exact Hg|]. unfold group_of. rewrite Hg. reflexivity.
Qed.

(** The selection for a line that has a first group [(k0, g0)]. *)
Lemma select_nonempty (services_info : list (string * ServiceGroup))
    (k0 : string) (g0 : ServiceGroup) (rest : list (string * ServiceGroup))
    (service_key service_date : option string) (service_policy : string) :
  services_info = (k0, g0) :: rest ->
  _select_single_service_group services_info service_key service_date
    service_policy =
  match supplied service_key with
  | Some key =>
      if bool_decide (key ∈ dict_keys services_info)
      then inr (Some key, group_of key services_info)
      else inl (unknown_service_key key)
  | None =>
      match
        match supplied service_date with
        | Some date =>
            List.find
              (fun k => negb (String.eqb (_normalize_service_date date) "")
                        && contains (_normalize_service_date date) k)
              (dict_keys services_info)
        | None => None
        end
      with
      | Some k => inr (Some k, group_of k services_info)
      | None =>
          if String.eqb service_policy "all" then inr (None, services_info)
          else if String.eqb service_policy "first" then
            inr (Some k0, group_of k0 services_info)
          else if String.eqb service_policy "largest" then
            inr (Some (max_from _count_service_dates k0 (dict_keys rest)),
                 group_of (max_from _count_service_dates k0 (dict_keys rest))
                   services_info)
          else if String.eqb service_policy "most_trips" then
            inr (Some (max_from (trip_count services_info) k0 (dict_keys rest)),
                 group_of (max_from (trip_count services_info) k0 (dict_keys rest))
                   services_info)
          else inl (unknown_service_policy service_policy)
      end
  end.
Proof.
  intros ->. unfold _select_single_service_group.
  change (dict_keys ((k0, g0) :: rest)) with (k0 :: dict_keys rest).
  destruct (supplied service_key); [reflexivity|].
  destruct (supplied service_date) as [d|]; [|reflexivity].
  destruct (List.find _ (k0 :: dict_keys rest)); reflexivity.
Qed.

(** C9 (as the code has it) -- service-group selection.  For a line
    with at least one service group: a supplied key selects exactly its
    group when the key is present and raises the unknown-key error when
    it is not; without a key, a supplied date whose normal form is not
    empty selects the first group whose key contains it; when neither
    decides, policy [all] selects every group, [first] the first group,
    [largest] the first of the groups with the most calendar dates in
    the key, [most_trips] the first of the groups with the most trips,
    and any other policy raises the unknown-policy error. *)
Theorem service_group_selection (services_info : list (string * ServiceGroup))
    (service_key service_date : option string) (service_policy : string) :
  services_info <> [] ->
  let keys := dict_keys services_info in
  let result :=
    _select_single_service_group services_info service_key service_date
      service_policy in
  (forall k, supplied service_key = Some k ->
     (k ∈ keys ->
      exists g, dict_get k services_info = Some g /\
                result = inr (Some k, [(k, g)])) /\
     (k ∉ keys -> result = inl (unknown_service_key k))) /\
  (supplied service_key = None ->
   forall d k, supplied service_date = Some d ->
     _normalize_service_date d <> "" ->
     first_containing (_normalize_service_date d) keys k ->
     exists g, dict_get k services_info = Some g /\
               result = inr (Some k, [(k, g)])) /\
  (supplied service_key = None ->
   (forall d, supplied service_date = Some d ->
      _normalize_service_date d = "" \/
      forall k, k ∈ keys -> contains (_normalize_service_date d) k = false) ->
   (service_policy = "all" -> result = inr (None, services_info)) /\
   (service_policy = "first" ->
      exists k g rest, services_info = (k, g) :: rest /\
                       result = inr (Some k, [(k, g)])) /\
   (service_policy = "largest" ->
      exists k g, first_greatest _count_service_dates keys k /\
                  dict_get k services_info = Some g /\
                  result = inr (Some k, [(k, g)])) /\
   (service_policy = "most_trips" ->
      exists k g, first_greatest (trip_count services_info) keys k /\
                  dict_get k services_info = Some g /\
                  result = inr (Some k, [(k, g)])) /\
   (service_policy ∉ ["all"; "first"; "largest"; "most_trips"] ->
      result = inl (unknown_service_policy service_policy))).
Proof.
  intros Hne.
  destruct services_info as [|[k0 g0] rest]; [contradiction|]. clear Hne.
  remember ((k0, g0) :: rest) as services_info eqn:Hs.
  intros keys result.
  assert (Hkeys : keys = k0 :: dict_keys rest) by (subst keys services_info; reflexivity).
  assert (Hres := select_nonempty services_info k0 g0 rest service_key service_date
                    service_policy Hs).
  fold result in Hres. fold keys in Hres.
  clearbody result keys. split; [|split].
  - intros k Hk. rewrite Hres, Hk. split.
    + intros Hin. rewrite bool_decide_eq_true_2 by exact Hin.
      destruct (group_of_key k services_info) as (g & Hg & Hgr).
      { rewrite Hs. rewrite Hkeys in Hin. exact Hin. }
      exists g. rewrite Hgr. auto.
    + intros Hnin. rewrite bool_decide_eq_false_2 by exact Hnin. reflexivity.
  - intros Hk d k Hd Hnorm (before & after & Heq & Hk' & Hbefore).
    rewrite Hres, Hk, Hd, Heq.
    rewrite (find_first _ before after k).
    + destruct (group_of_key k services_info) as (g & Hg & Hgr).
      { rewrite Hs. change (dict_keys ((k0, g0) :: rest)) with (k0 :: dict_keys rest).
        rewrite <- Hkeys, Heq. apply elem_of_app. right. left. }
      exists g. rewrite Hgr. auto.
    + intros y Hy. rewrite (Hbefore y Hy). apply andb_false_r.
    + rewrite Hk'. apply String.eqb_neq in Hnorm. rewrite Hnorm. reflexivity.
  - intros Hk Hdate. rewrite Hres, Hk.
    assert (Hfind :
      match supplied service_date with
      | Some date =>
          List.find
            (fun k => negb (String.eqb (_normalize_service_date date) "")
                      && contains (_normalize_service_date date) k) keys
      | None => None
      end = None).
    { destruct (supplied service_date) as [d|]; [|reflexivity].
      apply find_none. intros y Hy.
      destruct (Hdate d eq_refl) as [Hempty|Hnone].
      - rewrite Hempty. reflexivity.
      - rewrite (Hnone y Hy). apply andb_false_r. }
    rewrite Hfind.
    assert (Hpick : forall f, exists g,
              first_greatest f keys (max_from f k0 (dict_keys rest)) /\
              dict_get (max_from f k0 (dict_keys rest)) services_info = Some g /\
              group_of (max_from f k0 (dict_keys rest)) services_info =
                [(max_from f k0 (dict_keys rest), g)]).
    { intros f.
      pose proof (max_from_first_greatest f (dict_keys rest) [] k0 []) as Hmax.
      cbn [app] in Hmax. rewrite <- Hkeys in Hmax.
      specialize (Hmax ltac:(intros k' Hin; apply elem_of_nil in Hin; destruct Hin)
                       ltac:(intros k' Hin; apply elem_of_nil in Hin; destruct Hin)).
      destruct (group_of_key (max_from f k0 (dict_keys rest)) services_info)
        as (g & Hg & Hgr).
      { rewrite Hs. change (dict_keys ((k0, g0) :: rest)) with (k0 :: dict_keys rest).
        rewrite <- Hkeys. eapply first_greatest_elem. exact Hmax. }
      exists g. auto. }
    split; [intros ->; reflexivity|].
    split.
    { intros ->. cbn [String.eqb Ascii.eqb Bool.eqb andb].
      exists k0, g0, rest. split; [exact Hs|].
      unfold group_of. rewrite Hs. cbn [dict_get]. rewrite String.eqb_refl.
      reflexivity. }
    split.
    { intros ->. cbn [String.eqb Ascii.eqb Bool.eqb andb].
      destruct (Hpick _count_service_dates) as (g & Hmax & Hg & Hgr).
      eexists _, g. split; [exact Hmax|]. split; [exact Hg|]. rewrite Hgr. reflexivity. }
    split.
    { intros ->. cbn [String.eqb Ascii.eqb Bool.eqb andb].
      destruct (Hpick (trip_count services_info)) as (g & Hmax & Hg & Hgr).
      eexists _, g. split; [exact Hmax|]. split; [exact Hg|]. rewrite Hgr. reflexivity. }
    intros Hpol.
    destruct (String.eqb_spec service_policy "all") as [->|_];
      [exfalso; apply Hpol; left|].
    destruct (String.eqb_spec service_policy "first") as [->|_];
      [exfalso; apply Hpol; right; left|].
    destruct (String.eqb_spec service_policy "largest") as [->|_];
      [exfalso; apply Hpol; right; right; left|].
    destruct (String.eqb_spec service_policy "most_trips") as [->|_];
      [exfalso; apply Hpol; right; right; right; left|].
    reflexivity.
Qed.

(** The two-group line under policy [largest]: the weekday group, with
    three dates in its key, is selected. *)
Lemma service_group_selection_witness :
  _select_single_service_group ex_services None None "largest" =
    inr (Some "2024/01/01|2024/01/02|2024/01/03",
         [("2024/01/01|2024/01/02|2024/01/03", mkGroup ["t1"])]) /\
  exists k g,
    first_greatest _count_service_dates (dict_keys ex_services) k /\
    dict_get k ex_services = Some g /\
    _select_single_service_group ex_services None None "largest" =
      inr (Some k, [(k, g)]).
Proof.
  split; [vm_compute; reflexivity|].
  assert (Hne : ex_services <> []) by discriminate.
  destruct (service_group_selection ex_services None None "largest" Hne)
    as (_ & _ & H).
  destruct (H eq_refl (fun d (Hd : None = Some d) =>
                         match Hd with end)) as (_ & _ & Hl & _).
  exact (Hl eq_refl).
Defined.

(** C9 as stated fails on a line without service groups: a supplied key
    that is not present raises no error, and neither does a policy that
    is not recognized; nothing is selected. *)
Lemma service_group_selection_counterexample :
  _select_single_service_group [] (Some "2024/01/01") None "largest" =
    inr (None, []) /\
  _select_single_service_group [] None None "no_such_policy" = inr (None, []).
Proof. split; reflexivity. Qed.

End ServiceSelection.

(** ** Heading estimator: the emission threshold *)
Section HeadingEmission.
Import Headings.

Variable cos sin : float -> float.
Variable atan2 hypot : float -> float -> float.
Variable stop_xy : gmap string (float * float).
Variable stop_prefix : string.

Abbreviation disp := (displacement stop_xy stop_prefix).
Abbreviation acc_pair := (accumulate_pair cos sin atan2 stop_xy stop_prefix).
Abbreviation vectors := (vectors_at stop_xy stop_prefix).
Abbreviation sum_from := (unit_sum_from cos sin atan2).

Lemma pairs_short (seq : list string) :
  (length seq < 2)%nat -> pairs seq = [].
Proof.
  destruct seq as [|a [|b rest]]; simpl; intros H; [reflexivity | reflexivity | lia].
Qed.

Lemma vectors_cons (sid : string) (ab : string * string)
    (ps : list (string * string)) :
  vectors sid (ab :: ps) =
  match disp ab with
  | Some (a, v) => if String.eqb a sid then v :: vectors sid ps else vectors sid ps
  | None => vectors sid ps
  end.
Proof.
  unfold vectors_at. cbn [omap list_omap].
  destruct (disp ab) as [[a v]|]; [|reflexivity].
  destruct (String.eqb a sid); reflexivity.
Qed.

(** After the pairs [ps], the two dictionaries hold, at every stop, the
    sum of the unit vectors and the number of the pairs accumulated
    there. *)
Lemma fold_pairs_lookup (ps : list (string * string)) :
  forall accum counts sid,
    let st' := fold_left acc_pair ps (accum, counts) in
    fst st' !! sid =
      match vectors sid ps with
      | [] => accum !! sid
      | vs => Some (sum_from (default (0%float, 0%float) (accum !! sid)) vs)
      end /\
    snd st' !! sid =
      match vectors sid ps with
      | [] => counts !! sid
      | vs => Some (default 0%nat (counts !! sid) + length vs)%nat
      end.
Proof.
  induction ps as [|ab ps IH]; intros accum counts sid; [split; reflexivity|].
  cbv zeta. cbn [fold_left]. rewrite vectors_cons.
  unfold accumulate_pair at 2 4.
  destruct (disp ab) as [[a v]|]; [|apply IH].
  specialize (IH (<[a:=add_vector (default (0%float, 0%float) (accum !! a))
                         (unit_vector cos sin atan2 v)]> accum)
                 (<[a:=S (default 0%nat (counts !! a))]> counts) sid).
  cbv zeta in IH. destruct IH as [IHa IHc]. rewrite IHa, IHc.
  destruct (String.eqb_spec a sid) as [->|Hne].
  - rewrite !lookup_insert_eq. cbn [default from_option Datatypes.id].
    destruct (vectors sid ps) as [|v' vs']; split; try reflexivity.
    + cbn [length]. f_equal. lia.
    + cbn [length]. f_equal. lia.
  - rewrite !lookup_insert_ne by exact Hne. split; reflexivity.
Qed.

Lemma accumulate_all_pairs (patterns : list (list string)) :
  accumulate cos sin atan2 stop_xy stop_prefix patterns =
  fold_left acc_pair (all_pairs patterns) (∅, ∅).
Proof.
  unfold accumulate, all_pairs.
  generalize (∅ : gmap string (float * float), ∅ : gmap string nat).
  induction patterns as [|seq patterns IH]; intros st; [reflexivity|].
  cbn [fold_left flat_map]. rewrite fold_left_app, IH.
  destruct (Nat.ltb_spec (length seq) 2) as [Hlt|Hge]; [|reflexivity].
  rewrite (pairs_short seq Hlt). reflexivity.
Qed.

(** The heading of a stop, from the displacements accumulated at it. *)
Lemma headings_lookup (patterns : list (list string)) (sid : string) :
  _build_preferred_headings cos sin atan2 hypot stop_xy stop_prefix patterns !! sid =
  match vectors sid (all_pairs patterns) with
  | [] => None
  | vs =>
      if (mean_resultant_length cos sin atan2 hypot vs <? 0.25)%float then None
      else Some (atan2 (snd (unit_sum cos sin atan2 vs)) (fst (unit_sum cos sin atan2 vs)))
  end.
Proof.
  unfold _build_preferred_headings. rewrite accumulate_all_pairs.
  pose proof (fold_pairs_lookup (all_pairs patterns) ∅ ∅ sid) as H.
  cbv zeta in H.
  destruct (fold_left acc_pair (all_pairs patterns) (∅, ∅)) as [accum counts].
  cbn [fst snd] in H. destruct H as [Ha Hc].
  rewrite map_lookup_imap, Ha.
  destruct (vectors sid (all_pairs patterns)) as [|v vs].
  - rewrite lookup_empty. reflexivity.
  - rewrite lookup_empty in Hc. cbn [default from_option Datatypes.id] in *.
    cbn [mbind option_bind]. unfold emit. rewrite Hc.
    cbn [default from_option Datatypes.id Nat.add length Nat.leb].
    reflexivity.
Qed.

End HeadingEmission.

Section HeadingClaims.
Import Headings.

(** C8 (as the code has it) -- emission threshold.  For every stop, a
    preferred heading is emitted exactly when at least one consecutive
    stop pair (with a displacement that is not negligible) was
    accumulated at it and the mean resultant length of its accumulated
    unit vectors, as the code computes it on doubles, is not below 0.25
    (it may be equal to it); the emitted heading is the direction
    ([atan2]) of the summed unit vectors; a stop without pairs or below
    the threshold gets no heading.  This holds whatever values the
    functions of the [math] module return. *)
Theorem heading_emission (cos sin : float -> float)
    (atan2 hypot : float -> float -> float)
    (stop_xy : gmap string (float * float)) (stop_prefix : string)
    (patterns : list (list string)) (sid : string) (h : float) :
  let out :=
    _build_preferred_headings cos sin atan2 hypot stop_xy stop_prefix patterns in
  let vs := vectors_at stop_xy stop_prefix sid (all_pairs patterns) in
  let mag := mean_resultant_length cos sin atan2 hypot vs in
  (out !! sid = Some h <->
     (1 <= length vs)%nat /\ (mag <? 0.25)%float = false /\
     h = atan2 (snd (unit_sum cos sin atan2 vs)) (fst (unit_sum cos sin atan2 vs))) /\
  (out !! sid = None <-> vs = [] \/ (mag <? 0.25)%float = true).
Proof.
  intros out vs mag. subst out mag. rewrite headings_lookup. fold vs.
  destruct vs as [|v vs'] eqn:Hvs.
  - split.
    + split; [discriminate|]. intros [Hlen _]. simpl in Hlen. lia.
    + split; [intros _; left; reflexivity | reflexivity].
  - rewrite <- Hvs. cbv zeta.
    destruct (mean_resultant_length cos sin atan2 hypot vs <? 0.25)%float eqn:Hlt.
    + split.
      * split; [discriminate|]. intros (_ & Hle & _). discriminate.
      * split; [intros _; right; reflexivity | reflexivity].
    + split.
      * split.
        -- intros [= <-]. split; [rewrite Hvs; simpl; lia|]. split; reflexivity.
        -- intros (_ & _ & ->). reflexivity.
      * split; [discriminate|]. intros [Hnil|Hlt']; [congruence | discriminate].
Qed.

(** C8 as stated fails at the threshold.  At a stop served five times
    eastbound and three times westbound the unit vectors sum, on
    doubles, to [(2.0, 3.67e-16)], whose length is 2.0, so the mean
    resultant length is exactly 2.0 / 8.0 = 0.25: it does not exceed
    0.25, and the estimator still emits a heading. *)
Lemma heading_emission_counterexample :
  let vs := vectors_at ex_stop_xy "bus_stop_" "bus_stop_a" (all_pairs ex_patterns) in
  let mag := mean_resultant_length ex_cos ex_sin ex_atan2 ex_hypot vs in
  length vs = 8%nat /\
  mag = 0.25%float /\
  (0.25 <? mag)%float = false /\
  _build_preferred_headings ex_cos ex_sin ex_atan2 ex_hypot ex_stop_xy "bus_stop_"
    ex_patterns !! "bus_stop_a" = Some 0x1.a79394c9e8a0ap-53%float.
Proof. vm_compute. repeat split; reflexivity. Qed.

End HeadingClaims.

(** ** Python strings *)
Section StringProps.
Import Timetable PyString.

Lemma append_String (c : ascii) (s t : string) :
  String c s +:+ t = String c (s +:+ t).
Proof. reflexivity. Qed.

Lemma append_empty_r (s : string) : s +:+ "" = s.
Proof.
  induction s as [|c s IH]; [reflexivity|]. rewrite append_String, IH. reflexivity.
Qed.

Lemma append_assoc (a b c : string) : (a +:+ b) +:+ c = a +:+ (b +:+ c).
Proof.
  induction a as [|x a IH]; [reflexivity|]. rewrite !append_String, IH. reflexivity.
Qed.

Lemma append_length (a b : string) :
  String.length (a +:+ b) = (String.length a + String.length b)%nat.
Proof.
  induction a as [|x a IH]; [reflexivity|]. rewrite append_String. cbn.
  rewrite IH. reflexivity.
Qed.

Lemma rev_app_append (s acc : string) :
  String.rev_app s acc = String.rev s +:+ acc.
Proof.
  unfold String.rev. revert acc.
  induction s as [|c s IH]; intros acc; [reflexivity|].
  cbn. rewrite IH. rewrite (IH (String c "")). rewrite append_assoc. reflexivity.
Qed.

Lemma rev_String (c : ascii) (s : string) :
  String.rev (String c s) = String.rev s +:+ String c "".
Proof. unfold String.rev at 1. cbn. apply rev_app_append. Qed.

Lemma rev_append (a b : string) :
  String.rev (a +:+ b) = String.rev b +:+ String.rev a.
Proof.
  induction a as [|c a IH].
  - change ("" +:+ b) with b. change (String.rev "") with "".
    rewrite append_empty_r. reflexivity.
  - rewrite append_String, !rev_String, IH, append_assoc. reflexivity.
Qed.

Lemma rev_rev (s : string) : String.rev (String.rev s) = s.
Proof.
  induction s as [|c s IH]; [reflexivity|].
  rewrite rev_String, rev_append, IH. reflexivity.
Qed.

Lemma rev_length (s : string) : String.length (String.rev s) = String.length s.
Proof.
  induction s as [|c s IH]; [reflexivity|].
  rewrite rev_String, append_length, IH. cbn [String.length]. lia.
Qed.

(** [lstrip] cuts a prefix off, and nothing when the string does not
    start with a blank. *)
Lemma lstrip_length (s : string) :
  (String.length (lstrip s) <= String.length s)%nat.
Proof.
  induction s as [|c s IH]; cbn; [lia|].
  destruct (is_space c); cbn; lia.
Qed.

Lemma lstrip_same_length (s : string) :
  String.length (lstrip s) = String.length s -> lstrip s = s.
Proof.
  destruct s as [|c s]; cbn; [reflexivity|].
  destruct (is_space c); [|reflexivity].
  pose proof (lstrip_length s). lia.
Qed.

Lemma lstrip_fixed (s : string) :
  lstrip s = s <-> s = "" \/ exists c s', s = String c s' /\ is_space c = false.
Proof.
  split.
  - destruct s as [|c s]; [left; reflexivity|]. cbn.
    destruct (is_space c) eqn:Hc.
    + intros H. pose proof (lstrip_length s) as Hl. rewrite H in Hl. cbn in Hl. lia.
    + intros _. right. eauto.
  - intros [->|(c & s' & -> & Hc)]; cbn; [reflexivity|]. rewrite Hc. reflexivity.
Qed.

(** A string [strip] leaves alone has a blank at neither end. *)
Lemma strip_fixed (s : string) :
  strip s = s <-> lstrip s = s /\ lstrip (String.rev s) = String.rev s.
Proof.
  unfold strip. split.
  - intros H.
    assert (Hlen : String.length (lstrip (String.rev (lstrip s))) = String.length s).
    { rewrite <- (rev_length (lstrip _)). rewrite H. reflexivity. }
    pose proof (lstrip_length (String.rev (lstrip s))) as H1.
    pose proof (lstrip_length s) as H2.
    rewrite rev_length in H1.
    assert (Hl : lstrip s = s) by (apply lstrip_same_length; lia).
    split; [exact Hl|]. rewrite Hl in Hlen.
    apply lstrip_same_length. rewrite rev_length. exact Hlen.
  - intros [H1 H2]. rewrite H1, H2. apply rev_rev.
Qed.

Lemma strip_empty : strip "" = "".
Proof. reflexivity. Qed.

(** [strip] is idempotent. *)
Lemma lstrip_lstrip (s : string) : lstrip (lstrip s) = lstrip s.
Proof.
  induction s as [|c s IH]; [reflexivity|]. cbn.
  destruct (is_space c) eqn:Hc; [exact IH|]. cbn. rewrite Hc. reflexivity.
Qed.

(** Cutting blanks off the end leaves the front as it is. *)
Lemma lstrip_rev_keeps_head (c : ascii) (s : string) :
  is_space c = false ->
  exists s', String.rev (lstrip (String.rev (String c s))) = String c s'.
Proof.
  intros Hc. rewrite rev_String.
  generalize (String.rev s). intros r.
  induction r as [|d r IH].
  - change ("" +:+ String c "") with (String c ""). cbn [lstrip].
    rewrite Hc. exists "". reflexivity.
  - rewrite append_String. cbn [lstrip]. destruct (is_space d).
    + exact IH.
    + rewrite rev_String, rev_append.
      change (String.rev (String c "")) with (String c "").
      rewrite !append_String. eauto.
Qed.

Lemma strip_strip (s : string) : strip (strip s) = strip s.
Proof.
  apply strip_fixed. unfold strip. split.
  - destruct (lstrip s) as [|c t] eqn:Hs; [reflexivity|].
    assert (Hc : is_space c = false).
    { pose proof (lstrip_lstrip s) as Hi. rewrite Hs in Hi. cbn in Hi.
      destruct (is_space c); [|reflexivity].
      pose proof (lstrip_length t) as Hl. rewrite Hi in Hl. cbn in Hl. lia. }
    destruct (lstrip_rev_keeps_head c t Hc) as [s' ->]. cbn. rewrite Hc. reflexivity.
  - rewrite rev_rev. apply lstrip_lstrip.
Qed.

Lemma prefix_char (c x : ascii) (s : string) :
  String.prefix (String c "") (String x s) = bool_decide (c = x).
Proof.
  cbn. destruct (ascii_dec c x) as [->|Hne].
  - rewrite bool_decide_eq_true_2 by reflexivity. destruct s; reflexivity.
  - rewrite bool_decide_eq_false_2 by exact Hne. reflexivity.
Qed.

Lemma contains_char (c : ascii) (s : string) :
  contains (String c "") s = false <-> lacks c s.
Proof.
  induction s as [|x s IH].
  - cbn. split; [intros _; exact I | reflexivity].
  - cbn [contains lacks]. rewrite prefix_char, orb_false_iff, IH.
    rewrite bool_decide_eq_false. split; intros [H1 H2]; split; congruence.
Qed.

Lemma contains_char_true (c : ascii) (a b : string) :
  contains (String c "") (a +:+ String c b) = true.
Proof.
  induction a as [|x a IH].
  - change ("" +:+ String c b) with (String c b). cbn [contains].
    rewrite prefix_char, bool_decide_eq_true_2 by reflexivity. reflexivity.
  - rewrite append_String. cbn [contains]. rewrite IH. apply orb_true_r.
Qed.

(** Splitting reads a piece without separator up to the next separator. *)
Lemma split_go_piece (sep : ascii) (x : string) :
  lacks sep x ->
  forall rest cur,
    split_go sep (x +:+ rest) cur = split_go sep rest (String.rev_app x cur).
Proof.
  induction x as [|c x IH]; intros Hx rest cur; [reflexivity|].
  destruct Hx as [Hc Hx]. rewrite append_String. cbn [split_go String.rev_app].
  destruct (Ascii.eqb_spec c sep) as [->|_]; [contradiction|].
  apply IH. exact Hx.
Qed.

Lemma split_piece_end (sep : ascii) (x : string) :
  lacks sep x -> split sep x = [x].
Proof.
  intros Hx. unfold split.
  rewrite <- (append_empty_r x) at 1.
  rewrite (split_go_piece sep x Hx). cbn.
  change (String.rev_app x "") with (String.rev x). rewrite rev_rev. reflexivity.
Qed.

Lemma split_piece_sep (sep : ascii) (x rest : string) :
  lacks sep x -> split sep (x +:+ String sep rest) = x :: split sep rest.
Proof.
  intros Hx. unfold split.
  rewrite (split_go_piece sep x Hx). cbn. rewrite Ascii.eqb_refl.
  change (String.rev_app x "") with (String.rev x). rewrite rev_rev. reflexivity.
Qed.

(** Splitting what was joined gives the pieces back. *)
Lemma split_concat (sep : ascii) (l : list string) :
  l <> [] -> Forall (lacks sep) l ->
  split sep (String.concat (String sep "") l) = l.
Proof.
  induction l as [|x l IH]; [contradiction|]. intros _ Hl.
  apply Forall_cons in Hl. destruct Hl as [Hx Hl].
  destruct l as [|y l'].
  - cbn. apply split_piece_end. exact Hx.
  - change (String.concat (String sep "") (x :: y :: l'))
      with (x +:+ (String sep "" +:+ String.concat (String sep "") (y :: l'))).
    change (String sep "" +:+ ?s) with (String sep s).
    rewrite split_piece_sep by exact Hx.
    rewrite IH; [reflexivity | discriminate | exact Hl].
Qed.

End StringProps.

(** ** Route stitcher: lanes, stop sequences, stop files *)
Section StopFileProps.
Import Timetable PyString StopFiles.

Lemma before_last_lacks (sep : ascii) (s : string) :
  lacks sep s -> before_last sep s = None.
Proof.
  induction s as [|c s IH]; [reflexivity|]. intros [Hc Hs]. cbn.
  rewrite (IH Hs). destruct (Ascii.eqb_spec c sep); [contradiction | reflexivity].
Qed.

Lemma before_last_append (sep : ascii) (e i : string) :
  lacks sep i -> before_last sep (e +:+ String sep i) = Some e.
Proof.
  intros Hi. induction e as [|c e IH].
  - change ("" +:+ String sep i) with (String sep i). cbn [before_last].
    rewrite (before_last_lacks sep i Hi), Ascii.eqb_refl. reflexivity.
  - rewrite append_String. cbn [before_last]. rewrite IH. reflexivity.
Qed.

(** [_edge_from_lane] gives the edge of a lane back: a lane id is the id
    of its edge, an underscore and the lane's index, and the edge is what
    stands before the last underscore, whatever underscores the edge id
    has itself. *)
Theorem edge_from_lane_of (edge index : string) :
  contains "_" index = false ->
  _edge_from_lane (lane_of edge index) = edge.
Proof.
  intros Hi. apply contains_char in Hi.
  unfold _edge_from_lane, lane_of.
  change ("_" +:+ index) with (String "_" index).
  rewrite contains_char_true. unfold rsplit1_head.
  rewrite before_last_append by exact Hi. reflexivity.
Qed.

Lemma edge_from_lane_of_witness :
  contains "_" "0" = false /\ _edge_from_lane (lane_of "-12_3#1" "0") = "-12_3#1".
Proof.
  split; [reflexivity|]. apply (edge_from_lane_of "-12_3#1" "0"). reflexivity.
Defined.

Lemma plain_lacks (x : string) : plain_id x -> lacks "," x.
Proof. intros (_ & _ & H & _). apply contains_char. exact H. Qed.

Lemma concat_head (sep : string) (c : ascii) (x : string) (l : list string) :
  exists s, String.concat sep (String c x :: l) = String c s.
Proof. destruct l; cbn; eauto. Qed.

Lemma rev_concat_head (sep : string) (l : list string) (y : string) :
  forall c r, String.rev y = String c r ->
    exists s, String.rev (String.concat sep (l ++ [y])) = String c s.
Proof.
  intros c r Hy. induction l as [|x l IH].
  - change (String.concat sep ([] ++ [y])) with y. rewrite Hy. eauto.
  - destruct IH as [s Hs].
    assert (Hne : exists z l', l ++ [y] = z :: l')
      by (destruct l; cbn; eauto).
    destruct Hne as (z & l' & Hz).
    change ((x :: l) ++ [y]) with (x :: (l ++ [y])).
    rewrite Hz in *.
    change (String.concat sep (x :: z :: l'))
      with (x +:+ (sep +:+ String.concat sep (z :: l'))).
    rewrite !rev_append, Hs, !append_String. eauto.
Qed.

Lemma strip_join (l : list string) :
  Forall plain_id l -> strip (join_stops l) = join_stops l.
Proof.
  intros Hl. apply strip_fixed. unfold join_stops. split.
  - destruct l as [|x l]; [reflexivity|].
    apply Forall_cons in Hl. destruct Hl as [(Hne & Hs & _) _].
    apply strip_fixed in Hs. destruct Hs as [Hs _].
    apply lstrip_fixed in Hs. destruct Hs as [->|(c & x' & -> & Hc)]; [contradiction|].
    destruct (concat_head "," c x' l) as [s ->]. cbn. rewrite Hc. reflexivity.
  - destruct (decide (l = [])) as [->|Hne]; [reflexivity|].
    destruct (exists_last Hne) as (l' & y & ->).
    apply Forall_app in Hl. destruct Hl as [_ Hy].
    apply Forall_cons in Hy. destruct Hy as [(Hyne & Hs & _) _].
    apply strip_fixed in Hs. destruct Hs as [_ Hs].
    apply lstrip_fixed in Hs. destruct Hs as [Hs|(c & r & Hr & Hc)].
    + exfalso. apply Hyne. rewrite <- (rev_rev y), Hs. reflexivity.
    + destruct (rev_concat_head "," l' y c r Hr) as [s ->]. cbn. rewrite Hc. reflexivity.
Qed.

(** The stop sequence the timetable converter writes is the stop
    sequence the stitcher reads: for ASCII stop ids that are not empty,
    have no blank at either end and no comma, [_stops_sequence] inverts
    the [",".join] of the converter (an empty sequence included). *)
Theorem stops_sequence_of_join (sumo_stops : list string) :
  Forall plain_id sumo_stops ->
  _stops_sequence (Some (join_stops sumo_stops)) = sumo_stops.
Proof.
  intros Hl. unfold _stops_sequence. cbv zeta. rewrite strip_join by exact Hl.
  destruct (decide (sumo_stops = [])) as [->|Hne]; [reflexivity|].
  unfold join_stops. rewrite split_concat; [|exact Hne|].
  - induction Hl as [|x l (Hx & Hs & _) _ IH]; [reflexivity|].
    cbn [filter list_filter map].
    rewrite decide_True by (rewrite Hs; exact Hx). cbn [map].
    rewrite Hs. f_equal.
    destruct (decide (l = [])) as [->|Hl']; [reflexivity|]. apply IH. exact Hl'.
  - eapply Forall_impl; [exact Hl|]. apply plain_lacks.
Qed.

Lemma stops_sequence_of_join_witness :
  Forall plain_id ["bus_stop_303345"; "bus_stop_7"] /\
  _stops_sequence (Some (join_stops ["bus_stop_303345"; "bus_stop_7"])) =
    ["bus_stop_303345"; "bus_stop_7"].
Proof.
  assert (H : Forall plain_id ["bus_stop_303345"; "bus_stop_7"]).
  { repeat constructor; try discriminate; vm_compute; reflexivity. }
  split; [exact H|]. apply (stops_sequence_of_join _ H).
Defined.

(** Whatever the parameter holds, [_stops_sequence] returns no empty id
    and no id with a blank at either end. *)
Lemma stops_sequence_clean (param : option string) :
  Forall (fun x => x <> "" /\ strip x = x) (_stops_sequence param).
Proof.
  destruct param as [value|]; [|constructor]. unfold _stops_sequence. cbv zeta.
  apply Forall_forall. intros x Hx. apply list_elem_of_fmap in Hx.
  destruct Hx as (y & -> & Hy). apply list_elem_of_filter in Hy.
  destruct Hy as [Hy _]. split; [exact Hy | apply strip_strip].
Qed.

(** *** The stop-to-edge map *)

Lemma load_edge_lookup (mapping : gmap string string) (bs : BusStop) (sid : string) :
  sid <> "" ->
  load_edge mapping bs !! sid =
  match (if String.eqb (bs_id bs) sid then edge_of_stop bs else None) with
  | Some e => Some e
  | None => mapping !! sid
  end.
Proof.
  intros Hsid. unfold load_edge.
  destruct (String.eqb_spec (bs_id bs) "") as [Hemp|Hne].
  - destruct (String.eqb_spec (bs_id bs) sid) as [Heq|_]; [congruence | reflexivity].
  - destruct (String.eqb_spec (bs_id bs) sid) as [Heq|Hneq].
    + destruct (edge_of_stop bs) as [e|]; [|reflexivity].
      rewrite Heq. apply lookup_insert_eq.
    + destruct (edge_of_stop bs) as [e|]; [|reflexivity].
      apply lookup_insert_ne. exact Hneq.
Qed.

Lemma load_edge_empty_id (mapping : gmap string string) (bs : BusStop) :
  mapping !! "" = None -> load_edge mapping bs !! "" = None.
Proof.
  intros Hm. unfold load_edge.
  destruct (String.eqb_spec (bs_id bs) "") as [Hemp|Hne]; [exact Hm|].
  destruct (edge_of_stop bs); [|exact Hm].
  rewrite lookup_insert_ne by exact Hne. exact Hm.
Qed.

Lemma load_file_lookup (file : list BusStop) (sid : string) :
  sid <> "" ->
  forall mapping,
    fold_left load_edge file mapping !! sid =
    match last (omap (fun bs => if String.eqb (bs_id bs) sid
                                then edge_of_stop bs else None) file) with
    | Some e => Some e
    | None => mapping !! sid
    end.
Proof.
  intros Hsid. induction file as [|bs file IH] using rev_ind; intros mapping.
  - reflexivity.
  - rewrite fold_left_app. cbn [fold_left].
    rewrite load_edge_lookup by exact Hsid.
    rewrite omap_app. cbn [omap list_omap].
    destruct (if String.eqb (bs_id bs) sid then edge_of_stop bs else None) as [e|].
    + rewrite last_snoc. reflexivity.
    + rewrite app_nil_r. apply IH.
Qed.

(** [_load_stop_edge_map] gives a stop the edge of the last [busStop]
    element, over all files in reading order, that has the stop's id and
    assigns an edge -- the value of its [edge] parameter, and the edge of
    its lane only without one; a stop that no element assigns an edge is
    absent from the map, and so is the empty id. *)
Theorem load_stop_edge_map_last (additional_files : list (list BusStop))
    (sid : string) :
  _load_stop_edge_map additional_files !! sid =
  if String.eqb sid "" then None else last (assignments sid additional_files).
Proof.
  unfold _load_stop_edge_map, assignments.
  destruct (String.eqb_spec sid "") as [->|Hsid].
  - assert (H : forall files mapping, mapping !! "" = None ->
              fold_left (fun m file => fold_left load_edge file m) files mapping
                !! "" = None).
    { induction files as [|file files IH]; intros mapping Hm; [exact Hm|].
      cbn [fold_left]. apply IH. clear IH. revert mapping Hm.
      induction file as [|bs file IH]; intros mapping Hm; [exact Hm|].
      cbn [fold_left]. apply IH. apply load_edge_empty_id. exact Hm. }
    apply H. apply lookup_empty.
  - assert (H : forall files mapping,
              fold_left (fun m file => fold_left load_edge file m) files mapping
                !! sid =
              match last (omap (fun bs => if String.eqb (bs_id bs) sid
                                          then edge_of_stop bs else None)
                            (concat files)) with
              | Some e => Some e
              | None => mapping !! sid
              end).
    { induction files as [|file files IH] using rev_ind; intros mapping.
      - reflexivity.
      - rewrite fold_left_app. cbn [fold_left].
        rewrite load_file_lookup by exact Hsid.
        rewrite concat_app, omap_app. cbn [concat]. rewrite app_nil_r.
        destruct (omap _ file) as [|e es] eqn:Hf using rev_ind.
        + rewrite app_nil_r. cbn [last]. apply IH.
        + clear IHes. rewrite app_assoc, !last_snoc. reflexivity. }
    rewrite H, lookup_empty. destruct (last _); reflexivity.
Qed.

End StopFileProps.

(** ** Route stitcher: consecutive duplicates *)
Section DedupeProps.
Import Stitcher Trips StitcherFacts.

Lemma no_repeat_cons (x : string) (l : list string) :
  no_repeat (x :: l) <-> head l <> Some x /\ no_repeat l.
Proof.
  split.
  - intros H. split.
    + destruct l as [|y l]; [discriminate|]. cbn. intros [= ->].
      exact (H 0%nat x x eq_refl eq_refl eq_refl).
    + intros i a b Ha Hb. exact (H (S i) a b Ha Hb).
  - intros [Hh Hl] [|i] a b; cbn.
    + intros [= <-] Hb. destruct l as [|y l]; [discriminate|].
      cbn in Hb, Hh. congruence.
    + apply Hl.
Qed.

Lemma dedupe_from_head (prev : option string) (seq : list string) :
  head (dedupe_from prev seq) <> prev \/ dedupe_from prev seq = [].
Proof.
  induction seq as [|x seq IH]; [right; reflexivity|]. cbn.
  destruct (decide (prev = Some x)) as [->|Hne]; [exact IH|].
  left. cbn. congruence.
Qed.

Lemma dedupe_from_no_repeat (seq : list string) :
  forall prev, no_repeat (dedupe_from prev seq).
Proof.
  induction seq as [|x seq IH]; intros prev.
  - intros i a b Ha. cbn in Ha. rewrite lookup_nil in Ha. discriminate.
  - cbn. destruct (decide (prev = Some x)); [apply IH|].
    apply no_repeat_cons. split; [|apply IH].
    destruct (dedupe_from_head (Some x) seq) as [H|H]; [exact H|].
    rewrite H. discriminate.
Qed.

Lemma dedupe_from_sublist (seq : list string) :
  forall prev, sublist (dedupe_from prev seq) seq.
Proof.
  induction seq as [|x seq IH]; intros prev; [apply sublist_nil|]. cbn.
  destruct (decide (prev = Some x)).
  - apply sublist_cons. apply IH.
  - apply sublist_skip. apply IH.
Qed.

Lemma dedupe_from_elem (seq : list string) (x : string) :
  forall prev, x ∈ seq -> x ∈ dedupe_from prev seq \/ prev = Some x.
Proof.
  induction seq as [|y seq IH]; intros prev Hx.
  - apply elem_of_nil in Hx. destruct Hx.
  - cbn. apply elem_of_cons in Hx.
    destruct (decide (prev = Some y)) as [Hp|Hp].
    + destruct Hx as [->|Hx]; [right; exact Hp|]. apply IH. exact Hx.
    + left. destruct Hx as [->|Hx]; [left|].
      destruct (IH (Some y) Hx) as [H|[= ->]]; [right; exact H | left].
Qed.

Lemma last_or_cons (prev : option string) (x : string) (l : list string) :
  last_or prev (x :: l) = last_or (Some x) l.
Proof.
  unfold last_or. destruct l as [|y l]; [reflexivity|].
  change (last (x :: y :: l)) with (last (y :: l)).
  destruct (last (y :: l)) eqn:H; [reflexivity|].
  apply last_None in H. discriminate.
Qed.

Lemma dedupe_from_last (seq : list string) :
  forall prev, last_or prev (dedupe_from prev seq) = last_or prev seq.
Proof.
  induction seq as [|x seq IH]; intros prev; [reflexivity|]. cbn [dedupe_from].
  destruct (decide (prev = Some x)) as [->|Hp].
  - rewrite IH, last_or_cons. reflexivity.
  - rewrite !last_or_cons. apply IH.
Qed.

Lemma dedupe_from_fixed (l : list string) :
  forall prev, no_repeat l -> head l <> prev \/ l = [] -> dedupe_from prev l = l.
Proof.
  induction l as [|x l IH]; intros prev Hn Hh; [reflexivity|]. cbn.
  apply no_repeat_cons in Hn. destruct Hn as [Hx Hn].
  destruct Hh as [Hh|Hh]; [|discriminate].
  rewrite decide_False by (cbn in Hh; congruence).
  f_equal. apply IH; [exact Hn|].
  destruct l; [right; reflexivity | left; exact Hx].
Qed.

(** [_dedupe_consecutive] leaves no two equal neighbours; it drops
    elements without reordering the others, keeps every value that
    occurs, keeps the first and the last element, and changes nothing
    when applied again. *)
Theorem dedupe_consecutive_spec (seq : list string) :
  let out := _dedupe_consecutive seq in
  no_repeat out /\ sublist out seq /\ (forall x, x ∈ seq <-> x ∈ out) /\
  head out = head seq /\ last out = last seq /\
  _dedupe_consecutive out = out.
Proof.
  cbv zeta. unfold _dedupe_consecutive.
  pose proof (dedupe_from_no_repeat seq None) as Hn.
  pose proof (dedupe_from_sublist seq None) as Hs.
  split; [exact Hn|]. split; [exact Hs|]. split; [|split; [|split]].
  - intros x. split.
    + intros Hx. destruct (dedupe_from_elem seq x None Hx) as [H|H];
        [exact H | discriminate].
    + intros Hx. eapply elem_of_sublist; eassumption.
  - destruct seq as [|x seq]; reflexivity.
  - pose proof (dedupe_from_last seq None) as Hl. unfold last_or in Hl.
    destruct (last (dedupe_from None seq)), (last seq); congruence.
  - apply dedupe_from_fixed; [exact Hn|].
    destruct (dedupe_from None seq); [right; reflexivity | left; discriminate].
Qed.

End DedupeProps.

(** ** Route stitcher: what a route that passed the check looks like *)
Section DownstreamOrder.
Import Stitcher Trips StitcherFacts.

Variable stop_to_edge : gmap string string.
Variable stop_to_startpos : gmap string float.
Variable stop_to_posrange : gmap string (option float * option float).

Lemma sublist_at {A : Type} (x : A) (l k : list A) (lo j : nat) :
  k !! j = Some x -> (lo <= j)%nat -> sublist l (drop (S j) k) ->
  sublist (x :: l) (drop lo k).
Proof.
  intros Hj Hle Hs.
  assert (Hd : drop lo k !! (j - lo)%nat = Some x).
  { rewrite lookup_drop. replace (lo + (j - lo))%nat with j by lia. exact Hj. }
  rewrite <- (take_drop_middle _ _ _ Hd).
  apply sublist_inserts_l. apply sublist_skip.
  rewrite drop_drop. replace (lo + S (j - lo))%nat with (S j) by lia. exact Hs.
Qed.

Lemma greedy_walk_sublist (re : list string) (stop_ids : list string) :
  forall js jp sidp ep,
    greedy_walk stop_to_edge stop_to_startpos stop_to_posrange re
      (Some (jp, sidp)) stop_ids js ->
    re !! jp = Some ep ->
    exists edges,
      Forall2 (fun sid e => stop_to_edge !! sid = Some e) stop_ids edges /\
      sublist (dedupe_from (Some ep) edges) (drop (S jp) re).
Proof.
  induction stop_ids as [|sid rest IH]; intros js jp sidp ep Hg Hjp.
  - exists []. split; [exact (List.Forall2_nil _) | apply sublist_nil_l].
  - destruct js as [|j js]; [destruct Hg|]. destruct Hg as [Hm Hg].
    destruct Hm as ((e & He & _ & Hj & Hmin) & Hle & _). cbn in Hle, Hmin.
    destruct (IH js j sid e Hg Hj) as (edges & Hf & Hs).
    exists (e :: edges). split; [apply List.Forall2_cons; assumption|]. cbn.
    destruct (decide (Some ep = Some e)) as [[= ->]|Hne].
    + assert (j = jp) as ->; [|exact Hs].
      destruct (Nat.eq_dec j jp) as [|Hd]; [assumption|].
      exfalso. apply (Hmin jp); [lia | exact Hjp].
    + assert (Hlt : (S jp <= j)%nat).
      { destruct (Nat.eq_dec j jp) as [->|Hd]; [congruence | lia]. }
      eapply sublist_at; eassumption.
Qed.

(** A route that passes [_is_stop_sequence_downstream] runs through the
    edges of its stops in the order of the stops: every stop has an edge,
    and these edges, consecutive repetitions counted once, are found in
    this order along the route's edge path. *)
Theorem downstream_visits_stop_edges (route_edges stop_ids : list string) :
  _is_stop_sequence_downstream stop_to_edge stop_to_startpos stop_to_posrange
    route_edges stop_ids = true ->
  exists edges,
    Forall2 (fun sid e => stop_to_edge !! sid = Some e) stop_ids edges /\
    sublist (_dedupe_consecutive edges) route_edges.
Proof.
  intros Hd. apply is_downstream_greedy in Hd. destruct Hd as [_ [js Hg]].
  destruct stop_ids as [|sid rest].
  - exists []. split; [exact (List.Forall2_nil _) | apply sublist_nil_l].
  - destruct js as [|j js]; [destruct Hg|]. destruct Hg as [Hm Hg].
    destruct Hm as ((e & He & _ & Hj & _) & _ & _).
    destruct (greedy_walk_sublist route_edges rest js j sid e Hg Hj)
      as (edges & Hf & Hs).
    exists (e :: edges). split; [apply List.Forall2_cons; assumption|].
    unfold _dedupe_consecutive. cbn.
    change route_edges with (drop 0 route_edges).
    eapply sublist_at; [exact Hj | lia | exact Hs].
Qed.

End DownstreamOrder.

Lemma downstream_visits_stop_edges_witness :
  Stitcher._is_stop_sequence_downstream Stitcher.ex_stop_to_edge
    Stitcher.ex_stop_to_startpos Stitcher.ex_stop_to_posrange
    ["e1"; "x"; "e2"] ["s1"; "s2"] = true /\
  exists edges,
    Forall2 (fun sid e => Stitcher.ex_stop_to_edge !! sid = Some e)
      ["s1"; "s2"] edges /\
    sublist (Stitcher._dedupe_consecutive edges) ["e1"; "x"; "e2"].
Proof.
  split; [vm_compute; reflexivity|].
  apply (downstream_visits_stop_edges Stitcher.ex_stop_to_edge
           Stitcher.ex_stop_to_startpos Stitcher.ex_stop_to_posrange).
  vm_compute. reflexivity.
Defined.

(** ** Route stitcher: the stitched path *)
Section StitchedPath.
Import Stitcher Trips StitcherFacts.

Variable shortest_path : string -> string -> option (list string).

Hypothesis Hpaths : joins_endpoints shortest_path.

Lemma stitch_path_ext (rest : list string) :
  forall a full full',
    stitch_path shortest_path false (a :: rest) full = (true, full') ->
    exists ext,
      full' = full ++ ext /\
      last (a :: ext) = last (a :: rest) /\
      sublist (dedupe_from (Some a) rest) ext.
Proof.
  induction rest as [|b rest IH]; intros a full full' Hst.
  - cbn in Hst. injection Hst as <-. exists [].
    rewrite app_nil_r. repeat split. apply sublist_nil_l.
  - cbn [stitch_path] in Hst.
    destruct (shortest_path a b) as [[|x seg]|] eqn:Hp; try discriminate.
    destruct (Hpaths a b _ Hp) as [Hh Hl]. cbn in Hh. injection Hh as ->.
    destruct (IH b (full ++ seg) full' Hst) as (ext & -> & Hlast & Hsub).
    exists (seg ++ ext). split; [rewrite app_assoc; reflexivity|]. split.
    + change (last (a :: b :: rest)) with (last (b :: rest)). rewrite <- Hlast.
      destruct ext as [|y ext].
      * rewrite app_nil_r. exact Hl.
      * change (last (b :: y :: ext)) with (last (y :: ext)).
        rewrite app_comm_cons, last_app.
        destruct (last (y :: ext)) eqn:Hy; [reflexivity|].
        apply last_None in Hy. discriminate.
    + cbn [dedupe_from]. destruct (decide (Some a = Some b)) as [[= <-]|Hne].
      * apply sublist_inserts_l. exact Hsub.
      * destruct seg as [|y seg] using rev_ind; [cbn in Hl; congruence|].
        clear IHseg. rewrite app_comm_cons, last_snoc in Hl. injection Hl as ->.
        rewrite <- app_assoc. apply sublist_inserts_l. cbn.
        apply sublist_skip. exact Hsub.
Qed.

(** The path stitched for a route starts on the edge of its first stop,
    ends on the edge of its last stop and runs through the edges of its
    stops in order (consecutive repetitions counted once), provided the
    router answers every request with a path that joins its two edges and
    the memo table holds answers of the router only. *)
Theorem stitched_path_visits_stop_edges (stop_edges full : list string)
    (cache cache' : cache_t) (stats stats' : Stats) :
  cache_ok shortest_path cache ->
  (2 <= length stop_edges)%nat ->
  stitch_segments shortest_path true stop_edges [] cache stats =
    (true, full, cache', stats') ->
  head full = head stop_edges /\ last full = last stop_edges /\
  sublist (_dedupe_consecutive stop_edges) full.
Proof.
  intros Hok Hlen Hst.
  destruct (stitch_segments_path shortest_path stop_edges true [] cache stats Hok)
    as (c1 & s1 & Heq & _ & _).
  rewrite Heq in Hst. injection Hst as Hst _ _.
  destruct stop_edges as [|a [|b rest]]; try (cbn in Hlen; lia).
  assert (Hfalse : stitch_path shortest_path false (a :: b :: rest) [a] = (true, full)).
  { revert Hst. cbn [stitch_path].
    destruct (shortest_path a b) as [[|x seg]|] eqn:Hp; try discriminate.
    destruct (Hpaths a b _ Hp) as [Hh _]. cbn in Hh. injection Hh as ->.
    intros Hst. exact Hst. }
  destruct (stitch_path_ext (b :: rest) a [a] full Hfalse) as (ext & -> & Hlast & Hsub).
  split; [reflexivity|]. split; [exact Hlast|].
  unfold _dedupe_consecutive. cbn [dedupe_from].
  rewrite decide_False by discriminate. apply sublist_skip. exact Hsub.
Qed.

End StitchedPath.

Lemma stitched_path_visits_stop_edges_witness :
  StitcherFacts.joins_endpoints Stitcher.ex_shortest_path /\
  Stitcher.stitch_segments Stitcher.ex_shortest_path true ["e1"; "e2"; "e2"] []
    ∅ Stitcher.Stats0 =
    (true, ["e1"; "x"; "e2"], {[ ("e1", "e2") := Some ["e1"; "x"; "e2"];
                                 ("e2", "e2") := Some ["e2"] ]},
     Stitcher.add_segment false (Stitcher.add_segment false Stitcher.Stats0)) /\
  sublist (Stitcher._dedupe_consecutive ["e1"; "e2"; "e2"]) ["e1"; "x"; "e2"].
Proof.
  assert (Hp : StitcherFacts.joins_endpoints Stitcher.ex_shortest_path).
  { intros a b p. unfold Stitcher.ex_shortest_path.
    destruct (String.eqb_spec a "e1") as [->|_];
      [destruct (String.eqb_spec b "e2") as [->|_]|]; cbn [andb].
    - intros [= <-]. split; reflexivity.
    - destruct (String.eqb_spec "e1" b) as [<-|_]; [|discriminate].
      intros [= <-]. split; reflexivity.
    - destruct (String.eqb_spec a b) as [<-|_]; [|discriminate].
      intros [= <-]. split; reflexivity. }
  assert (Hs : Stitcher.stitch_segments Stitcher.ex_shortest_path true
                 ["e1"; "e2"; "e2"] [] ∅ Stitcher.Stats0 =
               (true, ["e1"; "x"; "e2"],
                {[ ("e1", "e2") := Some ["e1"; "x"; "e2"];
                   ("e2", "e2") := Some ["e2"] ]},
                Stitcher.add_segment false
                  (Stitcher.add_segment false Stitcher.Stats0)))
    by (vm_compute; reflexivity).
  split; [exact Hp|]. split; [exact Hs|].
  refine (proj2 (proj2 (stitched_path_visits_stop_edges Stitcher.ex_shortest_path
                          Hp _ _ _ _ _ _ _ _ Hs))).
  - intros a b r Hr. rewrite lookup_empty in Hr. discriminate.
  - cbn. lia.
Defined.

(** ** Route stitcher: the segment counters *)
Section SegmentCounters.
Import Stitcher Trips StitcherFacts.

Variable stop_to_edge : gmap string string.
Variable stop_to_startpos : gmap string float.
Variable stop_to_posrange : gmap string (option float * option float).
Variable shortest_path : string -> string -> option (list string).
Variable duarouter : list (string * list string) -> gmap string (list string).

Lemma fold_left_invariant {A B : Type} (P : A -> Prop) (f : A -> B -> A)
    (l : list B) :
  (forall a x, P a -> P (f a x)) -> forall a, P a -> P (fold_left f l a).
Proof.
  intros Hf. induction l as [|x l IH]; intros a Ha; [exact Ha|].
  cbn. apply IH. apply Hf. exact Ha.
Qed.

Lemma stitch_segments_counters (P : nat -> nat -> Prop) (stop_edges : list string) :
  (forall t c hit, P t c -> P (S t) (if hit : bool then S c else c)) ->
  forall first full cache stats,
    on_segments P stats ->
    on_segments P
      (snd (stitch_segments shortest_path first stop_edges full cache stats)).
Proof.
  intros Hstep. induction stop_edges as [|a rest IH]; intros first full cache stats Hs.
  - exact Hs.
  - destruct rest as [|b rest']; [exact Hs|].
    cbn [stitch_segments].
    destruct (_shortest_path_edges_cached shortest_path a b cache) as [seg cache1].
    assert (Hs' : on_segments P
                    (add_segment (bool_decide (is_Some (cache !! (a, b)))) stats))
      by (apply Hstep; exact Hs).
    destruct seg as [[|x seg']|]; [exact Hs' | | exact Hs'].
    exact (IH false (if first then full ++ x :: seg' else full ++ seg') cache1 _ Hs').
Qed.

Lemma collect_step_segments (P : nat -> nat -> Prop)
    (st : list (string * list string) * list (string * list string) * Stats)
    (item : string * RouteElem) :
  on_segments P (snd st) -> on_segments P (snd (collect_step stop_to_edge st item)).
Proof.
  destruct st as [[to_edges to_ids] stats], item as [rid r]. unfold collect_step.
  destruct (length (stops_sequence r) <? 2)%nat; [intros H; exact H|].
  destruct (length (collect_stop_edges stop_to_edge (stops_sequence r) []) <? 2)%nat;
    intros H; exact H.
Qed.

Lemma sumolib_step_segments (P : nat -> nat -> Prop)
    (to_ids : list (string * list string)) (st : fill_state)
    (item : string * list string) :
  (forall t c hit, P t c -> P (S t) (if hit : bool then S c else c)) ->
  on_segments P (fs_stats st) ->
  on_segments P
    (fs_stats (sumolib_step stop_to_edge stop_to_startpos stop_to_posrange
                 shortest_path to_ids st item)).
Proof.
  intros Hstep Hs. destruct item as [rid stop_edges]. unfold sumolib_step.
  pose proof (stitch_segments_counters P stop_edges Hstep true [] (fs_cache st)
                (fs_stats st) Hs) as H.
  destruct (stitch_segments shortest_path true stop_edges [] (fs_cache st) (fs_stats st))
    as [[[ok full] cache] stats]. cbn [snd] in H.
  destruct (negb ok || bool_decide (full = [])); [exact H|].
  destruct (negb (_is_stop_sequence_downstream _ _ _ full _)); exact H.
Qed.

Lemma duarouter_step_segments (P : nat -> nat -> Prop)
    (computed : gmap string (list string)) (to_ids : list (string * list string))
    (st : fill_state) (item : string * list string) :
  on_segments P (fs_stats st) ->
  on_segments P
    (fs_stats (duarouter_step stop_to_edge stop_to_startpos stop_to_posrange
                 computed to_ids st item)).
Proof.
  intros Hs. destruct item as [rid stop_edges]. unfold duarouter_step.
  destruct (bool_decide (default [] (computed !! rid) = [])); [exact Hs|].
  destruct (negb (_is_stop_sequence_downstream _ _ _ _ _)); exact Hs.
Qed.

Lemma vehicle_step_segments (P : nat -> nat -> Prop) (ids : gset string)
    (st : list VehicleElem * Stats) (v : VehicleElem) :
  on_segments P (snd st) -> on_segments P (snd (vehicle_step ids st v)).
Proof.
  destruct st as [kept stats]. unfold vehicle_step.
  destruct (negb (String.eqb (vehicle_route v) "") && bool_decide (vehicle_route v ∈ ids));
    intros H; exact H.
Qed.

(** The segment counters of [fill_edges_and_prune]: a segment answered
    from the memo table is a routed segment, so [segments_cached] never
    exceeds [segments_total]; and the external router routes no segment
    at all, so with the method [duarouter] both counters stay 0. *)
Theorem segment_counters (route_elems : list RouteElem)
    (vehicles : list VehicleElem) (method : string) (out : Output) :
  fill_edges_and_prune stop_to_edge stop_to_startpos stop_to_posrange
    shortest_path duarouter route_elems vehicles method = Some out ->
  (segments_cached (out_stats out) <= segments_total (out_stats out))%nat /\
  (method = "duarouter" ->
   segments_total (out_stats out) = 0%nat /\ segments_cached (out_stats out) = 0%nat).
Proof.
  unfold fill_edges_and_prune.
  set (routes := routes_dict route_elems).
  set (stats0 := set_totals (length routes) (length vehicles) Stats0).
  assert (Hcollect : forall P : nat -> nat -> Prop, P 0%nat 0%nat ->
            on_segments P
              (snd (fold_left (collect_step stop_to_edge) routes ([], [], stats0)))).
  { intros P H0.
    apply (fold_left_invariant (fun st => on_segments P (snd st))).
    - intros st item. apply collect_step_segments.
    - exact H0. }
  destruct (fold_left (collect_step stop_to_edge) routes ([], [], stats0))
    as [[to_edges to_ids] stats]. cbn [snd] in Hcollect.
  assert (Hvehicles : forall (P : nat -> nat -> Prop) st,
            on_segments P (fs_stats st) ->
            on_segments P
              (snd (fold_left
                      (vehicle_step (list_to_set (dict_keys (fs_valid st))))
                      vehicles ([], fs_stats st)))).
  { intros P st Hst.
    apply (fold_left_invariant (fun a => on_segments P (snd a))).
    - intros a v. apply vehicle_step_segments.
    - exact Hst. }
  destruct (String.eqb_spec method "sumolib") as [->|Hm].
  - set (st := fold_left _ to_edges _).
    assert (Hst : on_segments (fun t c => (c <= t)%nat) (fs_stats st)).
    { apply (fold_left_invariant
               (fun a => on_segments (fun t c => (c <= t)%nat) (fs_stats a))).
      - intros a item. apply sumolib_step_segments.
        intros t c [|] Hle; lia.
      - apply Hcollect. lia. }
    specialize (Hvehicles _ st Hst). cbv zeta.
    destruct (fold_left (vehicle_step _) vehicles _) as [kept stats'].
    intros [= <-]. split; [exact Hvehicles | discriminate].
  - destruct (String.eqb_spec method "duarouter") as [->|Hm']; [|discriminate].
    set (st := fold_left _ to_edges _).
    assert (Hst : on_segments (fun t c => t = 0%nat /\ c = 0%nat) (fs_stats st)).
    { apply (fold_left_invariant
               (fun a => on_segments (fun t c => t = 0%nat /\ c = 0%nat) (fs_stats a))).
      - intros a item. apply duarouter_step_segments.
      - apply Hcollect. split; reflexivity. }
    specialize (Hvehicles _ st Hst). cbv zeta.
    destruct (fold_left (vehicle_step _) vehicles _) as [kept stats'].
    intros [= <-]. cbn [out_stats]. destruct Hvehicles as [Ht Hc].
    unfold on_segments in *. cbn [snd] in *. split; [lia | intros _; split; assumption].
Qed.

End SegmentCounters.

Lemma segment_counters_witness :
  Stitcher.fill_edges_and_prune Stitcher.ex_stop_to_edge
    Stitcher.ex_stop_to_startpos Stitcher.ex_stop_to_posrange
    Stitcher.ex_shortest_path Stitcher.ex_duarouter
    Stitcher.ex_routes Stitcher.ex_vehicles "sumolib" = Some Stitcher.ex_output /\
  (Stitcher.segments_cached (Stitcher.out_stats Stitcher.ex_output)
   <= Stitcher.segments_total (Stitcher.out_stats Stitcher.ex_output))%nat.
Proof.
  assert (H : Stitcher.fill_edges_and_prune Stitcher.ex_stop_to_edge
    Stitcher.ex_stop_to_startpos Stitcher.ex_stop_to_posrange
    Stitcher.ex_shortest_path Stitcher.ex_duarouter
    Stitcher.ex_routes Stitcher.ex_vehicles "sumolib" = Some Stitcher.ex_output)
    by (vm_compute; reflexivity).
  split; [exact H|].
  exact (proj1 (segment_counters _ _ _ _ _ _ _ _ _ H)).
Defined.

(** ** Route stitcher: the trips of the external router *)
Section TripProps.
Import Stitcher Trips StitcherFacts.

Lemma elem_of_insert_by {A : Type} (le : A -> A -> bool) (a x : A) (l : list A) :
  x ∈ LaneMatcher.insert_by le a l <-> x = a \/ x ∈ l.
Proof.
  induction l as [|y l IH]; cbn.
  - rewrite list_elem_of_singleton, elem_of_nil. tauto.
  - destruct (le a y).
    + rewrite elem_of_cons. reflexivity.
    + rewrite !elem_of_cons, IH. tauto.
Qed.

Lemma elem_of_sort_by {A : Type} (le : A -> A -> bool) (x : A) (l : list A) :
  x ∈ LaneMatcher.sort_by le l <-> x ∈ l.
Proof.
  unfold LaneMatcher.sort_by. induction l as [|y l IH]; cbn; [reflexivity|].
  rewrite elem_of_insert_by, elem_of_cons, IH. reflexivity.
Qed.

Lemma ends_and_middle (edges : list string) (a b : string) :
  (2 <= length edges)%nat -> head edges = Some a -> last edges = Some b ->
  a :: middle edges ++ [b] = edges.
Proof.
  intros Hlen Ha Hb. destruct edges as [|x rest]; [discriminate|].
  cbn in Ha. injection Ha as ->. unfold middle. cbn [tail]. f_equal.
  destruct rest as [|y rest] using rev_ind; [cbn in Hlen; lia|]. clear IHrest.
  rewrite app_comm_cons, last_snoc in Hb. injection Hb as ->.
  rewrite removelast_last. reflexivity.
Qed.

Lemma insert_by_perm {A : Type} (le : A -> A -> bool) (x : A) (l : list A) :
  LaneMatcher.insert_by le x l ≡ₚ x :: l.
Proof.
  induction l as [|y l IH]; cbn; [reflexivity|].
  destruct (le x y); [reflexivity|]. rewrite IH. apply Permutation_swap.
Qed.

Lemma sort_by_perm {A : Type} (le : A -> A -> bool) (l : list A) :
  LaneMatcher.sort_by le l ≡ₚ l.
Proof.
  unfold LaneMatcher.sort_by. induction l as [|x l IH]; cbn; [reflexivity|].
  rewrite insert_by_perm, IH. reflexivity.
Qed.

Lemma trip_of_Some (rid : string) (se : list string) (t : Trip) :
  trip_of (rid, se) = Some t <->
  trip_id t = rid /\ (2 <= length (_dedupe_consecutive se))%nat /\
  trip_edges t = _dedupe_consecutive se.
Proof.
  unfold trip_of. split.
  - intros Ht.
    destruct (Nat.ltb_spec (length (_dedupe_consecutive se)) 2) as [|Hlen];
      [discriminate|].
    destruct (head (_dedupe_consecutive se)) as [a|] eqn:Ha; [|discriminate].
    destruct (last (_dedupe_consecutive se)) as [b|] eqn:Hb; [|discriminate].
    injection Ht as <-. cbn. split; [reflexivity|]. split; [exact Hlen|].
    apply ends_and_middle; assumption.
  - intros (Hid & Hlen & He).
    destruct (Nat.ltb_spec (length (_dedupe_consecutive se)) 2) as [|_]; [lia|].
    destruct (_dedupe_consecutive se) as [|a rest] eqn:Hd; [cbn in Hlen; lia|].
    cbn [head].
    destruct (last (a :: rest)) as [b|] eqn:Hb;
      [|apply last_None in Hb; discriminate].
    f_equal. pose proof (ends_and_middle (a :: rest) a b Hlen eq_refl Hb) as Hm.
    rewrite <- Hm in He. unfold trip_edges in He.
    injection He as Hf Hv. apply app_inj_tail in Hv. destruct Hv as [Hv Hto].
    destruct t as [tid tf tt tv]. cbn in *. congruence.
Qed.

(** The ids of the trips follow the ids of the items. *)
Lemma trip_ids_sublist (items : list (string * list string)) :
  sublist (map trip_id (omap trip_of items)) (map fst items).
Proof.
  induction items as [|[rid se] items IH]; [constructor|].
  cbn [omap list_omap map fst].
  destruct (trip_of (rid, se)) as [t|] eqn:Ht.
  - apply trip_of_Some in Ht. destruct Ht as (<- & _). cbn [map].
    apply sublist_skip. exact IH.
  - apply sublist_cons. exact IH.
Qed.

Lemma trips_count (items : list (string * list string)) :
  length (omap trip_of items) = length (filter (fun item => has_trip item = true) items).
Proof.
  induction items as [|[rid se] items IH]; [reflexivity|].
  cbn [omap list_omap]. rewrite filter_cons.
  destruct (trip_of (rid, se)) as [t|] eqn:Ht.
  - rewrite decide_True; [cbn [length]; rewrite IH; reflexivity|].
    apply trip_of_Some in Ht. unfold has_trip. cbn [snd]. apply Nat.leb_le, Ht.
  - rewrite decide_False; [exact IH|].
    unfold has_trip. cbn [snd]. rewrite Nat.leb_le. intros Hlen.
    unfold trip_of in Ht.
    destruct (Nat.ltb_spec (length (_dedupe_consecutive se)) 2) as [|_]; [lia|].
    destruct (_dedupe_consecutive se) as [|a rest] eqn:Hd; [cbn in Hlen; lia|].
    cbn [head] in Ht.
    destruct (last (a :: rest)) as [b|] eqn:Hb; [discriminate|].
    apply last_None in Hb. discriminate.
Qed.

(** The trips handed to the external router, for a table with distinct
    route ids (a dictionary): there is exactly one trip for each route
    of the table whose stop edges, consecutive repetitions counted once,
    are at least two, and none for the other routes.  A trip is in the
    list exactly when it carries the id of such a route and its [from],
    [via] and [to] edges, in this order, are the deduplicated stop edges
    of the route; no two trips of the list carry the same id; and the
    trips are as many as these routes. *)
Theorem trips_follow_stop_edges (table : list (string * list string)) :
  (forall t,
     t ∈ trips_of table <->
     exists rid stop_edges,
       (rid, stop_edges) ∈ table /\ trip_id t = rid /\
       (2 <= length (_dedupe_consecutive stop_edges))%nat /\
       trip_edges t = _dedupe_consecutive stop_edges) /\
  (NoDup (dict_keys table) -> NoDup (map trip_id (trips_of table))) /\
  length (trips_of table) =
    length (filter (fun item => has_trip item = true) table).
Proof.
  split; [|split].
  - intros t. unfold trips_of. rewrite list_elem_of_omap. split.
    + intros ([rid se] & Hin & Ht). apply elem_of_sort_by in Hin.
      exists rid, se. split; [exact Hin|]. apply trip_of_Some. exact Ht.
    + intros (rid & se & Hin & Ht).
      exists (rid, se). split; [apply elem_of_sort_by; exact Hin|].
      apply trip_of_Some. exact Ht.
  - intros Hkeys. unfold trips_of.
    refine (sublist_NoDup _ _ _ (trip_ids_sublist (sorted_items table))).
    unfold sorted_items. rewrite sort_by_perm. exact Hkeys.
  - unfold trips_of. rewrite trips_count. unfold sorted_items.
    rewrite sort_by_perm. reflexivity.
Qed.

End TripProps.

(** Two routes, one of them with a single stop edge: one trip. *)
Lemma trips_follow_stop_edges_witness :
  NoDup (dict_keys [("r2", ["e1"; "e1"; "e2"; "e3"]); ("r1", ["e5"; "e5"])]) /\
  Trips.trips_of [("r2", ["e1"; "e1"; "e2"; "e3"]); ("r1", ["e5"; "e5"])] =
    [Trips.mkTrip "r2" "e1" "e3" ["e2"]] /\
  NoDup (map Trips.trip_id
           (Trips.trips_of [("r2", ["e1"; "e1"; "e2"; "e3"]); ("r1", ["e5"; "e5"])])).
Proof.
  assert (H : NoDup (dict_keys [("r2", ["e1"; "e1"; "e2"; "e3"]); ("r1", ["e5"; "e5"])])).
  { apply (bool_decide_unpack _). vm_compute. exact I. }
  split; [exact H|]. split; [vm_compute; reflexivity|].
  exact (proj1 (proj2 (trips_follow_stop_edges _)) H).
Defined.

(** ** Chain validator: line labels *)
Section MapLines.
Import Validator ValidatorFacts.

Lemma unique_elem (mapped : list string) (y : string) :
  forall seen, y ∈ unique seen mapped <-> y ∈ mapped /\ y ∉ seen.
Proof.
  induction mapped as [|x l IH]; intros seen; cbn [unique].
  - rewrite elem_of_nil. tauto.
  - destruct (bool_decide_reflect (x ∈ seen)) as [Hx|Hx].
    + rewrite IH, elem_of_cons. split; [tauto|].
      intros [[->|Hy] Hn]; [contradiction | tauto].
    + rewrite !elem_of_cons, IH. rewrite elem_of_union, elem_of_singleton.
      split.
      * intros [->|[Hy Hn]]; [tauto|]. split; [tauto|]. intros H. apply Hn. tauto.
      * intros [[->|Hy] Hn]; [tauto|].
        destruct (decide (y = x)) as [->|Hne]; [tauto|]. right. split; [exact Hy|].
        intros [H|H]; contradiction.
Qed.

Lemma unique_NoDup (mapped : list string) : forall seen, NoDup (unique seen mapped).
Proof.
  induction mapped as [|x l IH]; intros seen; cbn [unique]; [constructor|].
  destruct (bool_decide (x ∈ seen)); [apply IH|].
  constructor; [|apply IH]. rewrite unique_elem.
  intros [_ Hn]. apply Hn. apply elem_of_union. left. apply elem_of_singleton. reflexivity.
Qed.

Lemma unique_sublist (mapped : list string) :
  forall seen, sublist (unique seen mapped) mapped.
Proof.
  induction mapped as [|x l IH]; intros seen; cbn [unique]; [constructor|].
  destruct (bool_decide (x ∈ seen)).
  - apply sublist_cons. apply IH.
  - apply sublist_skip. apply IH.
Qed.

Lemma unique_snoc (mapped : list string) (x : string) :
  forall seen,
    unique seen (mapped ++ [x]) =
    unique seen mapped ++
      (if decide (x ∈ seen \/ x ∈ mapped) then [] else [x]).
Proof.
  induction mapped as [|y l IH]; intros seen.
  - cbn [app unique]. destruct (bool_decide_reflect (x ∈ seen)) as [Hx|Hx].
    + rewrite decide_True by (left; exact Hx). reflexivity.
    + rewrite decide_False; [reflexivity|].
      intros [H|H]; [contradiction | apply elem_of_nil in H; exact H].
  - change ((y :: l) ++ [x]) with (y :: (l ++ [x])). cbn [unique].
    destruct (bool_decide_reflect (y ∈ seen)) as [Hy|Hy].
    + rewrite IH. f_equal.
      destruct (decide (x ∈ seen \/ x ∈ l)) as [H|H].
      * rewrite decide_True; [reflexivity|]. rewrite elem_of_cons. tauto.
      * rewrite decide_False; [reflexivity|]. rewrite elem_of_cons.
        intros [H'|[->|H']]; tauto.
    + rewrite IH. cbn [app]. f_equal. f_equal.
      destruct (decide (x ∈ {[y]} ∪ seen \/ x ∈ l)) as [H|H].
      * rewrite decide_True; [reflexivity|].
        rewrite elem_of_union, elem_of_singleton in H. rewrite elem_of_cons. tauto.
      * rewrite decide_False; [reflexivity|].
        rewrite elem_of_union, elem_of_singleton in H. rewrite elem_of_cons. tauto.
Qed.

(** [_map_lines] returns every mapped label once: the result has no
    duplicates, holds exactly the labels of the given lines, in the order
    of the lines, and a further line adds its label at the end unless the
    label is there already. *)
Theorem map_lines_unique (lines : list string) (line_map : gmap string string)
    (strip_prefixes : list string) :
  let label := mapped_label line_map strip_prefixes in
  let out := _map_lines lines line_map strip_prefixes in
  NoDup out /\
  (forall l, l ∈ out <-> exists raw, raw ∈ lines /\ l = label raw) /\
  sublist out (map label lines) /\
  forall raw,
    _map_lines (lines ++ [raw]) line_map strip_prefixes =
    out ++ (if decide (label raw ∈ out) then [] else [label raw]).
Proof.
  intros label out.
  assert (Hout : forall ls, _map_lines ls line_map strip_prefixes =
                            unique ∅ (map label ls)) by reflexivity.
  subst out. rewrite Hout.
  split; [apply unique_NoDup|]. split; [|split; [apply unique_sublist|]].
  - intros l. rewrite unique_elem, list_elem_of_fmap. split.
    + intros [(raw & -> & Hraw) _]. eauto.
    + intros (raw & Hraw & ->). split; [eauto | apply not_elem_of_empty].
  - intros raw. rewrite Hout, map_app. cbn [map]. rewrite unique_snoc. f_equal.
    destruct (decide (label raw ∈ (∅ : gset string) \/ label raw ∈ map label lines))
      as [H|H].
    + rewrite decide_True; [reflexivity|]. apply unique_elem.
      destruct H as [H|H]; [apply elem_of_empty in H; destruct H|].
      split; [exact H | apply not_elem_of_empty].
    + rewrite decide_False; [reflexivity|]. rewrite unique_elem. tauto.
Qed.

Lemma substring_all (s : string) : String.substring 0 (String.length s) s = s.
Proof. induction s as [|c s IH]; [reflexivity|]. cbn. rewrite IH. reflexivity. Qed.

Lemma drop_prefix_append (p raw : string) :
  String.prefix p raw = true -> raw = p +:+ drop_prefix p raw.
Proof.
  unfold drop_prefix. revert raw. induction p as [|a p IH]; intros raw Hp.
  - cbn [String.length]. rewrite Nat.sub_0_r, substring_all. reflexivity.
  - destruct raw as [|b raw]; [discriminate|]. cbn in Hp.
    destruct (ascii_dec a b) as [->|]; [|discriminate].
    cbn [String.length Nat.sub String.substring].
    rewrite append_String. f_equal. apply IH. exact Hp.
Qed.

(** The label of a line: a name the line map knows is replaced by its
    image, whatever prefix it has; any other name loses the first prefix
    of the list that it starts with, and nothing more; a name that starts
    with none of them is kept as it is. *)
Theorem mapped_label_cases (line_map : gmap string string)
    (strip_prefixes : list string) (raw : string) :
  match line_map !! raw with
  | Some m => mapped_label line_map strip_prefixes raw = m
  | None =>
      (exists before p after,
         strip_prefixes = before ++ p :: after /\
         Forall (fun q => String.prefix q raw = false) before /\
         String.prefix p raw = true /\
         raw = p +:+ mapped_label line_map strip_prefixes raw) \/
      (Forall (fun q => String.prefix q raw = false) strip_prefixes /\
       mapped_label line_map strip_prefixes raw = raw)
  end.
Proof.
  unfold mapped_label. destruct (line_map !! raw) as [m|]; [reflexivity|].
  induction strip_prefixes as [|p ps IH]; cbn [strip_first].
  - right. split; [constructor | reflexivity].
  - destruct (String.prefix p raw) eqn:Hp.
    + left. exists [], p, ps. split; [reflexivity|]. split; [constructor|].
      split; [exact Hp | apply drop_prefix_append; exact Hp].
    + destruct IH as [(before & q & after & -> & Hb & Hq & Heq)|[Hall Heq]].
      * left. exists (p :: before), q, after. split; [reflexivity|].
        split; [constructor; assumption|]. split; assumption.
      * right. split; [constructor; assumption | exact Heq].
Qed.

End MapLines.

(** ** Chain validator: the earliest arrival as a function of the cursor *)
Section ArrivalMonotone.
Import Validator.

Lemma feasible_ride_earlier (from_stop to_stop : string) (t1 t2 : Z)
    (fv : string * Vehicle) (b : Best) :
  t1 <= t2 -> feasible_ride from_stop to_stop t2 fv b ->
  feasible_ride from_stop to_stop t1 fv b.
Proof.
  intros Hle (Hride & Hcur & Hb). split; [exact Hride|]. split; [lia | exact Hb].
Qed.

(** Asking earlier never gives a later arrival: when a ride is found
    from the cursor [t2], a ride is found from every earlier cursor, and
    it arrives no later. *)
Theorem best_arrival_monotone (routes_files : list RoutesFile)
    (target_lines : list string) (from_stop to_stop : string) (t1 t2 : Z)
    (b2 : Best) :
  t1 <= t2 ->
  _best_vehicle_arrival routes_files target_lines from_stop to_stop t2 = Some b2 ->
  exists b1,
    _best_vehicle_arrival routes_files target_lines from_stop to_stop t1 = Some b1 /\
    arrivalTime b1 <= arrivalTime b2.
Proof.
  intros Hle H2. apply best_vehicle_arrival_Some in H2.
  destruct H2 as (before2 & fv2 & after2 & Hc2 & Hf2 & _ & _).
  pose proof (feasible_ride_earlier _ _ _ _ _ _ Hle Hf2) as Hf1.
  assert (Hin : fv2 ∈ candidates routes_files target_lines).
  { rewrite Hc2. apply elem_of_app. right. left. }
  destruct (_best_vehicle_arrival routes_files target_lines from_stop to_stop t1)
    as [b1|] eqn:H1.
  - exists b1. split; [reflexivity|].
    apply best_vehicle_arrival_Some in H1.
    destruct H1 as (before & fv & after & Hc & Hf & Hbefore & Hafter).
    rewrite Hc in Hin. apply elem_of_app in Hin. destruct Hin as [Hin|Hin].
    + specialize (Hbefore fv2 b2 Hin Hf1). lia.
    + apply elem_of_cons in Hin. destruct Hin as [->|Hin].
      * rewrite (feasible_ride_unique _ _ _ _ _ _ Hf Hf1). lia.
      * exact (Hafter fv2 b2 Hin Hf1).
  - exfalso. rewrite best_vehicle_arrival_None in H1. exact (H1 fv2 b2 Hin Hf1).
Qed.

Lemma best_arrival_monotone_witness :
  0 <= 15 /\
  _best_vehicle_arrival ex_two_vehicles ["L1"] "A" "B" 15 =
    Some (mkBest "pt.rou.xml" "fast" "L1" 0 "A" "B" 20 80) /\
  exists b1,
    _best_vehicle_arrival ex_two_vehicles ["L1"] "A" "B" 0 = Some b1 /\
    arrivalTime b1 <= 80.
Proof.
  assert (H : _best_vehicle_arrival ex_two_vehicles ["L1"] "A" "B" 15 =
              Some (mkBest "pt.rou.xml" "fast" "L1" 0 "A" "B" 20 80))
    by (vm_compute; reflexivity).
  split; [lia|]. split; [exact H|].
  apply (best_arrival_monotone ex_two_vehicles ["L1"] "A" "B" 0 15 _ ltac:(lia) H).
Defined.

End ArrivalMonotone.

(** ** Chain validator: what the report accounts for *)
Section ReportFacts.
Import Validator ValidatorFacts.

Variable known_stops : option (gset string).
Variable routes_files : list RoutesFile.
Variable line_map : gmap string string.
Variable strip_prefixes : list string.

Abbreviation cstep' := (conn_step line_map strip_prefixes).
Abbreviation cloop' := (conn_loop line_map strip_prefixes).
Abbreviation fstep' := (feas_step routes_files line_map strip_prefixes).
Abbreviation floop' := (feas_loop routes_files line_map strip_prefixes).
Abbreviation validate :=
  (_validate_one_plan known_stops routes_files line_map strip_prefixes).

(** A full report comes from the two loops over the legs. *)
Lemma validated_inv (plan : Plan) (legs : list Leg) (r : FullReport) :
  validate plan = Some (validated r) -> plan_legs plan = Some legs ->
  exists cs fs,
    cloop' 0 legs (mkConn [] None ∅ ∅) = Some cs /\
    floop' 0 legs (mkFeas (plan_depart plan) [] []) = Some fs /\
    errors r = cs_errors cs /\
    stopErrors r =
      match known_stops with
      | Some known => filter (fun s => s ∉ known) (sorted (cs_stops cs))
      | None => []
      end /\
    rideErrors r = fs_ride_errors fs /\ rides r = fs_rides fs /\
    endTimeEstimate r = time_cursor fs.
Proof.
  unfold _validate_one_plan. intros Hv Hl. rewrite Hl in Hv.
  destruct legs as [|leg legs]; [discriminate|].
  destruct (String.eqb (plan_personId plan) ""); [discriminate|].
  destruct (conn_loop _ _ 0 (leg :: legs) _) as [cs|]; [|discriminate].
  destruct (feas_loop _ _ _ 0 (leg :: legs) _) as [fs|]; [|discriminate].
  injection Hv as <-. exists cs, fs. cbn. repeat split; reflexivity.
Qed.

Lemma walk_is_no_ride (leg : Leg) : is_type "walk" leg = true -> is_type "ride" leg = false.
Proof.
  unfold is_type. intros H. apply bool_decide_eq_true in H.
  apply bool_decide_eq_false. rewrite H. discriminate.
Qed.

Lemma feas_step_count (idx : nat) (leg : Leg) (st st' : feas_state) :
  fstep' idx leg st = Some st' ->
  (length (fs_rides st') + length (fs_ride_errors st') =
   length (fs_rides st) + length (fs_ride_errors st)
   + (if is_type "ride" leg then 1 else 0))%nat.
Proof.
  unfold feas_step. destruct (is_type "walk" leg) eqn:Hw.
  - rewrite (walk_is_no_ride leg Hw). intros [= <-]. cbn. lia.
  - destruct (is_type "ride" leg); cbn [negb]; [|intros [= <-]; lia].
    destruct (_parse_ref (leg_from leg)) as [[?|from_stop]|];
      destruct (_parse_ref (leg_to leg)) as [[?|to_stop]|]; try discriminate;
      try (intros [= <-]; cbn; rewrite length_app; cbn; lia).
    destruct (_map_lines _ _ _);
      [intros [= <-]; cbn; rewrite length_app; cbn; lia|].
    destruct routes_files;
      [intros [= <-]; cbn; rewrite length_app; cbn; lia|].
    destruct (_best_vehicle_arrival _ _ _ _ _);
      intros [= <-]; cbn; rewrite length_app; cbn; lia.
Qed.

Lemma feas_loop_count (legs : list Leg) :
  forall idx st st',
    floop' idx legs st = Some st' ->
    (length (fs_rides st') + length (fs_ride_errors st') =
     length (fs_rides st) + length (fs_ride_errors st)
     + length (ride_legs legs))%nat.
Proof.
  unfold ride_legs.
  induction legs as [|leg legs IH]; intros idx st st'; cbn [feas_loop].
  - intros [= <-]. cbn. lia.
  - destruct (fstep' idx leg st) as [st1|] eqn:Hs; [|discriminate].
    intros Hl. apply IH in Hl. apply feas_step_count in Hs.
    rewrite filter_cons. destruct (is_type "ride" leg).
    + rewrite decide_True by reflexivity. cbn [length]. lia.
    + rewrite decide_False by discriminate. lia.
Qed.

(** Every ride leg is accounted for exactly once: the reported rides
    and the ride errors of a full report are together as many as the
    plan has ride legs. *)
Theorem ride_legs_accounted (plan : Plan) (legs : list Leg) (r : FullReport) :
  validate plan = Some (validated r) -> plan_legs plan = Some legs ->
  (length (rides r) + length (rideErrors r) = length (ride_legs legs))%nat.
Proof.
  intros Hv Hl.
  destruct (validated_inv plan legs r Hv Hl) as (cs & fs & _ & Hfs & _ & _ & He & Hr & _).
  rewrite He, Hr. apply feas_loop_count in Hfs. cbn in Hfs. lia.
Qed.

Lemma feas_step_rides (idx : nat) (leg : Leg) (st st' : feas_state) :
  fstep' idx leg st = Some st' ->
  fs_rides st' = fs_rides st \/
  exists b,
    fs_rides st' = fs_rides st ++ [mkRide idx (time_cursor st) b] /\
    is_type "ride" leg = true /\
    _parse_ref (leg_from leg) = Some (busStop (fromStop b)) /\
    _parse_ref (leg_to leg) = Some (busStop (toStop b)) /\
    line b ∈ _map_lines (leg_lines leg) line_map strip_prefixes /\
    time_cursor st <= boardLatest b.
Proof.
  unfold feas_step. destruct (is_type "walk" leg); [intros [= <-]; left; reflexivity|].
  destruct (is_type "ride" leg) eqn:Hr; cbn [negb]; [|intros [= <-]; left; reflexivity].
  destruct (_parse_ref (leg_from leg)) as [[?|from_stop]|];
    destruct (_parse_ref (leg_to leg)) as [[?|to_stop]|]; try discriminate;
    try (intros [= <-]; left; reflexivity).
  destruct (_map_lines (leg_lines leg) line_map strip_prefixes) as [|l ls] eqn:Hm;
    [intros [= <-]; left; reflexivity|].
  destruct routes_files as [|f fs] eqn:Hf; [intros [= <-]; left; reflexivity|].
  destruct (_best_vehicle_arrival (f :: fs) (l :: ls) from_stop to_stop (time_cursor st))
    as [b|] eqn:Hb; intros [= <-]; [|left; reflexivity].
  right. exists b. cbn [fs_rides]. split; [reflexivity|]. split; [reflexivity|].
  apply best_vehicle_arrival_Some in Hb.
  destruct Hb as (before & fv & after & Hc & (_ & Hcur & Heq) & _).
  assert (Hin : fv ∈ candidates (f :: fs) (l :: ls))
    by (rewrite Hc; apply elem_of_app; right; left).
  apply elem_of_candidates in Hin. destruct Hin as (_ & _ & _ & _ & Hline).
  rewrite Heq. cbn. repeat split; assumption.
Qed.

Lemma feas_loop_rides (all_legs : list Leg) (legs : list Leg) :
  forall before st st',
    all_legs = before ++ legs ->
    floop' (length before) legs st = Some st' ->
    Forall (reports_ride line_map strip_prefixes all_legs) (fs_rides st) ->
    Forall (reports_ride line_map strip_prefixes all_legs) (fs_rides st').
Proof.
  induction legs as [|leg legs IH]; intros before st st' Hall; cbn [feas_loop].
  - intros [= <-] H. exact H.
  - destruct (fstep' (length before) leg st) as [st1|] eqn:Hs; [|discriminate].
    intros Hl Hst. apply (IH (before ++ [leg]) st1 st').
    + rewrite <- app_assoc. exact Hall.
    + rewrite length_app. cbn [length].
      replace (length before + 1)%nat with (S (length before)) by lia. exact Hl.
    + destruct (feas_step_rides _ _ _ _ Hs) as [->|(b & -> & Hr & Hf & Ht & Hline & Hc)];
        [exact Hst|].
      apply Forall_app. split; [exact Hst|]. constructor; [|constructor].
      exists leg. cbn [legIndex ride_best earliestTimeAtFrom].
      split; [|repeat split; assumption].
      rewrite Hall. rewrite lookup_app_r by lia. rewrite Nat.sub_diag. reflexivity.
Qed.

(** Every entry of [rides] reports a ride that can be caught: it points
    to a ride leg of the plan between the two stops it names, its vehicle
    runs on one of the leg's mapped lines, and the vehicle leaves the
    "from" stop no earlier than the time the entry gives for the
    traveller's arrival there. *)
Theorem reported_rides_catchable (plan : Plan) (legs : list Leg) (r : FullReport) :
  validate plan = Some (validated r) -> plan_legs plan = Some legs ->
  Forall (reports_ride line_map strip_prefixes legs) (rides r).
Proof.
  intros Hv Hl.
  destruct (validated_inv plan legs r Hv Hl) as (cs & fs & _ & Hfs & _ & _ & _ & Hr & _).
  rewrite Hr. apply (feas_loop_rides legs legs [] _ fs eq_refl Hfs). constructor.
Qed.

(** *** The stops a plan refers to *)

Lemma elem_of_add_stop (ref : Ref) (stops : gset string) (s : string) :
  s ∈ add_stop ref stops <-> ref = busStop s \/ s ∈ stops.
Proof.
  destruct ref as [e|v]; cbn.
  - split; [tauto | intros [H|H]; [discriminate | exact H]].
  - rewrite elem_of_union, elem_of_singleton. split.
    + intros [->|H]; tauto.
    + intros [[= ->]|H]; tauto.
Qed.

Lemma conn_step_stops (idx : nat) (leg : Leg) (st st' : conn_state) (s : string) :
  cstep' idx leg st = Some st' ->
  (s ∈ cs_stops st' <-> s ∈ cs_stops st \/ references leg s).
Proof.
  unfold conn_step, references.
  destruct (is_type "walk" leg || is_type "ride" leg); cbn [negb].
  - destruct (_parse_ref (leg_from leg)) as [from_ref|]; [|discriminate].
    destruct (_parse_ref (leg_to leg)) as [to_ref|]; [|discriminate].
    intros [= <-]. cbn [cs_stops]. rewrite !elem_of_add_stop. split.
    + intros [->|[->|H]]; [right|right|left]; tauto.
    + intros [H|[_ [[= ->]|[= ->]]]]; tauto.
  - intros [= <-]. cbn. split; [tauto|]. intros [H|[H _]]; [exact H | discriminate].
Qed.

Lemma conn_loop_stops (legs : list Leg) (s : string) :
  forall idx st st',
    cloop' idx legs st = Some st' ->
    (s ∈ cs_stops st' <->
     s ∈ cs_stops st \/ exists leg, leg ∈ legs /\ references leg s).
Proof.
  induction legs as [|leg legs IH]; intros idx st st'; cbn [conn_loop].
  - intros [= <-]. split; [tauto|]. intros [H|(leg & Hin & _)]; [exact H|].
    apply elem_of_nil in Hin. destruct Hin.
  - destruct (cstep' idx leg st) as [st1|] eqn:Hs; [|discriminate].
    intros Hl. rewrite (IH _ _ _ Hl), (conn_step_stops _ _ _ _ s Hs). split.
    + intros [[H|H]|(l & Hin & Hr)]; [tauto | |].
      * right. exists leg. split; [left | exact H].
      * right. exists l. split; [right; exact Hin | exact Hr].
    + intros [H|(l & Hin & Hr)]; [tauto|].
      apply elem_of_cons in Hin. destruct Hin as [->|Hin]; [tauto|].
      right. exists l. split; assumption.
Qed.

Lemma insert_sorted_perm (x : string) (l : list string) :
  insert_sorted x l ≡ₚ x :: l.
Proof.
  induction l as [|y l IH]; cbn; [reflexivity|].
  destruct (String.leb x y); [reflexivity|].
  rewrite IH. apply Permutation_swap.
Qed.

Lemma sorted_perm (S : gset string) : sorted S ≡ₚ elements S.
Proof.
  unfold sorted. induction (elements S) as [|x l IH]; cbn; [reflexivity|].
  rewrite insert_sorted_perm, IH. reflexivity.
Qed.

(** The stops a report calls unknown are the stops, each named once,
    that a walk or ride leg of the plan has as an anchor and the stop
    files do not hold; without stop files no stop is called unknown. *)
Theorem unknown_stops_reported (plan : Plan) (legs : list Leg) (r : FullReport) :
  validate plan = Some (validated r) -> plan_legs plan = Some legs ->
  NoDup (stopErrors r) /\
  forall s,
    s ∈ stopErrors r <->
    (exists known, known_stops = Some known /\ s ∉ known) /\
    exists leg, leg ∈ legs /\ references leg s.
Proof.
  intros Hv Hl.
  destruct (validated_inv plan legs r Hv Hl) as (cs & fs & Hcs & _ & _ & Hs & _).
  rewrite Hs. destruct known_stops as [known|].
  - split.
    + apply NoDup_filter. rewrite sorted_perm. apply NoDup_elements.
    + intros s. rewrite list_elem_of_filter, sorted_perm, elem_of_elements.
      rewrite (conn_loop_stops legs s _ _ _ Hcs). cbn [cs_stops].
      rewrite elem_of_empty. split.
      * intros [Hn [[]|H]]. split; [eauto | exact H].
      * intros [(k & Hk & Hn) Hleg]. injection Hk as <-.
        split; [exact Hn | right; exact Hleg].
  - split; [constructor|]. intros s. rewrite elem_of_nil. split; [tauto|].
    intros [(k & Hk & _) _]. discriminate.
Qed.

(** *** Plans without rides *)

Lemma feas_loop_walks (legs : list Leg) :
  ride_legs legs = [] ->
  forall idx st,
    floop' idx legs st =
    Some (mkFeas (time_cursor st + walk_time legs) (fs_ride_errors st) (fs_rides st)).
Proof.
  unfold ride_legs.
  induction legs as [|leg legs IH]; intros Hr idx st; cbn [feas_loop walk_time foldr].
  - rewrite Z.add_0_r. destruct st; reflexivity.
  - rewrite filter_cons in Hr. destruct (is_type "ride" leg) eqn:Hride.
    + rewrite decide_True in Hr by reflexivity. discriminate.
    + rewrite decide_False in Hr by discriminate.
      unfold feas_step. rewrite Hride. cbn [negb].
      destruct (is_type "walk" leg).
      * rewrite (IH Hr). cbn. f_equal. f_equal. unfold walk_time. lia.
      * rewrite (IH Hr). reflexivity.
Qed.

(** A plan without ride legs has no ride errors and no rides, and its
    estimated completion time is its departure time plus the durations
    of its walk legs, a negative duration counting as zero. *)
Theorem walking_plan_estimate (plan : Plan) (legs : list Leg) (r : FullReport) :
  validate plan = Some (validated r) -> plan_legs plan = Some legs ->
  ride_legs legs = [] ->
  rideErrors r = [] /\ rides r = [] /\
  endTimeEstimate r = plan_depart plan + walk_time legs.
Proof.
  intros Hv Hl Hr.
  destruct (validated_inv plan legs r Hv Hl)
    as (cs & fs & _ & Hfs & _ & _ & He & Hrd & Hend).
  rewrite (feas_loop_walks legs Hr) in Hfs. injection Hfs as <-.
  rewrite He, Hrd, Hend. repeat split.
Qed.

End ReportFacts.

(** Scenario B as an instance: one ride leg, one reported ride. *)
Lemma ride_legs_accounted_witness :
  exists r,
    Validator._validate_one_plan (Some {["X"; "Y"]}) Validator.ex_routes_B ∅
      Validator.ex_strip_prefixes Validator.ex_plan_B = Some (Validator.validated r) /\
    (length (Validator.rides r) + length (Validator.rideErrors r) =
     length (ValidatorFacts.ride_legs
               (default [] (Validator.plan_legs Validator.ex_plan_B))))%nat.
Proof.
  eexists. split; [vm_compute; reflexivity|].
  apply (ride_legs_accounted (Some {["X"; "Y"]}) Validator.ex_routes_B ∅
           Validator.ex_strip_prefixes Validator.ex_plan_B);
    [vm_compute; reflexivity | reflexivity].
Defined.

Lemma reported_rides_catchable_witness :
  exists r,
    Validator._validate_one_plan (Some {["X"; "Y"]}) Validator.ex_routes_B ∅
      Validator.ex_strip_prefixes Validator.ex_plan_B = Some (Validator.validated r) /\
    Forall (ValidatorFacts.reports_ride ∅ Validator.ex_strip_prefixes
              (default [] (Validator.plan_legs Validator.ex_plan_B)))
      (Validator.rides r).
Proof.
  eexists. split; [vm_compute; reflexivity|].
  apply (reported_rides_catchable (Some {["X"; "Y"]}) Validator.ex_routes_B ∅
           Validator.ex_strip_prefixes Validator.ex_plan_B);
    [vm_compute; reflexivity | reflexivity].
Defined.

(** Scenario B against stop files that hold stop X only. *)
Lemma unknown_stops_reported_witness :
  exists r,
    Validator._validate_one_plan (Some {["X"]}) Validator.ex_routes_B ∅
      Validator.ex_strip_prefixes Validator.ex_plan_B = Some (Validator.validated r) /\
    Validator.stopErrors r = ["Y"] /\
    NoDup (Validator.stopErrors r).
Proof.
  eexists. split; [vm_compute; reflexivity|]. split; [vm_compute; reflexivity|].
  apply (unknown_stops_reported (Some {["X"]}) Validator.ex_routes_B ∅
           Validator.ex_strip_prefixes Validator.ex_plan_B
           (default [] (Validator.plan_legs Validator.ex_plan_B)));
    [vm_compute; reflexivity | reflexivity].
Defined.

(** A walk of 50 s and a walk whose duration is given as -5 s. *)
Lemma walking_plan_estimate_witness :
  let legs :=
    [ Validator.mkLeg (Some "walk") (Validator.mkRefObj (Some "e0") None)
        (Validator.mkRefObj None (Some "X")) [] 50;
      Validator.mkLeg (Some "walk") (Validator.mkRefObj None (Some "X"))
        (Validator.mkRefObj (Some "e9") None) [] (-5) ] in
  exists r,
    Validator._validate_one_plan None [] ∅ [] (Validator.mkPlan "p2" 100 (Some legs)) =
      Some (Validator.validated r) /\
    Validator.endTimeEstimate r = 150 /\
    Validator.endTimeEstimate r = 100 + ValidatorFacts.walk_time legs.
Proof.
  intros legs. eexists. split; [vm_compute; reflexivity|].
  split; [vm_compute; reflexivity|].
  apply (walking_plan_estimate None [] ∅ [] (Validator.mkPlan "p2" 100 (Some legs)) legs);
    [vm_compute; reflexivity | reflexivity | reflexivity].
Defined.

(** ** Intermodal planner: the legs of a plan *)
Section PlannerLegs.
Import Planner PlanFacts.

Lemma stages_loop_legs (dest_edge : string) (stages : list Stage) :
  forall idx ls cur ls',
    stages_loop dest_edge idx stages ls cur = inr ls' ->
    exists new,
      ls' = ls ++ new /\
      Forall2 (leg_of_stage dest_edge) stages new /\
      (forall l, head new = Some l -> leg_from l = cur).
Proof.
  induction stages as [|st rest IH]; intros idx ls cur ls'; cbn [stages_loop].
  - intros [= <-]. exists []. rewrite app_nil_r.
    split; [reflexivity|]. split; [exact (List.Forall2_nil _) | discriminate].
  - assert (Hstep : forall l cur',
              leg_of_stage dest_edge st l -> leg_from l = cur ->
              stages_loop dest_edge (S idx) rest (ls ++ [l]) cur' = inr ls' ->
              exists new,
                ls' = ls ++ new /\
                Forall2 (leg_of_stage dest_edge) (st :: rest) new /\
                (forall l0, head new = Some l0 -> leg_from l0 = cur)).
    { intros l cur' Hl Hfrom Hloop.
      destruct (IH _ _ _ _ Hloop) as (new & -> & Hnew & _).
      exists (l :: new). rewrite <- app_assoc. split; [reflexivity|].
      split; [apply List.Forall2_cons; assumption|].
      intros l0 [= <-]. exact Hfrom. }
    unfold leg_of_stage in Hstep.
    destruct (is_ride st) eqn:Hr.
    + destruct cur as [e|s]; [discriminate|].
      destruct (String.eqb_spec (stage_destStop st) "") as [|Hd]; [discriminate|].
      apply Hstep; [|reflexivity]. cbn. repeat split; eauto.
    + destruct (is_walk st) eqn:Hw; [|discriminate].
      destruct (nonempty (stage_destStop st)) eqn:Hn;
        (apply Hstep; [|reflexivity]); cbn; rewrite ?Hn; repeat split.
Qed.

Lemma stages_to_plan_fields (stages : list Stage) (pid : string) (dep : Z)
    (origin dest_edge : string) (plan : Plan) :
  _stages_to_plan stages pid dep origin dest_edge = inr plan ->
  personId plan = pid /\ depart plan = dep /\
  meta_fromEdge plan = origin /\ meta_toEdge plan = dest_edge.
Proof.
  unfold _stages_to_plan.
  destruct (stages_loop dest_edge 0 stages [] (edge origin)); [discriminate|].
  intros [= <-]. repeat split.
Qed.

(** A plan [_stages_to_plan] returns has one leg for each stage, in the
    order of the stages: a ride stage gives a ride leg from a bus stop to
    the stage's stop, which is not empty, with the stage's line as its
    only line if it has one; any other stage gives a walk leg, without
    lines, to the stage's stop, or to the destination edge when the
    stage names no stop.  The plan carries the person, the departure time
    and the two edges of the request. *)
Theorem stages_to_plan_legs (stages : list Stage) (pid : string) (dep : Z)
    (origin dest_edge : string) (plan : Plan) :
  _stages_to_plan stages pid dep origin dest_edge = inr plan ->
  Forall2 (leg_of_stage dest_edge) stages (legs plan) /\
  personId plan = pid /\ depart plan = dep /\
  meta_fromEdge plan = origin /\ meta_toEdge plan = dest_edge.
Proof.
  unfold _stages_to_plan.
  destruct (stages_loop dest_edge 0 stages [] (edge origin)) as [err|ls] eqn:Hloop;
    [discriminate|].
  intros [= <-]. cbn.
  destruct (stages_loop_legs _ _ _ _ _ _ Hloop) as (new & -> & Hnew & _).
  repeat split. exact Hnew.
Qed.

Lemma stages_to_plan_legs_witness :
  exists plan,
    _stages_to_plan ex_stages "p0" 0 "from" "to" = inr plan /\
    Forall2 (leg_of_stage "to") ex_stages (legs plan).
Proof.
  eexists. split; [vm_compute; reflexivity|].
  apply (stages_to_plan_legs ex_stages "p0" 0 "from" "to"). vm_compute. reflexivity.
Defined.

Lemma stages_loop_error (dest_edge : string) (stages : list Stage) :
  forall idx ls cur err,
    stages_loop dest_edge idx stages ls cur = inl err ->
    exists before st after ls1,
      stages = before ++ st :: after /\
      stages_loop dest_edge idx before ls cur = inr ls1 /\
      rejects (idx + length before) (anchor_after dest_edge cur before) st err.
Proof.
  induction stages as [|st rest IH]; intros idx ls cur err; cbn [stages_loop];
    [discriminate|].
  assert (Hhere : forall e, rejects idx cur st e ->
            exists before st0 after ls1,
              st :: rest = before ++ st0 :: after /\
              stages_loop dest_edge idx before ls cur = inr ls1 /\
              rejects (idx + length before)
                (anchor_after dest_edge cur before) st0 e).
  { intros e He. exists [], st, rest, ls. cbn. rewrite Nat.add_0_r. auto. }
  assert (Hlater : forall l cur',
            anchor_step dest_edge st = cur' ->
            (forall rest' ls0 idx0,
               stages_loop dest_edge idx0 (st :: rest') ls0 cur =
               stages_loop dest_edge (S idx0) rest' (ls0 ++ [l]) cur') ->
            stages_loop dest_edge (S idx) rest (ls ++ [l]) cur' = inl err ->
            exists before st0 after ls1,
              st :: rest = before ++ st0 :: after /\
              stages_loop dest_edge idx before ls cur = inr ls1 /\
              rejects (idx + length before)
                (anchor_after dest_edge cur before) st0 err).
  { intros l cur' Hcur Hunf Hloop.
    destruct (IH _ _ _ _ Hloop) as (before & st0 & after & ls1 & -> & Hb & Hrej).
    exists (st :: before), st0, after, ls1. split; [reflexivity|].
    split; [rewrite Hunf; exact Hb|].
    cbn [length anchor_after fold_left]. rewrite Hcur.
    replace (idx + S (length before))%nat with (S idx + length before)%nat by lia.
    exact Hrej. }
  unfold anchor_step in Hlater.
  destruct (is_ride st) eqn:Hr.
  - destruct cur as [e|s].
    + intros [= <-]. apply Hhere. unfold rejects. rewrite Hr. eauto.
    + destruct (String.eqb (stage_destStop st) "") eqn:Hd.
      * intros [= <-]. apply Hhere. unfold rejects. rewrite Hr.
        apply String.eqb_eq in Hd. auto.
      * apply Hlater.
        -- unfold nonempty. rewrite Hd. reflexivity.
        -- intros rest' ls0 idx0. cbn [stages_loop]. rewrite Hr, Hd. reflexivity.
  - destruct (is_walk st) eqn:Hw.
    + destruct (nonempty (stage_destStop st)) eqn:Hn; apply Hlater;
        try reflexivity; intros rest' ls0 idx0; cbn [stages_loop];
        rewrite Hr, Hw, Hn; reflexivity.
    + intros [= <-]. apply Hhere. unfold rejects. rewrite Hr, Hw. auto.
Qed.

(** [_stages_to_plan] fails at the first stage it cannot convert, and
    for the reason it gives: the stage is a ride but the traveller stands
    on an edge (at the origin, or after a walk that names no stop), or
    the stage is a ride that names no stop, or the stage is neither a
    ride nor a walk; the stages before it all convert. *)
Theorem stages_to_plan_error (stages : list Stage) (pid : string) (dep : Z)
    (origin dest_edge : string) (err : plan_error) :
  _stages_to_plan stages pid dep origin dest_edge = inl err ->
  exists before st after plan,
    stages = before ++ st :: after /\
    _stages_to_plan before pid dep origin dest_edge = inr plan /\
    rejects (length before) (anchor_after dest_edge (edge origin) before) st err.
Proof.
  unfold _stages_to_plan.
  destruct (stages_loop dest_edge 0 stages [] (edge origin)) as [e|ls] eqn:Hloop;
    [|discriminate].
  intros [= <-].
  destruct (stages_loop_error _ _ _ _ _ _ Hloop)
    as (before & st & after & ls1 & Hs & Hb & Hrej).
  exists before, st, after. rewrite Hb. eexists. split; [exact Hs|].
  split; [reflexivity | exact Hrej].
Qed.

Lemma stages_to_plan_error_witness :
  _stages_to_plan [ex_walk_to ""; ex_ride "L1" "b"] "p0" 0 "from" "to" =
    inl (ride_not_from_busStop 1) /\
  exists before st after plan,
    [ex_walk_to ""; ex_ride "L1" "b"] = before ++ st :: after /\
    _stages_to_plan before "p0" 0 "from" "to" = inr plan /\
    rejects (length before) (anchor_after "to" (edge "from") before) st
      (ride_not_from_busStop 1).
Proof.
  split; [vm_compute; reflexivity|].
  apply (stages_to_plan_error _ "p0" 0 "from" "to"). vm_compute. reflexivity.
Defined.

End PlannerLegs.

(** ** Intermodal planner: the statistics of a stage sequence *)
Section PlannerStats.
Import Planner PlanFacts.

Lemma stats_loop (n : nat) (stages : list Stage) :
  forall k rc first_len last_len,
    (k + length stages = n)%nat ->
    fold_left (stats_step n) (imap (fun i => pair (k + i)%nat) stages)
      (rc, first_len, last_len) =
    (rc + Z.of_nat (length (ride_stages stages)),
     match stages with
     | st :: _ =>
         if is_walk st && (k =? 0)%nat && nonempty (stage_destStop st)
         then Some (stage_length st) else first_len
     | [] => first_len
     end,
     match last stages with
     | Some st =>
         if is_walk st && negb (nonempty (stage_destStop st))
         then Some (stage_length st) else last_len
     | None => last_len
     end).
Proof.
  unfold ride_stages.
  induction stages as [|st rest IH]; intros k rc first_len last_len Hn.
  - cbn. rewrite Z.add_0_r. reflexivity.
  - rewrite imap_cons. cbn [fold_left]. unfold stats_step at 2.
    rewrite (imap_ext _ (fun i => pair (S k + i)%nat)) by (intros; cbn; f_equal; lia).
    rewrite IH by (cbn in Hn; lia).
    rewrite filter_cons. rewrite Nat.add_0_r.
    assert (Hlast : bool_decide (Z.of_nat k = Z.of_nat n - 1) =
                    bool_decide (rest = [])).
    { apply bool_decide_ext. cbn in Hn. destruct rest; cbn in *; split;
        intros; try discriminate; try lia; reflexivity. }
    rewrite Hlast. f_equal; [f_equal|].
    + destruct (is_ride st).
      * rewrite decide_True by reflexivity. cbn [length]. lia.
      * rewrite decide_False by discriminate. lia.
    + destruct rest as [|st' rest']; [reflexivity|]. cbn [Nat.eqb].
      rewrite andb_false_r. reflexivity.
    + destruct rest as [|st' rest'].
      * cbn [last]. rewrite bool_decide_eq_true_2 by reflexivity.
        rewrite andb_true_r. reflexivity.
      * rewrite bool_decide_eq_false_2 by discriminate.
        rewrite andb_false_r. cbn [andb].
        change (last (st :: st' :: rest')) with (last (st' :: rest')).
        destruct (last (st' :: rest')) eqn:Hl; [reflexivity|].
        apply last_None in Hl. discriminate.
Qed.

(** The statistics of a stage sequence: [rideCount] is the number of
    ride stages, and [transferCount] is one less, but never negative;
    [accessWalkLength] is the length of the first stage when that is a
    walk to a stop, and is absent otherwise; [egressWalkLength] is the
    length of the last stage when that is a walk that names no stop, and
    is absent otherwise. *)
Theorem plan_stats_counts (stages : list Stage) :
  let stats := _plan_stats_from_stages stages in
  rideCount stats = Z.of_nat (length (ride_stages stages)) /\
  transferCount stats = Z.of_nat (length (ride_stages stages) - 1) /\
  accessWalkLength stats =
    match head stages with
    | Some st =>
        if is_walk st && nonempty (stage_destStop st)
        then Some (stage_length st) else None
    | None => None
    end /\
  egressWalkLength stats =
    match last stages with
    | Some st =>
        if is_walk st && negb (nonempty (stage_destStop st))
        then Some (stage_length st) else None
    | None => None
    end.
Proof.
  cbv zeta. unfold _plan_stats_from_stages.
  change (imap pair stages) with (imap (fun i => pair (0 + i)%nat) stages).
  rewrite (stats_loop (length stages) stages 0 0 None None eq_refl).
  cbn [rideCount transferCount accessWalkLength egressWalkLength].
  split; [lia|]. split; [lia|]. split; [|reflexivity].
  destruct stages as [|st rest]; [reflexivity|]. cbn [head Nat.eqb].
  rewrite andb_true_r. reflexivity.
Qed.

End PlannerStats.

(** ** Intermodal planner: relaxing the constraints *)
Section PlannerRelaxation.
Import Planner PlanFacts.

(** Wider bounds accept what narrower bounds accept, and no bounds at
    all accept every plan. *)
Theorem meets_constraints_monotone (stats : PlanStats) (w w' : Q) (t t' : Z) :
  (_meets_constraints stats (Some w) (Some t) = true ->
   (w <= w')%Q -> t <= t' ->
   _meets_constraints stats (Some w') (Some t') = true) /\
  _meets_constraints stats None None = true.
Proof.
  split; [|reflexivity]. rewrite !meets_constraints_iff.
  intros (Ht & Ha & He) Hw Hle. split; [|split].
  - intros t0 [= <-]. specialize (Ht t eq_refl). lia.
  - intros w0 a [= <-] Hacc. specialize (Ha w a eq_refl Hacc). lra.
  - intros w0 e [= <-] Hegr. specialize (He w e eq_refl Hegr). lra.
Qed.

Lemma meets_both (stats : PlanStats) (w : Q) (t : Z) :
  _meets_constraints stats (Some w) (Some t) = transfers_ok stats t && walk_ok stats w.
Proof.
  unfold transfers_ok, walk_ok, _meets_constraints. cbn [andb].
  rewrite andb_true_r. reflexivity.
Qed.

Lemma accept_app (l1 l2 : list (Q * Z)) (stats : PlanStats) :
  accept (l1 ++ l2) stats =
  match accept l1 stats with
  | Some p => Some p
  | None => accept l2 stats
  end.
Proof.
  induction l1 as [|[w t] l1 IH]; [reflexivity|]. cbn [app accept].
  destruct (_meets_constraints stats (Some w) (Some t)); [reflexivity | exact IH].
Qed.

Lemma accept_row (stats : PlanStats) (t : Z) (walk_limits : list Q) :
  accept (map (fun w => (w, t)) walk_limits) stats =
  if transfers_ok stats t then
    match List.find (walk_ok stats) walk_limits with
    | Some w => Some (w, t)
    | None => None
    end
  else None.
Proof.
  induction walk_limits as [|w ws IH]; cbn [map accept List.find].
  - destruct (transfers_ok stats t); reflexivity.
  - rewrite meets_both, IH.
    destruct (transfers_ok stats t), (walk_ok stats w); reflexivity.
Qed.

(** The search over the relaxation grid settles the two bounds
    independently: the pair accepted holds the first walk limit of the
    list that the plan's walks are within and the first transfer bound of
    the list that its transfers are within, and the request is infeasible
    exactly when one of the two lists has no such entry.  The grid has an
    entry for each pair of a transfer bound and a walk limit. *)
Theorem accept_over_grid (stats : PlanStats) (walk_limits : list Q)
    (max_transfers : list Z) :
  accept (_relaxation_grid walk_limits max_transfers) stats =
    match List.find (walk_ok stats) walk_limits,
          List.find (transfers_ok stats) max_transfers with
    | Some w, Some t => Some (w, t)
    | _, _ => None
    end /\
  length (_relaxation_grid walk_limits max_transfers) =
    (length max_transfers * length walk_limits)%nat.
Proof.
  unfold _relaxation_grid. split.
  - induction max_transfers as [|t ts IH]; cbn [flat_map List.find].
    + destruct (List.find _ walk_limits); reflexivity.
    + rewrite accept_app, accept_row, IH.
      destruct (transfers_ok stats t); [|reflexivity].
      destruct (List.find (walk_ok stats) walk_limits); reflexivity.
  - induction max_transfers as [|t ts IH]; [reflexivity|].
    cbn [flat_map length]. rewrite length_app, length_map, IH. lia.
Qed.

End PlannerRelaxation.

(** ** Intermodal planner: one result for each request *)
Section PlannerRun.
Import Planner PlanFacts.

Variable findIntermodalRoute : OD -> option (list Stage).

(** The key of a plan and of a request: person, departure time and the
    two edges. *)
Lemma od_step_cases (relax : list (Q * Z)) (plans : list Plan)
    (results : list Item) (od : OD) :
  (exists plan it,
     od_step findIntermodalRoute relax (plans, results) od =
       (plans ++ [plan], results ++ [it]) /\
     item_od it = od /\ is_ok it = true /\
     (personId plan, depart plan, meta_fromEdge plan, meta_toEdge plan) =
       (person_id od, od_depart od, from_edge od, to_edge od) /\
     plan_of_request findIntermodalRoute relax it plan) \/
  (exists it,
     od_step findIntermodalRoute relax (plans, results) od =
       (plans, results ++ [it]) /\
     item_od it = od /\ is_ok it = false).
Proof.
  unfold od_step. destruct (findIntermodalRoute od) as [stages|] eqn:Hf.
  - destruct (accept relax (_plan_stats_from_stages stages)) as [[w t]|] eqn:Ha.
    + destruct (_stages_to_plan stages (person_id od) (od_depart od)
                  (from_edge od) (to_edge od)) as [err|plan] eqn:Hp.
      * right. eexists. split; [reflexivity|]. split; reflexivity.
      * left. eexists _, _. split; [reflexivity|].
        pose proof (stages_to_plan_fields _ _ _ _ _ _ Hp) as (Hpid & Hdep & Hfrom & Hto).
        cbn. split; [reflexivity|]. split; [reflexivity|].
        split; [congruence|].
        exists stages, w, t, plan. cbn. auto.
    + right. eexists. split; [reflexivity|]. split; reflexivity.
  - right. eexists. split; [reflexivity|]. split; reflexivity.
Qed.

Lemma plan_loop_accounting (relax : list (Q * Z)) (ods : list OD) :
  forall plans results,
    exists new_plans new_results,
      fold_left (od_step findIntermodalRoute relax) ods (plans, results) =
        (plans ++ new_plans, results ++ new_results) /\
      map item_od new_results = ods /\
      map (fun p => (personId p, depart p, meta_fromEdge p, meta_toEdge p)) new_plans =
      map (fun it => (person_id (item_od it), od_depart (item_od it),
                      from_edge (item_od it), to_edge (item_od it)))
        (filter (fun it => is_ok it = true) new_results) /\
      Forall2 (plan_of_request findIntermodalRoute relax)
        (filter (fun it => is_ok it = true) new_results) new_plans.
Proof.
  induction ods as [|od ods IH]; intros plans results.
  - exists [], []. cbn. rewrite !app_nil_r. repeat split. exact (List.Forall2_nil _).
  - cbn [fold_left].
    destruct (od_step_cases relax plans results od)
      as [(plan & it & -> & Hod & Hok & Hkey & Hm)|(it & -> & Hod & Hok)].
    + destruct (IH (plans ++ [plan]) (results ++ [it])) as (np & nr & -> & Hr & Hp & Hms).
      exists (plan :: np), (it :: nr). rewrite <- !app_assoc.
      split; [reflexivity|]. split; [cbn; congruence|].
      rewrite filter_cons, decide_True by exact Hok. cbn [map].
      split; [|apply List.Forall2_cons; assumption].
      rewrite Hkey, Hod. f_equal. exact Hp.
    + destruct (IH plans (results ++ [it])) as (np & nr & -> & Hr & Hp & Hms).
      exists np, (it :: nr). rewrite <- !app_assoc.
      split; [reflexivity|]. split; [cbn; congruence|].
      rewrite filter_cons, decide_False by (rewrite Hok; discriminate).
      split; assumption.
Qed.

(** A run of the planner reports on every request, in the order of the
    requests, and emits a plan for exactly the requests it reports as ok,
    in the same order: each plan is for the person, the departure time
    and the two edges of its request, is made of the stages the router
    found for it, and records, as the report does, the statistics of
    these stages and the pair of bounds that was the first of the grid
    to accept them. *)
Theorem plan_all_accounting (walk_limit : list Q) (max_transfers : list Z)
    (ods : list OD) :
  let plans := fst (plan_all findIntermodalRoute walk_limit max_transfers ods) in
  let results := snd (plan_all findIntermodalRoute walk_limit max_transfers ods) in
  map item_od results = ods /\
  map (fun p => (personId p, depart p, meta_fromEdge p, meta_toEdge p)) plans =
    map (fun it => (person_id (item_od it), od_depart (item_od it),
                    from_edge (item_od it), to_edge (item_od it)))
      (filter (fun it => is_ok it = true) results) /\
  Forall2
    (plan_of_request findIntermodalRoute (_relaxation_grid walk_limit max_transfers))
    (filter (fun it => is_ok it = true) results) plans.
Proof.
  cbv zeta. unfold plan_all.
  destruct (plan_loop_accounting (_relaxation_grid walk_limit max_transfers) ods [] [])
    as (np & nr & -> & Hr & Hp & Hm).
  cbn [fst snd app]. auto.
Qed.

End PlannerRun.

(** ** Intermodal planner: the requests *)
Section PlannerRequests.
Import Planner Requests Timetable.

Lemma parse_od_ok (defaults : Defaults) (idx : nat) (it : ODItem) (od : OD) :
  parse_od defaults idx it = inr od ->
  person_id od <> "" /\ from_edge od <> "" /\ to_edge od <> "".
Proof.
  unfold parse_od. destruct it as [o|]; [|discriminate]. cbv zeta.
  destruct (String.eqb_spec (strip (first_of (obj_fromEdge o) (obj_originEdge o))) "")
    as [|Hf]; [discriminate|].
  destruct (String.eqb_spec (strip (first_of (obj_toEdge o) (obj_destinationEdge o))) "")
    as [|Ht]; [discriminate|].
  cbn [orb]. intros [= <-]. cbn. split; [|split; assumption].
  destruct (String.eqb_spec (strip (first_of (obj_personId o) (def_personId defaults))) "")
    as [|Hp]; [discriminate | exact Hp].
Qed.

Lemma parse_loop_ok (defaults : Defaults) (items : list ODItem) :
  forall idx ods ods',
    parse_loop defaults idx items ods = inr ods' ->
    exists new,
      ods' = ods ++ new /\
      Forall2 (fun it od => exists i, parse_od defaults i it = inr od) items new /\
      forall k od, new !! k = Some od ->
        exists it, items !! k = Some it /\ parse_od defaults (idx + k) it = inr od.
Proof.
  induction items as [|it rest IH]; intros idx ods ods'; cbn [parse_loop].
  - intros [= <-]. exists []. rewrite app_nil_r. split; [reflexivity|].
    split; [exact (List.Forall2_nil _)|]. intros k od Hk.
    rewrite lookup_nil in Hk. discriminate.
  - destruct (parse_od defaults idx it) as [err|od] eqn:Hp; [discriminate|].
    intros Hl. destruct (IH _ _ _ Hl) as (new & -> & Hf & Hk).
    exists (od :: new). rewrite <- app_assoc. split; [reflexivity|].
    split; [apply List.Forall2_cons; eauto|].
    intros [|k] od'; cbn.
    + intros [= <-]. exists it. rewrite Nat.add_0_r. auto.
    + intros Hn. destruct (Hk k od' Hn) as (it' & Hit & Hpo).
      exists it'. split; [exact Hit|].
      replace (idx + S k)%nat with (S idx + k)%nat by lia. exact Hpo.
Qed.

(** The requests [_parse_ods] returns: one for each item of the list,
    in order, each the request of its item, with a person id and two
    edges that are not empty; the list is not empty, and a single bad
    item makes the call fail as a whole. *)
Theorem parse_ods_well_formed (defaults : Defaults) (items : option (list ODItem))
    (ods : list OD) :
  _parse_ods defaults items = inr ods ->
  exists its,
    items = Some its /\ its <> [] /\ length ods = length its /\
    (forall k od, ods !! k = Some od ->
       exists it, its !! k = Some it /\ parse_od defaults k it = inr od) /\
    Forall (fun od => person_id od <> "" /\ from_edge od <> "" /\ to_edge od <> "") ods.
Proof.
  unfold _parse_ods. destruct items as [[|it its]|]; try discriminate.
  intros Hl. destruct (parse_loop_ok _ _ _ _ _ Hl) as (new & -> & Hf & Hk).
  exists (it :: its). cbn [app]. split; [reflexivity|]. split; [discriminate|].
  split; [symmetry; eapply Forall2_length; exact Hf|]. split; [exact Hk|].
  apply Forall_forall. intros od Hin. apply list_elem_of_lookup in Hin.
  destruct Hin as [k Hin]. destruct (Hk k od Hin) as (it' & _ & Hp).
  eapply parse_od_ok. exact Hp.
Qed.

Lemma parse_ods_well_formed_witness :
  let items :=
    [ od_object (mkODObj (Some " alice ") (Some 28800) (Some "e1") None (Some "e2") None);
      od_object (mkODObj None None None (Some "e3") None (Some "e4")) ] in
  _parse_ods (mkDefaults None (Some 600)) (Some items) =
    inr [mkOD "alice" 28800 "e1" "e2"; mkOD "p1" 600 "e3" "e4"] /\
  exists its,
    Some items = Some its /\ its <> [] /\
    length [mkOD "alice" 28800 "e1" "e2"; mkOD "p1" 600 "e3" "e4"] = length its.
Proof.
  intros items.
  assert (H : _parse_ods (mkDefaults None (Some 600)) (Some items) =
              inr [mkOD "alice" 28800 "e1" "e2"; mkOD "p1" 600 "e3" "e4"])
    by (vm_compute; reflexivity).
  split; [exact H|].
  destruct (parse_ods_well_formed _ _ _ H) as (its & H1 & H2 & H3 & _).
  exists its. auto.
Defined.

Lemma min_depart_le (ods : list OD) :
  forall d, min_depart d ods <= d /\
            forall od, od ∈ ods -> min_depart d ods <= od_depart od.
Proof.
  unfold min_depart. induction ods as [|o ods IH]; intros d; cbn [fold_left].
  - split; [lia|]. intros od Hin. apply elem_of_nil in Hin. destruct Hin.
  - destruct (IH (if od_depart o <? d then od_depart o else d)) as [H1 H2].
    destruct (Z.ltb_spec (od_depart o) d).
    + split; [lia|]. intros od Hin. apply elem_of_cons in Hin.
      destruct Hin as [->|Hin]; [exact H1 | apply H2; exact Hin].
    + split; [exact H1|]. intros od Hin. apply elem_of_cons in Hin.
      destruct Hin as [->|Hin]; [lia | apply H2; exact Hin].
Qed.

Lemma max_depart_ge (ods : list OD) :
  forall d, d <= max_depart d ods /\
            forall od, od ∈ ods -> od_depart od <= max_depart d ods.
Proof.
  unfold max_depart. induction ods as [|o ods IH]; intros d; cbn [fold_left].
  - split; [lia|]. intros od Hin. apply elem_of_nil in Hin. destruct Hin.
  - destruct (IH (if d <? od_depart o then od_depart o else d)) as [H1 H2].
    destruct (Z.ltb_spec d (od_depart o)).
    + split; [lia|]. intros od Hin. apply elem_of_cons in Hin.
      destruct Hin as [->|Hin]; [exact H1 | apply H2; exact Hin].
    + split; [exact H1|]. intros od Hin. apply elem_of_cons in Hin.
      destruct Hin as [->|Hin]; [lia | apply H2; exact Hin].
Qed.

(** The time window the planner loads public transport for starts at a
    time that is not negative, and holds the departure time of every
    request that departs at time 0 or later, provided the two margins are
    not negative. *)
Theorem time_window_covers (ods : list OD) (pt_window_before pt_window_after : Z)
    (begin_ end_ : Z) :
  time_window ods pt_window_before pt_window_after = Some (begin_, end_) ->
  0 <= pt_window_before -> 0 <= pt_window_after ->
  0 <= begin_ /\
  forall od, od ∈ ods -> 0 <= od_depart od -> begin_ <= od_depart od <= end_.
Proof.
  unfold time_window. destruct ods as [|o rest]; [discriminate|].
  intros [= <- <-] Hb Ha. split; [lia|]. intros od Hin Hd.
  destruct (min_depart_le rest (od_depart o)) as [Hm1 Hm2].
  destruct (max_depart_ge rest (od_depart o)) as [HM1 HM2].
  apply elem_of_cons in Hin. destruct Hin as [->|Hin].
  - lia.
  - specialize (Hm2 od Hin). specialize (HM2 od Hin). lia.
Qed.

Lemma time_window_covers_witness :
  time_window [mkOD "a" 30000 "e1" "e2"; mkOD "b" 1000 "e3" "e4"] 3600 7200 =
    Some (0, 37200) /\
  forall od, od ∈ [mkOD "a" 30000 "e1" "e2"; mkOD "b" 1000 "e3" "e4"] ->
    0 <= od_depart od -> 0 <= od_depart od <= 37200.
Proof.
  assert (H : time_window [mkOD "a" 30000 "e1" "e2"; mkOD "b" 1000 "e3" "e4"]
                3600 7200 = Some (0, 37200)) by (vm_compute; reflexivity).
  split; [exact H|].
  exact (proj2 (time_window_covers _ _ _ _ _ H ltac:(lia) ltac:(lia))).
Defined.

End PlannerRequests.

(** ** From the planner to the validator *)
Section PlanThenValidate.
Import Pipeline.

Variable known_stops : option (gset string).
Variable routes_files : list Validator.RoutesFile.
Variable line_map : gmap string string.
Variable strip_prefixes : list string.

Lemma parse_ref_obj (r : Planner.Ref) :
  Validator._parse_ref (ref_obj r) = Some (parsed_ref r).
Proof. destruct r; reflexivity. Qed.

Lemma leg_obj_known (l : Planner.Leg) :
  Validator.is_type "walk" (leg_obj l) || Validator.is_type "ride" (leg_obj l) = true.
Proof. destruct l as [[] f t ls]; reflexivity. Qed.

Lemma leg_obj_anchors (l : Planner.Leg) : Validator.anchors_ok (leg_obj l).
Proof.
  intros _. cbn [leg_obj Validator.leg_from Validator.leg_to].
  rewrite !parse_ref_obj. split; eauto.
Qed.

Lemma chained_tail (l : Planner.Leg) (ls : list Planner.Leg) :
  Planner.chained (l :: ls) ->
  Planner.chained ls /\
  forall l', head ls = Some l' -> Planner.leg_to l = Planner.leg_from l'.
Proof.
  intros Hc. split.
  - intros i a b Ha Hb. exact (Hc (S i) a b Ha Hb).
  - intros l' Hh. destruct ls as [|x ls]; [discriminate|]. injection Hh as ->.
    exact (Hc 0%nat l l' eq_refl eq_refl).
Qed.

(** The first loop of the validator finds nothing to object to in a
    chain whose legs are linked. *)
Lemma conn_loop_planned (ls : list Planner.Leg) :
  forall idx st,
    Planner.chained ls ->
    (forall p l, Validator.cs_prev_to st = Some p -> head ls = Some l ->
       parsed_ref (Planner.leg_from l) = p) ->
    exists st',
      Validator.conn_loop line_map strip_prefixes idx (map leg_obj ls) st = Some st' /\
      Validator.cs_errors st' = Validator.cs_errors st.
Proof.
  induction ls as [|l ls IH]; intros idx st Hc Hprev; cbn [map Validator.conn_loop].
  - eauto.
  - unfold Validator.conn_step. rewrite leg_obj_known. cbn [negb].
    cbn [leg_obj Validator.leg_from Validator.leg_to]. rewrite !parse_ref_obj.
    destruct (chained_tail l ls Hc) as [Hc' Hlink].
    match goal with
    | |- exists st', Validator.conn_loop _ _ _ _ ?s = _ /\ _ =>
        destruct (IH (S idx) s Hc') as (st' & Hloop & Herr)
    end.
    + cbn [Validator.cs_prev_to]. intros p l' [= <-] Hh. rewrite (Hlink l' Hh). reflexivity.
    + exists st'. split; [exact Hloop|]. rewrite Herr. cbn [Validator.cs_errors].
      destruct (Validator.cs_prev_to st) as [p|] eqn:Hp; [|reflexivity].
      rewrite bool_decide_eq_false_2; [reflexivity|].
      intros Hne. apply Hne. apply (Hprev p l eq_refl eq_refl).
Qed.

(** What the planner emits, the validator accepts as a chain: a plan
    that [_stages_to_plan] made of at least one stage, for a person whose
    id is not blank, gets a full report without structural errors --
    every leg has a known type and starts where the leg before it ended
    -- whatever the stop files, the routes files and the line map are. *)
Theorem planned_chain_validates (stages : list Planner.Stage) (pid : string)
    (dep : Z) (origin dest_edge : string) (plan : Planner.Plan) :
  Planner._stages_to_plan stages pid dep origin dest_edge = inr plan ->
  stages <> [] -> Timetable.strip pid <> "" ->
  exists r,
    Validator._validate_one_plan known_stops routes_files line_map strip_prefixes
      (plan_obj plan) = Some (Validator.validated r) /\
    Validator.errors r = [] /\
    Validator.personId r = Timetable.strip pid /\ Validator.depart r = dep.
Proof.
  intros Hplan Hne Hpid. unfold Planner._stages_to_plan in Hplan.
  destruct (Planner.stages_loop dest_edge 0 stages [] (Planner.edge origin))
    as [err|ls] eqn:Hloop; [discriminate|].
  injection Hplan as <-.
  destruct (stages_loop_chained origin dest_edge stages 0 [] (Planner.edge origin) ls)
    as [Hc _]; try exact Hloop; try reflexivity.
  { intros i a b Ha. rewrite lookup_nil in Ha. discriminate. }
  { discriminate. }
  destruct (stages_loop_legs _ _ _ _ _ _ Hloop) as (new & Hls & Hf & _).
  cbn [app] in Hls. subst new.
  assert (Hlen : ls <> []).
  { intros ->. apply Forall2_length in Hf. destruct stages; [contradiction|].
    discriminate. }
  destruct (conn_loop_planned ls 0 (Validator.mkConn [] None ∅ ∅) Hc)
    as (cs & Hcs & Herr); [discriminate|].
  destruct (feas_loop_total routes_files line_map strip_prefixes (map leg_obj ls))
    with (idx := 0%nat) (st := Validator.mkFeas dep [] []) as [fs Hfs].
  { apply Forall_forall. intros x Hx. apply list_elem_of_fmap in Hx.
    destruct Hx as (l & -> & _). apply leg_obj_anchors. }
  unfold Validator._validate_one_plan, plan_obj.
  cbn [Validator.plan_legs Validator.plan_personId Validator.plan_depart
       Planner.legs Planner.personId Planner.depart].
  destruct (map leg_obj ls) as [|x xs] eqn:Hmap.
  { destruct ls; [contradiction | discriminate]. }
  apply String.eqb_neq in Hpid. rewrite Hpid, Hcs, Hfs.
  eexists. split; [reflexivity|]. cbn. rewrite Herr. auto.
Qed.

End PlanThenValidate.

Lemma planned_chain_validates_witness :
  exists plan r,
    Planner._stages_to_plan Planner.ex_stages "p0" 0 "from" "to" = inr plan /\
    Validator._validate_one_plan None [] ∅ Validator.ex_strip_prefixes
      (Pipeline.plan_obj plan) = Some (Validator.validated r) /\
    Validator.errors r = [].
Proof.
  eexists. 
  assert (H : Planner._stages_to_plan Planner.ex_stages "p0" 0 "from" "to" = inr _)
    by (vm_compute; reflexivity).
  destruct (planned_chain_validates None [] ∅ Validator.ex_strip_prefixes
              _ _ _ _ _ _ H ltac:(discriminate) ltac:(vm_compute; discriminate))
    as (r & Hr & He & _).
  exists r. split; [exact H|]. split; [exact Hr | exact He].
Defined.

(** ** Filtering a routes file *)
Section FilterProps.
Import Timetable Filter.

Variable allowed_lines : option (gset string).
Variable begin_ end_ : Z.

Abbreviation kept := (fun v => keeps allowed_lines begin_ end_ v = true).
Abbreviation read := (read_elem allowed_lines begin_ end_).
Abbreviation run := (filter_routes_file allowed_lines begin_ end_).

Lemma vehicles_of_app (l1 l2 : list Elem) :
  vehicles_of (l1 ++ l2) = vehicles_of l1 ++ vehicles_of l2.
Proof. apply omap_app. Qed.

Lemma vtypes_of_app (l1 l2 : list Elem) :
  vtypes_of (l1 ++ l2) = vtypes_of l1 ++ vtypes_of l2.
Proof. apply omap_app. Qed.

Lemma routes_of_app (l1 l2 : list Elem) :
  routes_of (l1 ++ l2) = routes_of l1 ++ routes_of l2.
Proof. apply omap_app. Qed.

Lemma definitions_of_app (rid : string) (l1 l2 : list Elem) :
  definitions_of rid (l1 ++ l2) = definitions_of rid l1 ++ definitions_of rid l2.
Proof. unfold definitions_of. rewrite routes_of_app. apply filter_app. Qed.

Lemma referenced_app (l1 l2 : list Vehicle) :
  referenced (l1 ++ l2) = referenced l1 ∪ referenced l2.
Proof. unfold referenced. rewrite omap_app. apply list_to_set_app_L. Qed.

(** The reading loop, collection by collection. *)
Lemma read_loop (input : list Elem) (acc0 : Acc) :
  let acc := fold_left read input acc0 in
  vtypes acc = vtypes acc0 ++ vtypes_of input /\
  kept_vehicles acc = kept_vehicles acc0 ++ filter kept (vehicles_of input) /\
  needed_route_ids acc =
    needed_route_ids acc0 ∪ referenced (filter kept (vehicles_of input)) /\
  forall rid,
    routes_by_id acc !! rid =
    match last (definitions_of rid input) with
    | Some r => Some r
    | None => routes_by_id acc0 !! rid
    end.
Proof.
  cbv zeta. induction input as [|elem input IH] using rev_ind.
  - cbn. rewrite !app_nil_r. unfold referenced. cbn.
    rewrite union_empty_r_L. auto.
  - rewrite fold_left_app. cbn [fold_left].
    destruct IH as (Hv & Hk & Hn & Hr).
    rewrite vtypes_of_app, vehicles_of_app, filter_app, referenced_app.
    set (acc := fold_left read input acc0) in *.
    destruct elem as [t|r|v|]; cbn [read_elem].
    + cbn [vtypes kept_vehicles needed_route_ids routes_by_id].
      rewrite Hv, Hk, Hn. rewrite <- app_assoc.
      change (vehicles_of [vType_elem t]) with (@nil Vehicle).
      change (vtypes_of [vType_elem t]) with [t].
      rewrite filter_nil, app_nil_r.
      change (referenced []) with (∅ : gset string). rewrite union_empty_r_L.
      repeat split. intros rid. rewrite definitions_of_app.
      change (definitions_of rid [vType_elem t]) with (@nil Route).
      rewrite app_nil_r. apply Hr.
    + change (vehicles_of [route_elem r]) with (@nil Vehicle).
      change (vtypes_of [route_elem r]) with (@nil VType).
      rewrite filter_nil, !app_nil_r.
      change (referenced []) with (∅ : gset string). rewrite union_empty_r_L.
      assert (Hdef : forall rid, definitions_of rid (input ++ [route_elem r]) =
                definitions_of rid input ++
                (if decide (supplied (route_id r) = Some rid) then [r] else [])).
      { intros rid. rewrite definitions_of_app. f_equal. }
      destruct (supplied (route_id r)) as [rid0|] eqn:Hs;
        cbn [vtypes kept_vehicles needed_route_ids routes_by_id].
      * split; [exact Hv|]. split; [exact Hk|]. split; [exact Hn|].
        intros rid. rewrite Hdef.
        destruct (decide (Some rid0 = Some rid)) as [[= ->]|Hne].
        -- rewrite last_snoc. apply lookup_insert_eq.
        -- rewrite app_nil_r, lookup_insert_ne by congruence. apply Hr.
      * split; [exact Hv|]. split; [exact Hk|]. split; [exact Hn|].
        intros rid. rewrite Hdef, decide_False by discriminate.
        rewrite app_nil_r. apply Hr.
    + change (vehicles_of [vehicle_elem v]) with [v].
      change (vtypes_of [vehicle_elem v]) with (@nil VType).
      assert (Hdef : forall rid, definitions_of rid (input ++ [vehicle_elem v]) =
                definitions_of rid input).
      { intros rid. rewrite definitions_of_app.
        change (definitions_of rid [vehicle_elem v]) with (@nil Route).
        apply app_nil_r. }
      rewrite filter_cons, filter_nil.
      destruct (keeps allowed_lines begin_ end_ v) eqn:Hkeep.
      * rewrite decide_True by reflexivity.
        cbn [vtypes kept_vehicles needed_route_ids routes_by_id].
        rewrite Hv, Hk, Hn, app_nil_r, app_assoc.
        split; [reflexivity|]. split; [reflexivity|]. split.
        -- generalize (referenced (filter kept (vehicles_of input))).
           generalize (needed_route_ids acc0). intros N S.
           unfold referenced. cbn [omap list_omap].
           destruct (supplied (vehicle_route v)) as [rid|]; cbn [list_to_set];
             apply set_eq; intros x;
             rewrite ?elem_of_union, ?elem_of_singleton, ?elem_of_empty.
           ++ tauto.
           ++ tauto.
        -- intros rid. rewrite Hdef. apply Hr.
      * rewrite decide_False by discriminate.
        rewrite !app_nil_r.
        change (referenced []) with (∅ : gset string). rewrite union_empty_r_L.
        split; [exact Hv|]. split; [exact Hk|]. split; [exact Hn|].
        intros rid. rewrite Hdef. apply Hr.
    + change (vehicles_of [other_elem]) with (@nil Vehicle).
      change (vtypes_of [other_elem]) with (@nil VType).
      rewrite filter_nil, !app_nil_r.
      change (referenced []) with (∅ : gset string). rewrite union_empty_r_L.
      split; [exact Hv|]. split; [exact Hk|]. split; [exact Hn|].
      intros rid. rewrite definitions_of_app.
      change (definitions_of rid [other_elem]) with (@nil Route).
      rewrite app_nil_r. apply Hr.
Qed.

(** The keys of [routes_by_id] are the ids of its routes. *)
Lemma read_loop_keys (input : list Elem) (rid : string) (r : Route) :
  routes_by_id (fold_left read input (mkAcc [] ∅ [] ∅)) !! rid = Some r ->
  supplied (route_id r) = Some rid /\ last (definitions_of rid input) = Some r.
Proof.
  destruct (read_loop input (mkAcc [] ∅ [] ∅)) as (_ & _ & _ & Hr).
  rewrite Hr. cbn [routes_by_id]. rewrite lookup_empty.
  destruct (last (definitions_of rid input)) as [r'|] eqn:Hl; [|discriminate].
  intros [= ->]. split; [|reflexivity].
  apply last_Some_elem_of in Hl. unfold definitions_of in Hl.
  apply list_elem_of_filter in Hl. apply Hl.
Qed.

Lemma omap_ext_in {A B : Type} (f g : A -> option B) (l : list A) :
  (forall x, x ∈ l -> f x = g x) -> omap f l = omap g l.
Proof.
  induction l as [|x l IH]; intros H; [reflexivity|]. cbn.
  rewrite (H x) by left. rewrite IH by (intros y Hy; apply H; right; exact Hy).
  reflexivity.
Qed.

Lemma filter_ext_in {A : Type} (P Q : A -> Prop) `{forall x, Decision (P x)}
    `{forall x, Decision (Q x)} (l : list A) :
  (forall x, x ∈ l -> P x <-> Q x) -> filter P l = filter Q l.
Proof.
  induction l as [|x l IH]; intros HPQ; [reflexivity|]. rewrite !filter_cons.
  rewrite IH by (intros y Hy; apply HPQ; right; exact Hy).
  destruct (decide (P x)) as [Hp|Hp].
  - rewrite decide_True by (apply HPQ; [left | exact Hp]). reflexivity.
  - rewrite decide_False; [reflexivity|].
    intros Hq. apply Hp. apply HPQ; [left | exact Hq].
Qed.

Lemma filter_filter_same {A : Type} (P : A -> Prop) `{forall x, Decision (P x)}
    (l : list A) :
  filter P (filter P l) = filter P l.
Proof.
  induction l as [|x l IH]; [reflexivity|]. rewrite filter_cons.
  destruct (decide (P x)) as [Hp|Hp]; [|exact IH].
  rewrite filter_cons, decide_True by exact Hp. rewrite IH. reflexivity.
Qed.

Lemma omap_and_missing {A B : Type} (f : A -> option B) (l : list A) :
  (length (omap f l) + length (filter (fun x => f x = None) l) = length l)%nat.
Proof.
  induction l as [|x l IH]; [reflexivity|]. cbn [omap list_omap].
  rewrite filter_cons. destruct (f x) as [y|].
  - rewrite decide_False by discriminate. cbn [length]. lia.
  - rewrite decide_True by reflexivity. cbn [length]. lia.
Qed.

(** The parts of what is written. *)
Lemma omap_map_none {A B : Type} (c : A -> Elem) (p : Elem -> option B)
    (l : list A) :
  (forall a, p (c a) = None) -> omap p (map c l) = [].
Proof.
  intros Hc. induction l as [|a l IH]; [reflexivity|]. cbn. rewrite Hc. exact IH.
Qed.

Lemma omap_map_some {A : Type} (c : A -> Elem) (p : Elem -> option A)
    (l : list A) :
  (forall a, p (c a) = Some a) -> omap p (map c l) = l.
Proof.
  intros Hc. induction l as [|a l IH]; [reflexivity|]. cbn. rewrite Hc, IH.
  reflexivity.
Qed.

Lemma written_parts (vts : list VType) (rs : list Route) (vs : list Vehicle) :
  let out := map vType_elem vts ++ map route_elem rs ++ map vehicle_elem vs in
  vtypes_of out = vts /\ routes_of out = rs /\ vehicles_of out = vs.
Proof.
  cbv zeta. unfold vtypes_of, routes_of, vehicles_of. rewrite !omap_app.
  split; [|split].
  - rewrite omap_map_some by reflexivity. rewrite !omap_map_none by reflexivity.
    apply app_nil_r.
  - rewrite (omap_map_some route_elem) by reflexivity.
    rewrite !omap_map_none by reflexivity. apply app_nil_r.
  - rewrite (omap_map_some vehicle_elem) by reflexivity.
    rewrite !omap_map_none by reflexivity. reflexivity.
Qed.

Lemma run_parts (input : list Elem) :
  let acc := fold_left read input (mkAcc [] ∅ [] ∅) in
  let needed := Validator.sorted (needed_route_ids acc) in
  vtypes_of (fst (run input)) = vtypes acc /\
  routes_of (fst (run input)) = omap (fun rid => routes_by_id acc !! rid) needed /\
  vehicles_of (fst (run input)) = kept_vehicles acc.
Proof. cbv zeta. unfold filter_routes_file. cbn [fst]. apply written_parts. Qed.

Lemma elem_of_sorted (S : gset string) (x : string) :
  x ∈ Validator.sorted S <-> x ∈ S.
Proof. rewrite sorted_perm. apply elem_of_elements. Qed.

Lemma NoDup_sorted (S : gset string) : NoDup (Validator.sorted S).
Proof. rewrite sorted_perm. apply NoDup_elements. Qed.

Lemma keeps_spec (v : Vehicle) :
  keeps allowed_lines begin_ end_ v = true <->
  (exists d, vehicle_depart v = Some d /\ begin_ <= d <= end_) /\
  (forall lines, allowed_lines = Some lines -> strip (vehicle_line v) ∈ lines).
Proof.
  unfold keeps. rewrite andb_true_iff. split.
  - intros [Hl Hd]. split.
    + destruct (vehicle_depart v) as [d|]; [|discriminate].
      apply andb_true_iff in Hd. exists d. split; [reflexivity|lia].
    + intros lines ->. apply bool_decide_eq_true in Hl. exact Hl.
  - intros [(d & -> & Hd) Hl]. split.
    + destruct allowed_lines as [lines|]; [|reflexivity].
      apply bool_decide_eq_true. apply Hl. reflexivity.
    + apply andb_true_iff. lia.
Qed.

(** What [filter_routes_file] writes: every vehicle type; the vehicles
    of an allowed line that depart within the window, in their order; and
    for each route id these vehicles refer to, the route the input
    defines under this id -- its last definition -- and no other route.
    The statistics count what is written, and [missingRoutes] counts the
    route ids referred to that the input does not define. *)
Theorem filter_routes_file_spec (input : list Elem) :
  let out := fst (run input) in
  let stats := snd (run input) in
  vtypes_of out = vtypes_of input /\
  vehicles_of out = filter kept (vehicles_of input) /\
  (forall v, v ∈ vehicles_of out <->
     v ∈ vehicles_of input /\
     (exists d, vehicle_depart v = Some d /\ begin_ <= d <= end_) /\
     (forall lines, allowed_lines = Some lines ->
        strip (vehicle_line v) ∈ lines)) /\
  (forall r, r ∈ routes_of out <->
     exists rid, rid ∈ referenced (vehicles_of out) /\
                 last (definitions_of rid input) = Some r) /\
  NoDup (map route_id (routes_of out)) /\
  stat_vTypes stats = length (vtypes_of out) /\
  stat_routes stats = length (routes_of out) /\
  stat_vehicles stats = length (vehicles_of out) /\
  (stat_routes stats + stat_missingRoutes stats)%nat =
    size (referenced (vehicles_of out)).
Proof.
  cbv zeta. destruct (run_parts input) as (Hvt & Hrt & Hvh). rewrite Hvt, Hrt, Hvh.
  destruct (read_loop input (mkAcc [] ∅ [] ∅)) as (Hv & Hk & Hn & Hr).
  cbn [vtypes kept_vehicles needed_route_ids routes_by_id app] in Hv, Hk, Hn, Hr.
  rewrite union_empty_l_L in Hn.
  set (acc := fold_left read input (mkAcc [] ∅ [] ∅)) in *.
  split; [exact Hv|]. split; [exact Hk|]. split; [|split; [|split]].
  - intros v. rewrite Hk, list_elem_of_filter, keeps_spec. tauto.
  - intros r. rewrite list_elem_of_omap. rewrite Hk, <- Hn. split.
    + intros (rid & Hin & Hm). apply elem_of_sorted in Hin.
      exists rid. split; [exact Hin|]. apply read_loop_keys. exact Hm.
    + intros (rid & Hin & Hl). exists rid. split; [apply elem_of_sorted; exact Hin|].
      rewrite Hr, Hl. reflexivity.
  - pose proof (NoDup_sorted (needed_route_ids acc)) as Hnd. clear Hrt.
    induction Hnd as [|rid ks Hnot Hnd IH]; [constructor|].
    cbn [omap list_omap]. destruct (routes_by_id acc !! rid) as [r|] eqn:Hm; [|exact IH].
    cbn [map]. constructor; [|exact IH].
    intros Hin. apply list_elem_of_fmap in Hin. destruct Hin as (r' & Hid & Hin').
    apply list_elem_of_omap in Hin'. destruct Hin' as (rid' & Hk' & Hm').
    apply read_loop_keys in Hm. apply read_loop_keys in Hm'.
    destruct Hm as [Hs _], Hm' as [Hs' _]. rewrite Hid, Hs' in Hs.
    injection Hs as ->. contradiction.
  - unfold filter_routes_file. cbn [snd stat_vTypes stat_routes stat_vehicles
                                    stat_missingRoutes]. fold acc.
    pose proof (omap_and_missing (fun rid => routes_by_id acc !! rid)
                  (Validator.sorted (needed_route_ids acc))) as Hlen.
    split; [reflexivity|]. split; [lia|]. split; [reflexivity|].
    rewrite Hk, <- Hn. unfold size, set_size. cbn.
    rewrite <- (Permutation_length (sorted_perm (needed_route_ids acc))). lia.
Qed.

Lemma stored_once (m : gmap string Route) (ks : list string) (rid : string) :
  (forall k r, m !! k = Some r -> supplied (route_id r) = Some k) ->
  NoDup ks -> rid ∈ ks ->
  last (filter (fun r => supplied (route_id r) = Some rid)
          (omap (fun k => m !! k) ks)) = m !! rid.
Proof.
  intros Hkeys Hnd. 
  assert (Hout : forall ks', rid ∉ ks' ->
            filter (fun r => supplied (route_id r) = Some rid)
              (omap (fun k => m !! k) ks') = []).
  { intros ks' Hnot. induction ks' as [|k ks' IH]; [reflexivity|].
    apply not_elem_of_cons in Hnot. destruct Hnot as [Hne Hnot].
    cbn [omap list_omap]. destruct (m !! k) as [r|] eqn:Hm; [|apply IH, Hnot].
    rewrite filter_cons, decide_False; [apply IH, Hnot|].
    rewrite (Hkeys _ _ Hm). intros [= ->]. apply Hne. reflexivity. }
  induction Hnd as [|k ks Hnot Hnd IH]; intros Hin.
  - apply elem_of_nil in Hin. destruct Hin.
  - cbn [omap list_omap]. destruct (decide (k = rid)) as [->|Hne].
    + destruct (m !! rid) as [r|] eqn:Hm.
      * rewrite filter_cons, decide_True by (apply (Hkeys _ _ Hm)).
        rewrite (Hout ks Hnot). reflexivity.
      * rewrite (Hout ks Hnot). reflexivity.
    + apply elem_of_cons in Hin. destruct Hin as [->|Hin]; [contradiction|].
      destruct (m !! k) as [r|] eqn:Hm; [|apply IH, Hin].
      rewrite filter_cons, decide_False; [apply IH, Hin|].
      rewrite (Hkeys _ _ Hm). intros [= ->]. apply Hne. reflexivity.
Qed.

(** Filtering is idempotent: the file [filter_routes_file] writes passes
    through the same filter unchanged, with the same statistics. *)
Theorem filter_routes_file_idempotent (input : list Elem) :
  run (fst (run input)) = run input.
Proof.
  destruct (run_parts input) as (Hvt & Hrt & Hvh).
  destruct (read_loop input (mkAcc [] ∅ [] ∅)) as (Hv & Hk & Hn & Hr).
  destruct (read_loop (fst (run input)) (mkAcc [] ∅ [] ∅)) as (Hv' & Hk' & Hn' & Hr').
  cbn [vtypes kept_vehicles needed_route_ids routes_by_id app] in Hv, Hk, Hn, Hr.
  cbn [vtypes kept_vehicles needed_route_ids routes_by_id app] in Hv', Hk', Hn', Hr'.
  rewrite union_empty_l_L in Hn, Hn'.
  pose proof (read_loop_keys input) as Hkeys.
  set (out := fst (run input)) in *.
  set (acc := fold_left read input (mkAcc [] ∅ [] ∅)) in *.
  set (acc' := fold_left read out (mkAcc [] ∅ [] ∅)) in *.
  rewrite Hvt in Hv'. rewrite Hvh in Hk', Hn'.
  assert (Hkk : kept_vehicles acc' = kept_vehicles acc).
  { rewrite Hk', Hk. apply filter_filter_same. }
  assert (Hnn : needed_route_ids acc' = needed_route_ids acc).
  { rewrite Hn', Hn, Hk. rewrite filter_filter_same. reflexivity. }
  assert (Hrr : forall rid, rid ∈ Validator.sorted (needed_route_ids acc) ->
            routes_by_id acc' !! rid = routes_by_id acc !! rid).
  { intros rid Hin. rewrite Hr'. unfold definitions_of. rewrite Hrt.
    rewrite lookup_empty.
    rewrite (stored_once (routes_by_id acc)); [| |apply NoDup_sorted|exact Hin].
    - destruct (routes_by_id acc !! rid); reflexivity.
    - intros k r Hm. apply (Hkeys k r Hm). }
  unfold filter_routes_file. fold acc acc'.
  rewrite Hv', Hkk, Hnn.
  rewrite (omap_ext_in (fun rid => routes_by_id acc' !! rid)
             (fun rid => routes_by_id acc !! rid)) by exact Hrr.
  rewrite (filter_ext_in (fun rid => routes_by_id acc' !! rid = None)
             (fun rid => routes_by_id acc !! rid = None)).
  - reflexivity.
  - intros rid Hin. rewrite (Hrr rid Hin). reflexivity.
Qed.

End FilterProps.

(** ** Lane matcher: what a match is *)
Section MatcherProps.
Import LaneMatcher MatcherFacts.

Variable getNeighboringLanes : Z -> list (Lane * Q).
Variable require_vclasses : list string.
Variable preferred_heading : option Q.
Variable max_heading_diff_deg : Q.

Abbreviation pick :=
  (pick_lane require_vclasses preferred_heading max_heading_diff_deg).
Abbreviation pick_any := (pick_lane_ignore_heading require_vclasses).
Abbreviation nearest :=
  (find_nearest_edge getNeighboringLanes require_vclasses preferred_heading
     max_heading_diff_deg).

(** A lane that is valid with the connectivity test is valid without. *)
Lemma valid_lane_relax (lane : Lane) (rc : bool) :
  _is_valid_lane lane rc require_vclasses = true ->
  _is_valid_lane lane false require_vclasses = true.
Proof.
  unfold _is_valid_lane.
  destruct (String.prefix ":" (edge_id lane)); [discriminate|].
  destruct (bool_decide _); [discriminate|].
  destruct (negb _); [discriminate|]. reflexivity.
Qed.

(** What a valid lane is. *)
Lemma valid_lane_spec (lane : Lane) (rc : bool) :
  _is_valid_lane lane rc require_vclasses = true <->
  String.prefix ":" (edge_id lane) = false /\
  (edge_function lane ∉ ["internal"; "connector"; "crossing"; "walkingarea"]) /\
  (exists cls,
     cls ∈ (match require_vclasses with
            | [] => ROUTABLE_CLASSES
            | _ :: _ => require_vclasses
            end) /\ cls ∈ lane_allows lane) /\
  (rc = true -> has_outgoing lane = true /\ has_incoming lane = true).
Proof.
  unfold _is_valid_lane.
  set (classes := match require_vclasses with [] => ROUTABLE_CLASSES | _ :: _ => _ end).
  destruct (String.prefix ":" (edge_id lane)); [split; [discriminate|intros [? _]; discriminate]|].
  destruct (bool_decide_reflect (edge_function lane ∈
              ["internal"; "connector"; "crossing"; "walkingarea"])) as [Hf|Hf].
  { split; [discriminate|]. intros (_ & Hn & _). contradiction. }
  destruct (existsb (fun cls => bool_decide (cls ∈ lane_allows lane)) classes) eqn:Hex;
    cbn [negb].
  - apply existsb_exists in Hex. destruct Hex as (cls & Hin & Hcls).
    apply bool_decide_eq_true in Hcls. apply list_elem_of_In in Hin.
    destruct rc, (has_outgoing lane), (has_incoming lane); cbn;
      split; try discriminate; try (intros _; repeat split; eauto; discriminate);
      intros (_ & _ & _ & Hc); destruct (Hc eq_refl); discriminate.
  - split; [discriminate|]. intros (_ & _ & (cls & Hin & Hcls) & _).
    assert (existsb (fun cls => bool_decide (cls ∈ lane_allows lane)) classes = true)
      as Ht; [|rewrite Ht in Hex; discriminate].
    apply existsb_exists. exists cls. split; [apply list_elem_of_In, Hin|].
    apply bool_decide_eq_true, Hcls.
Qed.

Lemma sorted_head_elem {A : Type} (le : A -> A -> bool) (l : list A) (x : A)
    (rest : list A) :
  sort_by le l = x :: rest -> x ∈ l.
Proof. intros Hs. apply (elem_of_sort_by le). rewrite Hs. left. Qed.

(** What [pick_lane] picks is one of the candidates, valid, and within
    the heading tolerance when a heading is preferred. *)
Lemma pick_lane_sound (candidates : list (Lane * Q)) (rc : bool) (lane : Lane)
    (dist : Q) :
  pick candidates rc = Some (lane, dist) ->
  (lane, dist) ∈ candidates /\
  _is_valid_lane lane rc require_vclasses = true /\
  (forall pref, preferred_heading = Some pref ->
     exists h, lane_heading lane = Some h /\
               (_angle_diff h pref <= max_heading_diff_deg)%Q).
Proof.
  unfold pick_lane.
  destruct (sort_by key_le _) as [|[[d a] l] rest] eqn:Hs; [discriminate|].
  intros [= -> ->]. apply sorted_head_elem in Hs. unfold score in Hs.
  apply list_elem_of_omap in Hs. destruct Hs as ([l' d'] & Hin & Hsc).
  destruct (_is_valid_lane l' rc require_vclasses) eqn:Hv; cbn [negb] in Hsc;
    [|discriminate].
  destruct preferred_heading as [pref|].
  - destruct (lane_heading l') as [h|] eqn:Hh; [|discriminate].
    destruct (Qltb max_heading_diff_deg (_angle_diff h pref)) eqn:Hd; [discriminate|].
    injection Hsc as -> _ ->. split; [exact Hin|]. split; [exact Hv|].
    intros p [= <-]. exists h. split; [exact Hh|]. apply Qltb_false. exact Hd.
  - injection Hsc as -> _ ->. split; [exact Hin|]. split; [exact Hv|]. discriminate.
Qed.

Lemma pick_any_sound (candidates : list (Lane * Q)) (rc : bool) (lane : Lane)
    (dist : Q) :
  pick_any candidates rc = Some (lane, dist) ->
  (lane, dist) ∈ candidates /\ _is_valid_lane lane rc require_vclasses = true.
Proof.
  unfold pick_lane_ignore_heading.
  destruct (sort_by _ _) as [|[d l] rest] eqn:Hs; [discriminate|].
  intros [= -> ->]. apply sorted_head_elem in Hs.
  apply list_elem_of_omap in Hs. destruct Hs as ([l' d'] & Hin & Hsc).
  destruct (_is_valid_lane l' rc require_vclasses) eqn:Hv; cbn [negb] in Hsc;
    [|discriminate].
  injection Hsc as -> ->. split; [exact Hin|exact Hv].
Qed.

(** The lanes the first loop leaves are those of one of the radii. *)
Lemma first_lanes_queried (steps : list Z) (lanes : list (Lane * Q)) (c : Lane * Q) :
  c ∈ first_lanes getNeighboringLanes steps lanes ->
  c ∈ lanes \/ exists radius, radius ∈ steps /\ c ∈ getNeighboringLanes radius.
Proof.
  revert lanes. induction steps as [|r steps IH]; intros lanes; cbn [first_lanes].
  - tauto.
  - destruct (getNeighboringLanes r) as [|x found] eqn:Hq.
    + intros Hin. destruct (IH _ Hin) as [Hn|(radius & Hr & Hc)].
      * apply elem_of_nil in Hn. destruct Hn.
      * right. exists radius. split; [right; exact Hr|exact Hc].
    + intros Hin. right. exists r. split; [left|]. rewrite Hq. exact Hin.
Qed.

Lemma relaxed_retry_queried (steps : list Z) (lanes : list (Lane * Q)) :
  let '(lanes', picked) :=
    relaxed_retry getNeighboringLanes require_vclasses preferred_heading
      max_heading_diff_deg steps lanes in
  (forall c, c ∈ lanes' ->
     c ∈ lanes \/ exists radius, radius ∈ steps /\ c ∈ getNeighboringLanes radius) /\
  (forall p, picked = Some p -> pick lanes' false = Some p).
Proof.
  revert lanes. induction steps as [|r steps IH]; intros lanes; cbn [relaxed_retry].
  - split; [tauto|discriminate].
  - destruct (pick (getNeighboringLanes r) false) as [p|] eqn:Hp.
    + split.
      * intros c Hc. right. exists r. split; [left|exact Hc].
      * intros p' [= <-]. exact Hp.
    + specialize (IH (getNeighboringLanes r)).
      destruct (relaxed_retry _ _ _ _ steps (getNeighboringLanes r)) as [lanes' picked].
      destruct IH as [IH1 IH2]. split; [|exact IH2].
      intros c Hc. right. destruct (IH1 c Hc) as [Hin|(radius & Hr & Hin)].
      * exists r. split; [left|exact Hin].
      * exists radius. split; [right; exact Hr|exact Hin].
Qed.

(** A stop is only ever matched to a lane that one of the radius queries
    returned, at the distance the query reported, and that is valid when
    the connectivity test is left out: its edge is no internal edge, is
    of no excluded function, and the lane allows one of the required
    classes.  The edge, the lane id and the position are those of this
    lane. *)
Theorem find_nearest_edge_sound (max_radius : Z) (e l : string) (pos d : Q) :
  nearest max_radius = Some (e, l, pos, d) ->
  exists radius lane,
    radius ∈ radius_steps max_radius /\
    (lane, d) ∈ getNeighboringLanes radius /\
    e = edge_id lane /\ l = lane_id lane /\ pos = lane_pos lane /\
    String.prefix ":" e = false /\
    (edge_function lane ∉ ["internal"; "connector"; "crossing"; "walkingarea"]) /\
    exists cls,
      cls ∈ (match require_vclasses with
             | [] => ROUTABLE_CLASSES
             | _ :: _ => require_vclasses
             end) /\ cls ∈ lane_allows lane.
Proof.
  unfold find_nearest_edge.
  set (steps := radius_steps max_radius).
  pose proof (first_lanes_queried steps []) as Hfirst.
  destruct (first_lanes getNeighboringLanes steps []) as [|c0 lanes0] eqn:Hl;
    [discriminate|].
  assert (Hgoal : forall lane dist rc (lanes : list (Lane * Q)),
            (lane, dist) ∈ lanes ->
            (forall c, c ∈ lanes ->
               exists radius, radius ∈ steps /\ c ∈ getNeighboringLanes radius) ->
            _is_valid_lane lane rc require_vclasses = true ->
            Some (edge_id lane, lane_id lane, lane_pos lane, dist) = Some (e, l, pos, d) ->
            exists radius lane,
              radius ∈ steps /\ (lane, d) ∈ getNeighboringLanes radius /\
              e = edge_id lane /\ l = lane_id lane /\ pos = lane_pos lane /\
              String.prefix ":" e = false /\
              (edge_function lane ∉ ["internal"; "connector"; "crossing"; "walkingarea"]) /\
              exists cls,
                cls ∈ (match require_vclasses with
                       | [] => ROUTABLE_CLASSES
                       | _ :: _ => require_vclasses
                       end) /\ cls ∈ lane_allows lane).
  { intros lane dist rc lanes Hin Hq Hv [= <- <- <- <-].
    destruct (Hq _ Hin) as (radius & Hr & Hc).
    apply valid_lane_spec in Hv. destruct Hv as (Hp & Hf & Hcls & _).
    exists radius, lane. repeat (split; [assumption || reflexivity|]). exact Hcls. }
  assert (Hq0 : forall c, c ∈ c0 :: lanes0 ->
            exists radius, radius ∈ steps /\ c ∈ getNeighboringLanes radius).
  { intros c Hc. destruct (Hfirst c Hc) as [Hn|H]; [|exact H].
    apply elem_of_nil in Hn. destruct Hn. }
  destruct (pick (c0 :: lanes0) true) as [[lane dist]|] eqn:Hp.
  - apply pick_lane_sound in Hp. destruct Hp as (Hin & Hv & _).
    apply (Hgoal lane dist true (c0 :: lanes0)); assumption.
  - pose proof (relaxed_retry_queried (reverse steps) (c0 :: lanes0)) as Hretry.
    destruct (relaxed_retry _ _ _ _ (reverse steps) (c0 :: lanes0)) as [lanes' picked].
    destruct Hretry as [Hq Hpk].
    assert (Hq' : forall c, c ∈ lanes' ->
              exists radius, radius ∈ steps /\ c ∈ getNeighboringLanes radius).
    { intros c Hc. destruct (Hq c Hc) as [Hin|(radius & Hr & Hin)].
      - apply Hq0, Hin.
      - exists radius. split; [|exact Hin]. apply elem_of_reverse, Hr. }
    destruct picked as [[lane dist]|].
    + specialize (Hpk _ eq_refl). apply pick_lane_sound in Hpk.
      destruct Hpk as (Hin & Hv & _).
      apply (Hgoal lane dist false lanes'); assumption.
    + destruct (pick_any lanes' false) as [[lane dist]|] eqn:Ha; [|discriminate].
      apply pick_any_sound in Ha. destruct Ha as [Hin Hv].
      apply (Hgoal lane dist false lanes'); assumption.
Qed.

Abbreviation passes := (heading_ok preferred_heading max_heading_diff_deg).
Abbreviation before := (key_before preferred_heading).

Lemma key_le_spec (d1 a1 : Q) (l1 : Lane) (d2 a2 : Q) (l2 : Lane) :
  key_le (d1, a1, l1) (d2, a2, l2) = true <->
  (a1 < a2)%Q \/ ((a1 == a2)%Q /\ (d1 <= d2)%Q).
Proof.
  unfold key_le. destruct (Qeq_bool a1 a2) eqn:He.
  - apply Qeq_bool_iff in He. rewrite Qle_bool_iff. split.
    + intros Hd. right. split; assumption.
    + intros [Hlt|[_ Hd]]; [|exact Hd]. rewrite He in Hlt.
      apply Qlt_irrefl in Hlt. destruct Hlt.
  - apply Qeq_bool_neq in He. rewrite Qle_bool_iff. split.
    + intros Hle. left. apply Qle_lteq in Hle. destruct Hle as [Hlt|Heq];
        [exact Hlt|contradiction].
    + intros [Hlt|[Heq _]]; [apply Qlt_le_weak, Hlt|contradiction].
Qed.

Lemma key_le_total (t1 t2 : scored_t) : key_le t1 t2 = false -> key_le t2 t1 = true.
Proof.
  destruct t1 as [[d1 a1] l1], t2 as [[d2 a2] l2]. intros Hf.
  apply key_le_spec. apply not_true_iff_false in Hf. rewrite key_le_spec in Hf.
  destruct (Q_dec a1 a2) as [[Hlt|Hgt]|Heq].
  - destruct Hf. left. exact Hlt.
  - left. exact Hgt.
  - right. split; [symmetry; exact Heq|].
    destruct (Qlt_le_dec d1 d2) as [Hd|Hd]; [|exact Hd].
    destruct Hf. right. split; [exact Heq|apply Qlt_le_weak, Hd].
Qed.

Lemma key_le_trans (t1 t2 t3 : scored_t) :
  key_le t1 t2 = true -> key_le t2 t3 = true -> key_le t1 t3 = true.
Proof.
  destruct t1 as [[d1 a1] l1], t2 as [[d2 a2] l2], t3 as [[d3 a3] l3].
  rewrite !key_le_spec. intros [H12|[E12 D12]] [H23|[E23 D23]].
  - left. eapply Qlt_trans; eassumption.
  - left. rewrite <- E23. exact H12.
  - left. rewrite E12. exact H23.
  - right. split; [rewrite E12; exact E23|eapply Qle_trans; eassumption].
Qed.

(** The first entry of a sorted list is before every entry. *)
Lemma sort_by_head_least {A : Type} (le : A -> A -> bool) (l : list A) :
  (forall x y, le x y = false -> le y x = true) ->
  (forall x y z, le x y = true -> le y z = true -> le x z = true) ->
  forall x rest, sort_by le l = x :: rest -> forall y, y ∈ l -> le x y = true.
Proof.
  intros Htot Htrans.
  assert (Hrefl : forall x, le x x = true).
  { intros x. destruct (le x x) eqn:Hx; [reflexivity|]. apply Htot in Hx as Hx'.
    congruence. }
  assert (Hins : forall a s,
            (forall x rest, s = x :: rest -> forall y, y ∈ s -> le x y = true) ->
            forall x rest, insert_by le a s = x :: rest ->
            forall y, y ∈ a :: s -> le x y = true).
  { intros a s Hs x rest Hi y Hy. destruct s as [|z s'].
    - cbn in Hi. injection Hi as <- <-. apply list_elem_of_singleton in Hy.
      subst y. apply Hrefl.
    - cbn [insert_by] in Hi. specialize (Hs z s' eq_refl).
      destruct (le a z) eqn:Haz.
      + injection Hi as <- <-. apply elem_of_cons in Hy. destruct Hy as [->|Hy].
        * apply Hrefl.
        * apply (Htrans a z y Haz). apply Hs, Hy.
      + injection Hi as <- _. apply elem_of_cons in Hy. destruct Hy as [->|Hy].
        * apply Htot, Haz.
        * apply Hs, Hy. }
  induction l as [|a l IH]; intros x rest Hs y Hy.
  - apply elem_of_nil in Hy. destruct Hy.
  - unfold sort_by in Hs. cbn [foldr] in Hs. fold (sort_by le l) in Hs.
    apply (Hins a (sort_by le l)) with (rest := rest); [|exact Hs|].
    + intros x' rest' Hs' y' Hin'. apply (IH x' rest' Hs').
      apply (elem_of_sort_by le), Hin'.
    + apply elem_of_cons in Hy. destruct Hy as [->|Hy]; [left|right].
      apply (elem_of_sort_by le), Hy.
Qed.

(** The entries of [scored]. *)
Lemma elem_of_score (rc : bool) (candidates : list (Lane * Q)) (t : scored_t) :
  t ∈ score require_vclasses preferred_heading max_heading_diff_deg rc candidates <->
  exists lane dist,
    (lane, dist) ∈ candidates /\ _is_valid_lane lane rc require_vclasses = true /\
    passes lane /\ t = (dist, d_ang preferred_heading lane, lane).
Proof.
  unfold score, heading_ok, d_ang. rewrite list_elem_of_omap. split.
  - intros ([lane dist] & Hin & Hsc). exists lane, dist.
    destruct (_is_valid_lane lane rc require_vclasses); cbn [negb] in Hsc;
      [|discriminate].
    destruct preferred_heading as [pref|].
    + destruct (lane_heading lane) as [h|]; [|discriminate].
      destruct (Qltb max_heading_diff_deg (_angle_diff h pref)) eqn:Hd; [discriminate|].
      injection Hsc as <-. repeat split; try assumption.
      exists h. split; [reflexivity|]. apply Qltb_false, Hd.
    + injection Hsc as <-. repeat split; assumption.
  - intros (lane & dist & Hin & Hv & Hp & ->). exists (lane, dist).
    split; [exact Hin|]. rewrite Hv. cbn [negb].
    destruct preferred_heading as [pref|]; [|reflexivity].
    destruct Hp as (h & -> & Hle). apply Qltb_false in Hle. rewrite Hle. reflexivity.
Qed.


End MatcherProps.

Lemma find_nearest_edge_sound_witness :
  LaneMatcher.find_nearest_edge LaneMatcher.ex_neighbors [] None 0 500 =
    Some ("E1", "E1_0", 42%Q, 300%Q) /\
  exists radius lane,
    radius ∈ LaneMatcher.radius_steps 500 /\
    (lane, 300%Q) ∈ LaneMatcher.ex_neighbors radius /\
    "E1" = LaneMatcher.edge_id lane /\ "E1_0" = LaneMatcher.lane_id lane /\
    42%Q = LaneMatcher.lane_pos lane /\
    String.prefix ":" "E1" = false /\
    (LaneMatcher.edge_function lane ∉
       ["internal"; "connector"; "crossing"; "walkingarea"]) /\
    exists cls, cls ∈ LaneMatcher.ROUTABLE_CLASSES /\ cls ∈ LaneMatcher.lane_allows lane.
Proof.
  split; [reflexivity|].
  apply (find_nearest_edge_sound LaneMatcher.ex_neighbors [] None 0 500
           "E1" "E1_0" 42%Q 300%Q).
  reflexivity.
Defined.


(** ** Timetable conversion: the notation of the service date *)
Section ServiceDateProps.
Import Timetable.

Lemma dashes_append (a b : string) :
  dashes_to_slashes (a +:+ b) = dashes_to_slashes a +:+ dashes_to_slashes b.
Proof.
  induction a as [|c a IH]; [reflexivity|].
  rewrite append_String. cbn [dashes_to_slashes]. rewrite append_String, IH.
  reflexivity.
Qed.

Lemma dashes_rev (s : string) :
  dashes_to_slashes (String.rev s) = String.rev (dashes_to_slashes s).
Proof.
  induction s as [|c s IH]; [reflexivity|].
  cbn [dashes_to_slashes]. rewrite !rev_String, dashes_append, IH. reflexivity.
Qed.

Lemma dashes_lstrip (s : string) :
  dashes_to_slashes (lstrip s) = lstrip (dashes_to_slashes s).
Proof.
  induction s as [|c s IH]; [reflexivity|]. cbn [lstrip dashes_to_slashes].
  destruct (Ascii.eqb_spec c "-") as [->|Hc].
  - reflexivity.
  - destruct (is_space c); [exact IH|]. cbn [dashes_to_slashes].
    destruct (Ascii.eqb_spec c "-"); [contradiction|reflexivity].
Qed.

Lemma dashes_strip (s : string) :
  dashes_to_slashes (strip s) = strip (dashes_to_slashes s).
Proof.
  unfold strip. rewrite <- dashes_lstrip, <- dashes_rev, <- dashes_lstrip, <- dashes_rev.
  reflexivity.
Qed.

Lemma dashes_dashes (s : string) :
  dashes_to_slashes (dashes_to_slashes s) = dashes_to_slashes s.
Proof.
  induction s as [|c s IH]; [reflexivity|]. cbn [dashes_to_slashes]. rewrite IH.
  destruct (Ascii.eqb_spec c "-") as [->|Hc]; [reflexivity|].
  destruct (Ascii.eqb_spec c "-"); [contradiction|reflexivity].
Qed.

Lemma find_never {A : Type} (l : list A) :
  List.find (fun _ => false) l = None.
Proof. induction l; [reflexivity|exact IHl]. Qed.

(** The service date may be written with dashes or with slashes, and
    with blanks around it: two dates with the same normal form select the
    same service group, whatever the other arguments are.  Writing
    slashes for dashes and normalizing again both leave the normal form
    as it is. *)
Theorem service_date_notation (services_info : list (string * ServiceGroup))
    (service_key : option string) (service_policy : string) (d d' : string) :
  _normalize_service_date d = _normalize_service_date d' ->
  _select_single_service_group services_info service_key (Some d) service_policy =
  _select_single_service_group services_info service_key (Some d') service_policy /\
  _normalize_service_date (dashes_to_slashes d) = _normalize_service_date d /\
  _normalize_service_date (_normalize_service_date d) = _normalize_service_date d.
Proof.
  intros Hn. split; [|split].
  - unfold _select_single_service_group.
    destruct (dict_keys services_info) as [|k0 keys']; [reflexivity|].
    destruct (supplied service_key) as [key|]; [reflexivity|].
    assert (Hempty : forall x y,
              _normalize_service_date x = _normalize_service_date y -> x = "" ->
              match supplied (Some y) with
              | Some date =>
                  match
                    List.find
                      (fun k => negb (String.eqb (_normalize_service_date date) "")
                                && contains (_normalize_service_date date) k)
                      (k0 :: keys')
                  with
                  | Some k => Some k
                  | None => None
                  end
              | None => None
              end = None).
    { intros x y Hxy ->. change (_normalize_service_date "") with "" in Hxy.
      destruct (supplied (Some y)) as [date|] eqn:Hs; [|reflexivity].
      cbn in Hs. destruct (String.eqb y ""); [discriminate|]. injection Hs as <-.
      rewrite <- Hxy. cbn [String.eqb negb andb]. rewrite find_never. reflexivity. }
    destruct (String.eqb_spec d "") as [Hd|Hd].
    + rewrite (Hempty d d' Hn Hd). subst d. reflexivity.
    + destruct (String.eqb_spec d' "") as [Hd'|Hd'].
      * rewrite (Hempty d' d (eq_sym Hn) Hd'). subst d'. reflexivity.
      * assert (Hs : forall x, x <> "" -> supplied (Some x) = Some x).
        { intros x Hx. cbn. destruct (String.eqb_spec x ""); [contradiction|reflexivity]. }
        rewrite (Hs d Hd), (Hs d' Hd'), Hn. reflexivity.
  - unfold _normalize_service_date. rewrite <- dashes_strip, dashes_dashes. reflexivity.
  - unfold _normalize_service_date. rewrite <- dashes_strip, strip_strip, dashes_dashes.
    reflexivity.
Qed.

End ServiceDateProps.

Lemma service_date_notation_witness :
  Timetable._normalize_service_date "2024-01-06" =
    Timetable._normalize_service_date " 2024/01/06 " /\
  Timetable._select_single_service_group Timetable.ex_services None
    (Some "2024-01-06") "largest" =
  Timetable._select_single_service_group Timetable.ex_services None
    (Some " 2024/01/06 ") "largest".
Proof.
  split; [reflexivity|].
  apply (service_date_notation Timetable.ex_services None "largest"
           "2024-01-06" " 2024/01/06 "). reflexivity.
Defined.
